(** * Schedule A checker: two-pass name reconciliation

    A shallow embedding of [caura/scripts/A - Checker.ts]: name
    normalisation ([cleanName], [normalizeName], [normalizeActivityName]),
    the similarity scorer ([calculateOptimizedSimilarity],
    [jaccardSimilarity], [levenshteinDistanceWithLimit]), the matching
    part of [main] (index construction, exact pass, batched fuzzy pass and
    the counters it logs), [getColumnLetter], and two more steps of [main]:
    the chunked reading of the roster sheet and the highlighting.

    Data.  A JavaScript string is its sequence of UTF-16 code units, a
    [list N].  A JavaScript [number] that holds a length, an index, a
    counter or a cell of the edit-distance table is an integer and is
    modelled as [Z] or [nat]; the threshold and the similarity scores are
    IEEE 754 binary64 values, modelled by the primitive [float] type, with
    the same operations and roundings as the script.  Arrays of entry
    objects are lists; the arrays [filter] builds hold references to the
    same objects and are modelled as lists of positions in the array that
    owns the objects. *)

From Stdlib Require Import ZArith NArith List String Ascii Bool Lia Floats.
From stdpp Require Import base option list gmap.
Import ListNotations.

Set Warnings "-inexact-float".
Local Open Scope N_scope.

(** * The script

    ** Strings *)

Abbreviation jsstring := (list N).

(** Reading of an ASCII literal as a JavaScript string. *)
Definition js (s : string) : jsstring :=
  List.map N_of_ascii (list_ascii_of_string s).

(** WhiteSpace and LineTerminator code points of ECMAScript: what [trim]
    removes and what the class [\s] matches. *)
Definition isWhiteSpace (c : N) : bool :=
  ((9 <=? c) && (c <=? 13)) || (c =? 32) || (c =? 160) || (c =? 5760)
  || ((8192 <=? c) && (c <=? 8202)) || (c =? 8232) || (c =? 8233)
  || (c =? 8239) || (c =? 8287) || (c =? 12288) || (c =? 65279).

(** The class [a-z]. *)
Definition isLowerAZ (c : N) : bool := (97 <=? c) && (c <=? 122).

Fixpoint dropWhile (p : N -> bool) (s : jsstring) : jsstring :=
  match s with
  | [] => []
  | c :: s' => if p c then dropWhile p s' else s
  end.

Fixpoint takeWhile (p : N -> bool) (s : jsstring) : jsstring :=
  match s with
  | [] => []
  | c :: s' => if p c then c :: takeWhile p s' else []
  end.

(** [s.trim()] *)
Definition trim (s : jsstring) : jsstring :=
  rev (dropWhile isWhiteSpace (rev (dropWhile isWhiteSpace s))).

(** [s.split("(")[0]]: the text before the first opening parenthesis
    (code unit 40), the whole string when there is none. *)
Definition beforeParen (s : jsstring) : jsstring :=
  takeWhile (fun c => negb (c =? 40)) s.

(** [s.toLowerCase()], one code unit at a time.  The letters A-Z move to
    a-z; U+0130 becomes "i" followed by U+0307 and U+212A (Kelvin sign)
    becomes "k": these are the only code points whose lower-case form
    contains a unit of a-z.  Every other unit is left as it is: its
    lower-case form lies outside a-z, and each use of [toLowerCase] in the
    script is followed by the removal of all units outside a-z. *)
Definition toLowerCaseUnit (c : N) : jsstring :=
  if (65 <=? c) && (c <=? 90) then [c + 32]
  else if c =? 304 then [105; 775]
  else if c =? 8490 then [107]
  else [c].

Definition toLowerCase (s : jsstring) : jsstring :=
  flat_map toLowerCaseUnit s.

(** [s.replace(/\s+/g, "")] *)
Definition removeWhiteSpace (s : jsstring) : jsstring :=
  List.filter (fun c => negb (isWhiteSpace c)) s.

(** [s.replace(/[^a-z]/g, "")] *)
Definition removeNonLetters (s : jsstring) : jsstring :=
  List.filter isLowerAZ s.

(** [s.replace(/ - /g, " ")]: matches are found from the left and do not
    overlap; the scan resumes after a replaced match. *)
Fixpoint replaceSpaceHyphenSpace (s : jsstring) : jsstring :=
  match s with
  | [] => []
  | c1 :: tl =>
      match tl with
      | c2 :: c3 :: rest =>
          if (c1 =? 32) && (c2 =? 45) && (c3 =? 32)
          then 32 :: replaceSpaceHyphenSpace rest
          else c1 :: replaceSpaceHyphenSpace tl
      | _ => c1 :: replaceSpaceHyphenSpace tl
      end
  end.

(** [s.replace(/- /g, "")] *)
Fixpoint replaceHyphenSpace (s : jsstring) : jsstring :=
  match s with
  | [] => []
  | c1 :: tl =>
      match tl with
      | c2 :: rest =>
          if (c1 =? 45) && (c2 =? 32)
          then replaceHyphenSpace rest
          else c1 :: replaceHyphenSpace tl
      | [] => c1 :: replaceHyphenSpace tl
      end
  end.

(** [s.replace(/ -$/g, "")]: without the [m] flag [$] is the end of the
    input, so at most the last two units go. *)
Definition replaceSpaceHyphenEnd (s : jsstring) : jsstring :=
  match rev s with
  | c2 :: c1 :: r => if (c1 =? 32) && (c2 =? 45) then rev r else s
  | _ => s
  end.

(** ** NameNormalizer *)

Definition cleanName (name : jsstring) : jsstring :=
  let cleaned := trim (beforeParen name) in
  let cleaned := replaceSpaceHyphenSpace cleaned in
  let cleaned := replaceHyphenSpace cleaned in
  let cleaned := replaceSpaceHyphenEnd cleaned in
  trim cleaned.

Definition normalizeName (firstName lastName : jsstring) : jsstring :=
  let combined := toLowerCase (firstName ++ lastName) in
  removeNonLetters (removeWhiteSpace combined).

Definition normalizeActivityName (name : jsstring) : jsstring :=
  let cleaned := toLowerCase (trim (beforeParen name)) in
  removeNonLetters (removeWhiteSpace cleaned).

(** The pipeline applied to a Schedule A cell. *)
Definition normalize (text : jsstring) : jsstring :=
  normalizeActivityName (cleanName text).

(** ** Numbers *)

Local Open Scope Z_scope.

(** An integer as a double (round to nearest, ties to even; exact below
    2^53, which covers every length, index and counter of the script). *)
Definition ofZ (z : Z) : float :=
  SF2Prim (binary_normalize prec emax z 0 false).

(** What [Math.floor] returns, as the script uses it: an integer, or a
    value (NaN, infinity) against which every test [v > maxDistance] on an
    integer [v] is false. *)
Inductive limit : Type :=
  | Limit (k : Z)
  | NoLimit.

(** [Math.floor(x)] for a double [x = (-1)^s * m * 2^e]; a shift by a
    negative amount is the division by a power of two rounded down.
    Minus infinity never reaches the one call of [Math.floor]: the length
    filter before it has returned by then, as no length difference is
    below it. *)
Definition Math_floor (x : float) : limit :=
  match Prim2SF x with
  | S754_zero _ => Limit 0
  | S754_finite s m e => Limit (Z.shiftl (if s then Z.neg m else Z.pos m) e)
  | S754_infinity _ => NoLimit
  | S754_nan => NoLimit
  end.

(** [v > maxDistance] for an integer [v]. *)
Definition exceeds (v : Z) (maxDistance : limit) : bool :=
  match maxDistance with
  | Limit k => k <? v
  | NoLimit => false
  end.

(** ** SimilarityScorer *)

(** A [Set<string>] of code units: its elements in insertion order. *)
Definition setHas (set : list N) (c : N) : bool := existsb (N.eqb c) set.

Definition setAdd (set : list N) (c : N) : list N :=
  if setHas set c then set else set ++ [c].

(** [new Set(str.split(""))] and [Array.from] of it. *)
Definition newSet (str : jsstring) : list N := fold_left setAdd str [].

Definition jaccardCounts (str1 str2 : jsstring) : Z * Z :=
  let set1 := newSet str1 in
  let set2 := newSet str2 in
  let arr1 := set1 in
  let arr2 := set2 in
  let intersection := List.filter (fun x => setHas set2 x) arr1 in
  let union := arr1 ++ List.filter (fun x => negb (setHas set1 x)) arr2 in
  (Z.of_nat (length intersection), Z.of_nat (length union)).

Definition jaccardSimilarity (str1 str2 : jsstring) : float :=
  let (intersection, union) := jaccardCounts str1 str2 in
  (ofZ intersection / ofZ union)%float.

(** [str1[i] === str2[j]] on the results of two reads. *)
Definition sameUnit (a b : option N) : bool :=
  match a, b with
  | Some x, Some y => N.eqb x y
  | None, None => true
  | _, _ => false
  end.

(** One turn of the inner loop: cell [j] of row [i]. *)
Definition fillCell (str1 str2 : jsstring) (i : nat) (prev : list Z)
    (st : list Z * Z) (j : nat) : list Z * Z :=
  let (curr, minInRow) := st in
  let cost := if sameUnit (str1 !! (i - 1)%nat) (str2 !! (j - 1)%nat) then 0 else 1 in
  let v :=
    Z.min (Z.min (prev !!! j + 1) (curr !!! (j - 1)%nat + 1))
          (prev !!! (j - 1)%nat + cost) in
  (<[j := v]> curr, Z.min minInRow v).

(** The inner loop for row [i]: [curr[0] = i], [minInRow = i], then the
    cells 1..n. *)
Definition fillRow (str1 str2 : jsstring) (i : nat) (prev curr : list Z)
    : list Z * Z :=
  fold_left (fillCell str1 str2 i prev) (seq 1 (length str2))
            (<[0%nat := Z.of_nat i]> curr, Z.of_nat i).

(** The outer loop over the rows still to fill, with its early return and
    the swap of the two arrays. *)
Fixpoint rowLoop (str1 str2 : jsstring) (maxDistance : limit)
    (rows : list nat) (prev curr : list Z) : Z :=
  match rows with
  | [] => prev !!! length str2
  | i :: rows' =>
      let (curr', minInRow) := fillRow str1 str2 i prev curr in
      match maxDistance with
      | Limit k =>
          if k <? minInRow then k + 1
          else rowLoop str1 str2 maxDistance rows' curr' prev
      | NoLimit => rowLoop str1 str2 maxDistance rows' curr' prev
      end
  end.

Definition levenshteinDistanceWithLimit (str1 str2 : jsstring)
    (maxDistance : limit) : Z :=
  let m := length str1 in
  let n := length str2 in
  let prev := List.map Z.of_nat (seq 0 (n + 1)) in
  let curr := repeat 0 (n + 1) in
  rowLoop str1 str2 maxDistance (seq 1 m) prev curr.

Definition calculateOptimizedSimilarity (str1 str2 : jsstring)
    (threshold : float) : float :=
  let lengthDiff := Z.abs (Z.of_nat (length str1) - Z.of_nat (length str2)) in
  let maxLength := Z.max (Z.of_nat (length str1)) (Z.of_nat (length str2)) in
  if maxLength =? 0 then 1%float
  else if (ofZ maxLength * (1 - threshold) <? ofZ lengthDiff)%float then 0%float
  else if negb (sameUnit (head str1) (head str2)) then 0%float
  else if (jaccardSimilarity str1 str2 <? 0.6)%float then 0%float
  else
    let maxDistance := Math_floor (ofZ maxLength * (1 - threshold))%float in
    let distance := levenshteinDistanceWithLimit str1 str2 maxDistance in
    if exceeds distance maxDistance then 0%float
    else ((ofZ maxLength - ofZ distance) / ofZ maxLength)%float.

Definition tau : float := 0.85%float.

(** ** The matcher: the matching part of [main]

    The script reads the two sheets, builds the entry arrays, runs the two
    passes and logs the counters.  The model starts from the data rows as
    read (row 0 of each sheet is its header, so the data rows are numbered
    from 1) and stops before the cell formatting, which [pinkCells] and
    [redCells] below model on the final state. *)

(** The three cells of a data row of the Roster sheet, as strings. *)
Record RosterRow : Type := mkRosterRow {
  FirstName : jsstring;
  LastName : jsstring;
  Roster : jsstring
}.

(** [RosterEntry] and [ActivityEntry]: the two interfaces have the same
    fields. *)
Record Entry : Type := mkEntry {
  normalizedName : jsstring;
  rowIndex : nat;
  matched : bool
}.

(** [entry.matched = true] *)
Definition setMatched (e : Entry) : Entry :=
  {| normalizedName := normalizedName e; rowIndex := rowIndex e; matched := true |}.

(** The pair of entries marked together at one place of the script, each
    named by its position in the array that owns it ([scheduleANames],
    [eligibleRosterNames]); a fuzzy pair carries [bestMatchScore].  The
    script keeps no such record: the list of pairs is added to the state to
    state who was matched with whom. *)
Inductive Pair : Type :=
  | ExactPair (activity roster : nat)
  | FuzzyPair (activity roster : nat) (score : float).

Definition pairActivity (p : Pair) : nat :=
  match p with ExactPair a _ => a | FuzzyPair a _ _ => a end.

Definition pairRoster (p : Pair) : nat :=
  match p with ExactPair _ r => r | FuzzyPair _ r _ => r end.

Definition isFuzzy (p : Pair) : bool :=
  match p with ExactPair _ _ => false | FuzzyPair _ _ _ => true end.

Record State : Type := mkState {
  scheduleANames : list Entry;
  eligibleRosterNames : list Entry;
  exactMatches : Z;
  fuzzyMatches : Z;
  pairs : list Pair
}.

(** A string in a condition: true unless empty. *)
Definition truthy (s : jsstring) : bool :=
  match s with [] => false | _ :: _ => true end.

Definition scheduleATypes : list jsstring :=
  [js "Schedule A"; js "Schedule A Monthly"; js "Weekly"; js "TriWeekly"].

(** One turn of the loop over the roster rows. *)
Definition rosterStep (acc : list Entry * gmap (list N) nat) (row : nat)
    (r : RosterRow) : list Entry * gmap (list N) nat :=
  let (eligibleRosterNames, exactMatchMap) := acc in
  let rosterType := trim (Roster r) in
  if bool_decide (rosterType ∈ scheduleATypes) then
    let firstName := cleanName (FirstName r) in
    let lastName := cleanName (LastName r) in
    let normalizedName := normalizeName firstName lastName in
    if truthy normalizedName then
      let entryIndex := length eligibleRosterNames in
      (eligibleRosterNames ++ [mkEntry normalizedName row false],
       <[normalizedName := entryIndex]> exactMatchMap)
    else acc
  else acc.

Fixpoint rosterLoop (rows : list RosterRow) (row : nat)
    (acc : list Entry * gmap (list N) nat) : list Entry * gmap (list N) nat :=
  match rows with
  | [] => acc
  | r :: rows' => rosterLoop rows' (S row) (rosterStep acc row r)
  end.

Definition buildRoster (rows : list RosterRow) : list Entry * gmap (list N) nat :=
  rosterLoop rows 1 ([], ∅).

(** One turn of the loop over the Schedule A cells. *)
Definition activityStep (acc : list Entry) (row : nat) (cell : jsstring)
    : list Entry :=
  let scheduledName := cell in
  if truthy (trim scheduledName) then
    let cleanedName := cleanName scheduledName in
    let normalizedName := normalizeActivityName cleanedName in
    if truthy normalizedName then acc ++ [mkEntry normalizedName row false]
    else acc
  else acc.

Fixpoint activityLoop (cells : list jsstring) (row : nat) (acc : list Entry)
    : list Entry :=
  match cells with
  | [] => acc
  | cell :: cells' => activityLoop cells' (S row) (activityStep acc row cell)
  end.

Definition buildActivity (cells : list jsstring) : list Entry :=
  activityLoop cells 1 [].

(** [forEach] with a callback that may throw: [None] is the exception. *)
Fixpoint forEachIndexed {A St : Type} (f : St -> A -> nat -> option St)
    (l : list A) (index : nat) (s : St) : option St :=
  match l with
  | [] => Some s
  | x :: l' =>
      match f s x index with
      | Some s' => forEachIndexed f l' (S index) s'
      | None => None
      end
  end.

Definition forEach {A St : Type} (f : St -> A -> option St) (l : list A) (s : St)
    : option St :=
  forEachIndexed (fun s x _ => f s x) l 0 s.

(** First pass, one activity entry (at position [p] of [scheduleANames]).
    Reading a field of an absent element throws. *)
Definition exactStep (exactMatchMap : gmap (list N) nat) (st : State) (p : nat)
    : option State :=
  match scheduleANames st !! p with
  | None => None
  | Some activityEntry =>
      match exactMatchMap !! normalizedName activityEntry with
      | Some exactMatchIndex =>
          match eligibleRosterNames st !! exactMatchIndex with
          | None => None
          | Some rosterEntry =>
              Some {| scheduleANames :=
                        <[p := setMatched activityEntry]> (scheduleANames st);
                      eligibleRosterNames :=
                        <[exactMatchIndex := setMatched rosterEntry]>
                          (eligibleRosterNames st);
                      exactMatches := exactMatches st + 1;
                      fuzzyMatches := fuzzyMatches st;
                      pairs := pairs st ++ [ExactPair p exactMatchIndex] |}
          end
      | None => Some st
      end
  end.

(** [array.filter(entry => !entry.matched)]: the result holds the same
    objects, here their positions in [array], counted from [off]. *)
Fixpoint unmatchedFrom (off : nat) (array : list Entry) : list nat :=
  match array with
  | [] => []
  | entry :: rest =>
      if matched entry then unmatchedFrom (S off) rest
      else off :: unmatchedFrom (S off) rest
  end.

Definition unmatchedRefs (array : list Entry) : list nat := unmatchedFrom 0 array.

(** One turn of the scan of the candidates: [best] is
    [(bestMatchScore, bestMatchIndex)], with [None] for the index -1. *)
Definition scanStep (roster : list Entry) (activityName : jsstring)
    (best : float * option nat) (ref index : nat) : option (float * option nat) :=
  match roster !! ref with
  | None => None
  | Some rosterEntry =>
      let similarity :=
        calculateOptimizedSimilarity activityName (normalizedName rosterEntry) tau in
      Some (if (fst best <? similarity)%float then (similarity, Some index) else best)
  end.

(** [array.findIndex(p)], [None] for -1. *)
Fixpoint findIndexFrom (p : Entry -> bool) (off : nat) (array : list Entry)
    : option nat :=
  match array with
  | [] => None
  | entry :: rest => if p entry then Some off else findIndexFrom p (S off) rest
  end.

Definition findIndex (p : Entry -> bool) (array : list Entry) : option nat :=
  findIndexFrom p 0 array.

(** Second pass, one activity entry of a batch. *)
Definition fuzzyStep (unmatchedRosterNames : list nat) (st : State) (ref : nat)
    : option State :=
  match scheduleANames st !! ref with
  | None => None
  | Some activityEntry =>
      match forEachIndexed
              (scanStep (eligibleRosterNames st) (normalizedName activityEntry))
              unmatchedRosterNames 0 (0%float, None) with
      | None => None
      | Some (bestMatchScore, bestMatchIndex) =>
          if (tau <? bestMatchScore)%float then
            match bestMatchIndex with
            | None => None
            | Some index =>
                match unmatchedRosterNames !! index with
                | None => None
                | Some rosterRef =>
                    match eligibleRosterNames st !! rosterRef with
                    | None => None
                    | Some rosterEntry =>
                        let roster :=
                          <[rosterRef := setMatched rosterEntry]>
                            (eligibleRosterNames st) in
                        let originalIndex :=
                          findIndex
                            (fun entry => Nat.eqb (rowIndex entry) (rowIndex rosterEntry))
                            roster in
                        Some {| scheduleANames :=
                                  <[ref := setMatched activityEntry]> (scheduleANames st);
                                eligibleRosterNames :=
                                  match originalIndex with
                                  | Some i => alter setMatched i roster
                                  | None => roster
                                  end;
                                exactMatches := exactMatches st;
                                fuzzyMatches := fuzzyMatches st + 1;
                                pairs :=
                                  pairs st ++ [FuzzyPair ref rosterRef bestMatchScore] |}
                    end
                end
            end
          else Some st
      end
  end.

Definition BATCH_SIZE : nat := 50.

(** The loop over the batches; [fuel] bounds the number of turns, and
    running out of it is reported like an exception. *)
Fixpoint batchLoop (fuel : nat) (unmatchedActivityNames unmatchedRosterNames : list nat)
    (batchStart : nat) (st : State) : option State :=
  if (batchStart <? length unmatchedActivityNames)%nat then
    match fuel with
    | O => None
    | S fuel' =>
        let batch := take BATCH_SIZE (drop batchStart unmatchedActivityNames) in
        match forEach (fuzzyStep unmatchedRosterNames) batch st with
        | None => None
        | Some st' =>
            batchLoop fuel' unmatchedActivityNames unmatchedRosterNames
                      (batchStart + BATCH_SIZE) st'
        end
    end
  else Some st.

Definition exactPass (rosterRows : list RosterRow) (activityCells : list jsstring)
    : option State :=
  let (eligibleRosterNames, exactMatchMap) := buildRoster rosterRows in
  let scheduleANames := buildActivity activityCells in
  forEach (exactStep exactMatchMap) (seq 0 (length scheduleANames))
          (mkState scheduleANames eligibleRosterNames 0 0 []).

Definition fuzzyPass (st : State) : option State :=
  let unmatchedActivityNames := unmatchedRefs (scheduleANames st) in
  let unmatchedRosterNames := unmatchedRefs (eligibleRosterNames st) in
  batchLoop (length unmatchedActivityNames) unmatchedActivityNames
            unmatchedRosterNames 0 st.

(** The two passes; the result carries what the script logs. *)
Definition main (rosterRows : list RosterRow) (activityCells : list jsstring)
    : option State :=
  match exactPass rosterRows activityCells with
  | None => None
  | Some st => fuzzyPass st
  end.

(** "[n] unmatched Schedule A entries highlighted in pink" *)
Definition unmatchedScheduleA (st : State) : Z :=
  Z.of_nat (length (scheduleANames st)) - exactMatches st - fuzzyMatches st.

(** The roster entries whose text stays black. *)
Definition unmatchedRoster (st : State) : Z :=
  Z.of_nat (length (List.filter (fun e => negb (matched e)) (eligibleRosterNames st))).

(** ** The header row and the columns: the first step of [main]

    A cell of a sheet holds a string, a number or a boolean; the script
    uses its truthiness and the result of its [toString()]. *)
Record Cell : Type := mkCell {
  cellTruthy : bool;
  cellText : jsstring
}.

(** A cell that holds a string. *)
Definition stringCell (s : jsstring) : Cell := mkCell (truthy s) s.

(** [s.startsWith(sub)] *)
Fixpoint startsWith (s sub : jsstring) : bool :=
  match sub, s with
  | [], _ => true
  | _ :: _, [] => false
  | b :: sub', a :: s' => N.eqb a b && startsWith s' sub'
  end.

(** [s.includes(sub)] *)
Fixpoint includes (s sub : jsstring) : bool :=
  startsWith s sub
  || match s with
     | [] => false
     | _ :: s' => includes s' sub
     end.

(** [cell && cell.toString().includes(name)] *)
Definition mentions (name : jsstring) (cell : Cell) : bool :=
  cellTruthy cell && includes (cellText cell) name.

(** The test on a row of the range A1:Z10. *)
Definition isHeaderRow (row : list Cell) : bool :=
  existsb (mentions (js "FirstName")) row
  || existsb (mentions (js "LastName")) row
  || existsb (mentions (js "Roster")) row.

(** The loop over the rows, which stops at the first header row: the
    values of [headerRowIndex] and [rosterHeaderRow], [None] for -1. *)
Fixpoint findHeaderRow (i : nat) (headerValues : list (list Cell))
    : option (nat * list Cell) :=
  match headerValues with
  | [] => None
  | row :: rest =>
      if isHeaderRow row then Some (i, row) else findHeaderRow (S i) rest
  end.

(** [col && col.toString().trim() === name] *)
Definition isColumn (name : jsstring) (col : Cell) : bool :=
  cellTruthy col && bool_decide (trim (cellText col) = name).

(** [array.findIndex(p)] on a row, [None] for -1. *)
Fixpoint findColumnFrom (p : Cell -> bool) (off : nat) (array : list Cell)
    : option nat :=
  match array with
  | [] => None
  | col :: rest => if p col then Some off else findColumnFrom p (S off) rest
  end.

Record Columns : Type := mkColumns {
  headerRowIndex : nat;
  firstNameColIndex : nat;
  lastNameColIndex : nat;
  rosterColIndex : nat
}.

(** The header row and the three column indexes; [None] where the script
    logs what is missing and returns. *)
Definition findColumns (headerValues : list (list Cell)) : option Columns :=
  match findHeaderRow 0 headerValues with
  | None => None
  | Some (i, rosterHeaderRow) =>
      match findColumnFrom (isColumn (js "FirstName")) 0 rosterHeaderRow,
            findColumnFrom (isColumn (js "LastName")) 0 rosterHeaderRow,
            findColumnFrom (isColumn (js "Roster")) 0 rosterHeaderRow with
      | Some f, Some l, Some r => Some (mkColumns i f l r)
      | _, _, _ => None
      end
  end.

(** ** Column letters: [getColumnLetter] *)

(** The loop of [getColumnLetter] on an integer column number; [fuel]
    bounds the number of turns and [None] reports that it ran out.  The
    script computes on doubles: the integer arithmetic below is what it
    does for the column numbers it is called with, an array index plus one
    (up to 2^32), where every intermediate value is an integer that a
    double holds exactly; it is not what the script does on larger numbers,
    on fractions, on NaN or on an infinity. *)
Fixpoint columnLoop (fuel : nat) (columnNumber : Z) (columnLetter : jsstring)
    : option jsstring :=
  if 0 <? columnNumber then
    match fuel with
    | O => None
    | S fuel' =>
        let remainder := Z.rem (columnNumber - 1) 26 in
        columnLoop fuel' ((columnNumber - 1) / 26)
                   (Z.to_N (65 + remainder) :: columnLetter)
    end
  else Some columnLetter.

Definition getColumnLetter (columnNumber : Z) : option jsstring :=
  columnLoop (Z.to_nat columnNumber) columnNumber [].

(** ** The highlighting: the last step of [main]

    A cell address [`${column}${row}`], kept as its two parts. *)
Record Address : Type := mkAddress {
  addressColumn : jsstring;
  addressRow : Z
}.

(** One turn of the loop that fills the unmatched Schedule A cells with
    light pink; [pink] lists the cells filled so far. *)
Definition pinkStep (scheduleAColIndex : Z) (pink : list Address) (entry : Entry)
    : option (list Address) :=
  if negb (matched entry) then
    let excelRowNumber := Z.of_nat (rowIndex entry) + 1 in
    match getColumnLetter (scheduleAColIndex + 1) with
    | None => None
    | Some scheduleAColLetter =>
        if (0 <? excelRowNumber) && truthy scheduleAColLetter
        then Some (pink ++ [mkAddress scheduleAColLetter excelRowNumber])
        else Some pink
    end
  else Some pink.

Definition pinkCells (scheduleAColIndex : Z) (st : State) : option (list Address) :=
  forEach (pinkStep scheduleAColIndex) (scheduleANames st) [].

(** One turn of the loop that turns the text of the matched roster cells
    red. *)
Definition redStep (headerRowIndex rosterColIndex : Z) (red : list Address)
    (entry : Entry) : option (list Address) :=
  if matched entry then
    let actualExcelRow := headerRowIndex + 1 + Z.of_nat (rowIndex entry) in
    match getColumnLetter (rosterColIndex + 1) with
    | None => None
    | Some rosterColLetter =>
        if (0 <? actualExcelRow) && truthy rosterColLetter
        then Some (red ++ [mkAddress rosterColLetter actualExcelRow])
        else Some red
    end
  else Some red.

Definition redCells (headerRowIndex rosterColIndex : Z) (st : State)
    : option (list Address) :=
  forEach (redStep headerRowIndex rosterColIndex) (eligibleRosterNames st) [].

(** "[n] matched roster entries marked with red text" *)
Definition matchedRosterLogged (st : State) : Z := exactMatches st + fuzzyMatches st.

(** ** Reading the roster sheet in chunks: the loop of [main] that
    fills [rosterValues]

    [sheetRow r] stands for the values of row [r] of the sheet in the
    columns read, and [getValues sheetRow startRow endRow] for the result of
    [getRange(`A${startRow}:...${endRow}`).getValues()]: one element for each
    row of the range.  The result of [getValues] is an array, so the branch
    that stops the loop on a failed read is never taken. *)

Definition getValues {Row : Type} (sheetRow : Z -> Row) (startRow endRow : Z)
    : list Row :=
  List.map (fun k => sheetRow (startRow + Z.of_nat k))
           (seq 0 (Z.to_nat (endRow - startRow + 1))).

Definition CHUNK_SIZE : Z := 500.

(** [fuel] bounds the number of turns and [None] reports that it ran
    out. *)
Fixpoint chunkLoop {Row : Type} (sheetRow : Z -> Row) (fuel : nat)
    (startRow actualEndRow : Z) (rosterValues : list Row) : option (list Row) :=
  if startRow <=? actualEndRow then
    match fuel with
    | O => None
    | S fuel' =>
        let endRow := Z.min (startRow + CHUNK_SIZE - 1) actualEndRow in
        let chunkValues := getValues sheetRow startRow endRow in
        chunkLoop sheetRow fuel' (startRow + CHUNK_SIZE) actualEndRow
                  (rosterValues ++ chunkValues)
    end
  else Some rosterValues.

(** [rosterValues] after the loop; the header row is pushed first. *)
Definition readRoster {Row : Type} (sheetRow : Z -> Row)
    (headerRowIndex actualEndRow : Z) (rosterHeaderRow : Row) : option (list Row) :=
  chunkLoop sheetRow (Z.to_nat actualEndRow) (headerRowIndex + 2) actualEndRow
            [rosterHeaderRow].

(** * What the script computes *)

Local Close Scope Z_scope.

(** The simpler normaliser of the refinement claim, written from its
    wording: truncate at the first "(", lowercase, delete every unit
    outside a-z. *)
Definition simpleNormalize (text : jsstring) : jsstring :=
  removeNonLetters (toLowerCase (beforeParen text)).

(** * Normalisation

    *** Letters of a string

    [letters s] is what the final strip keeps of the lower-cased [s];
    it is a monoid morphism, and the units it maps to nothing ("silent"
    units) can be removed or inserted freely. *)

Definition lettersOfUnit (c : N) : jsstring :=
  List.filter isLowerAZ (toLowerCaseUnit c).

Definition letters (s : jsstring) : jsstring :=
  removeNonLetters (toLowerCase s).

Definition silent (c : N) : Prop := lettersOfUnit c = [].

Lemma filter_flat_map (p : N -> bool) (f : N -> jsstring) (s : jsstring) :
  List.filter p (flat_map f s) = flat_map (fun c => List.filter p (f c)) s.
Proof.
  induction s as [|c s IH]; simpl; [reflexivity|].
  rewrite List.filter_app, IH. reflexivity.
Qed.

Lemma letters_flat_map (s : jsstring) : letters s = flat_map lettersOfUnit s.
Proof. apply filter_flat_map. Qed.

Lemma letters_cons (c : N) (s : jsstring) :
  letters (c :: s) = lettersOfUnit c ++ letters s.
Proof. rewrite !letters_flat_map. reflexivity. Qed.

Lemma letters_app (s t : jsstring) : letters (s ++ t) = letters s ++ letters t.
Proof. rewrite !letters_flat_map. apply flat_map_app. Qed.

Lemma letters_silent_cons (c : N) (s : jsstring) :
  silent c -> letters (c :: s) = letters s.
Proof. intros H. rewrite letters_cons, H. reflexivity. Qed.

Ltac bool_to_N :=
  repeat match goal with
  | H : _ && _ = true |- _ => apply andb_prop in H; destruct H
  | H : _ || _ = true |- _ => apply orb_prop in H; destruct H
  | H : (_ <=? _) = true |- _ => apply N.leb_le in H
  | H : (_ =? _) = true |- _ => apply N.eqb_eq in H
  | H : (_ <=? _) = false |- _ => apply N.leb_gt in H
  | H : (_ =? _) = false |- _ => apply N.eqb_neq in H
  end.

Lemma whitespace_silent (c : N) : isWhiteSpace c = true -> silent c.
Proof.
  unfold isWhiteSpace, silent, lettersOfUnit, toLowerCaseUnit, isLowerAZ.
  intros H. bool_to_N; subst;
    repeat match goal with
    | |- context [if ?b then _ else _] => destruct b eqn:?; bool_to_N; try lia
    end; simpl; unfold isLowerAZ;
    repeat match goal with
    | |- context [?a <=? ?b] => destruct (N.leb_spec a b); simpl; try lia
    end; reflexivity.
Qed.

Lemma letters_all_silent (s : jsstring) :
  Forall silent s -> letters s = [].
Proof.
  induction 1 as [|c s Hc _ IH]; [reflexivity|].
  rewrite letters_silent_cons; assumption.
Qed.

Lemma dropWhile_split (p : N -> bool) (s : jsstring) :
  exists pre, s = pre ++ dropWhile p s /\ Forall (fun c => p c = true) pre.
Proof.
  induction s as [|c s [pre [Heq Hpre]]]; simpl.
  - exists []. split; [reflexivity | constructor].
  - destruct (p c) eqn:Hc.
    + exists (c :: pre). split; [simpl; congruence | constructor; assumption].
    + exists []. split; [reflexivity | constructor].
Qed.

Lemma trim_split (s : jsstring) :
  exists pre post,
    s = pre ++ trim s ++ post
    /\ Forall (fun c => isWhiteSpace c = true) pre
    /\ Forall (fun c => isWhiteSpace c = true) post.
Proof.
  unfold trim.
  destruct (dropWhile_split isWhiteSpace s) as [pre [H1 Hpre]].
  destruct (dropWhile_split isWhiteSpace (rev (dropWhile isWhiteSpace s)))
    as [post [H2 Hpost]].
  exists pre, (rev post). repeat split.
  - rewrite <- rev_app_distr, <- H2, rev_involutive. exact H1.
  - exact Hpre.
  - apply List.Forall_forall. intros c Hc. apply in_rev in Hc.
    exact (proj1 (List.Forall_forall _ _) Hpost c Hc).
Qed.

Lemma whitespace_all_silent (s : jsstring) :
  Forall (fun c => isWhiteSpace c = true) s -> letters s = [].
Proof.
  intros H. apply letters_all_silent.
  eapply List.Forall_impl; [|exact H]. exact whitespace_silent.
Qed.

Lemma letters_trim (s : jsstring) : letters (trim s) = letters s.
Proof.
  destruct (trim_split s) as [pre [post [Heq [Hpre Hpost]]]].
  rewrite Heq at 2. rewrite !letters_app.
  rewrite (whitespace_all_silent pre Hpre), (whitespace_all_silent post Hpost).
  simpl. rewrite app_nil_r. reflexivity.
Qed.

Lemma letters_replaceSpaceHyphenSpace (s : jsstring) :
  letters (replaceSpaceHyphenSpace s) = letters s.
Proof.
  remember (length s) as n eqn:Hn.
  revert s Hn. induction n as [n IH] using lt_wf_ind. intros s Hn.
  destruct s as [|c1 [|c2 [|c3 rest]]]; try reflexivity.
  change (replaceSpaceHyphenSpace (c1 :: c2 :: c3 :: rest))
    with (if (c1 =? 32) && (c2 =? 45) && (c3 =? 32)
          then 32 :: replaceSpaceHyphenSpace rest
          else c1 :: replaceSpaceHyphenSpace (c2 :: c3 :: rest)).
  simpl in Hn.
  destruct ((c1 =? 32) && (c2 =? 45) && (c3 =? 32)) eqn:Hm.
  - bool_to_N; subst c1 c2 c3.
    rewrite !letters_silent_cons by reflexivity.
    apply (IH (length rest)); [lia | reflexivity].
  - rewrite !(letters_cons c1). f_equal.
    apply (IH (length (c2 :: c3 :: rest))); [simpl; lia | reflexivity].
Qed.

Lemma letters_replaceHyphenSpace (s : jsstring) :
  letters (replaceHyphenSpace s) = letters s.
Proof.
  remember (length s) as n eqn:Hn.
  revert s Hn. induction n as [n IH] using lt_wf_ind. intros s Hn.
  destruct s as [|c1 [|c2 rest]]; try reflexivity.
  change (replaceHyphenSpace (c1 :: c2 :: rest))
    with (if (c1 =? 45) && (c2 =? 32)
          then replaceHyphenSpace rest
          else c1 :: replaceHyphenSpace (c2 :: rest)).
  simpl in Hn.
  destruct ((c1 =? 45) && (c2 =? 32)) eqn:Hm.
  - bool_to_N; subst c1 c2.
    rewrite !letters_silent_cons by reflexivity.
    apply (IH (length rest)); [lia | reflexivity].
  - rewrite !(letters_cons c1). f_equal.
    apply (IH (length (c2 :: rest))); [simpl; lia | reflexivity].
Qed.

Lemma letters_replaceSpaceHyphenEnd (s : jsstring) :
  letters (replaceSpaceHyphenEnd s) = letters s.
Proof.
  unfold replaceSpaceHyphenEnd.
  destruct (rev s) as [|c2 [|c1 r]] eqn:Hr; try reflexivity.
  destruct ((c1 =? 32) && (c2 =? 45)) eqn:Hm; [|reflexivity].
  bool_to_N; subst c1 c2.
  assert (Hs : s = rev r ++ [32; 45]).
  { rewrite <- (rev_involutive s), Hr. simpl. rewrite <- app_assoc. reflexivity. }
  rewrite Hs, letters_app.
  change (letters [32; 45]) with (@nil N). rewrite app_nil_r. reflexivity.
Qed.

(** What [cleanName] removes or inserts never reaches the normalised name. *)
Lemma letters_cleanName (s : jsstring) :
  letters (cleanName s) = letters (beforeParen s).
Proof.
  unfold cleanName.
  rewrite letters_trim, letters_replaceSpaceHyphenEnd,
    letters_replaceHyphenSpace, letters_replaceSpaceHyphenSpace, letters_trim.
  reflexivity.
Qed.

Lemma removeNonLetters_removeWhiteSpace (s : jsstring) :
  removeNonLetters (removeWhiteSpace s) = removeNonLetters s.
Proof.
  unfold removeNonLetters, removeWhiteSpace.
  induction s as [|c s IH]; simpl; [reflexivity|].
  destruct (isWhiteSpace c) eqn:Hw; simpl; rewrite IH.
  - destruct (isLowerAZ c) eqn:Ha; [|reflexivity].
    exfalso. unfold isWhiteSpace, isLowerAZ in *. bool_to_N; lia.
  - reflexivity.
Qed.

(** *** No parenthesis is left after [cleanName] *)

Definition noParen (s : jsstring) : Prop := Forall (fun c => c <> 40) s.

Lemma beforeParen_noParen (s : jsstring) : noParen (beforeParen s).
Proof.
  unfold noParen, beforeParen.
  induction s as [|c s IH]; simpl; [constructor|].
  destruct (N.eqb_spec c 40); simpl; constructor; assumption.
Qed.

Lemma beforeParen_id (s : jsstring) : noParen s -> beforeParen s = s.
Proof.
  unfold beforeParen. induction 1 as [|c s Hc _ IH]; simpl; [reflexivity|].
  destruct (N.eqb_spec c 40); [contradiction|]. simpl. rewrite IH. reflexivity.
Qed.

Lemma dropWhile_noParen (p : N -> bool) (s : jsstring) :
  noParen s -> noParen (dropWhile p s).
Proof.
  induction 1 as [|c s Hc Hs IH]; simpl; [constructor|].
  destruct (p c); [assumption | constructor; assumption].
Qed.

Lemma rev_noParen (s : jsstring) : noParen s -> noParen (rev s).
Proof.
  unfold noParen. rewrite !List.Forall_forall. intros H c Hc.
  apply H. apply in_rev. exact Hc.
Qed.

Lemma trim_noParen (s : jsstring) : noParen s -> noParen (trim s).
Proof.
  intros H. unfold trim.
  auto using rev_noParen, dropWhile_noParen.
Qed.

Lemma replaceSpaceHyphenSpace_noParen (s : jsstring) :
  noParen s -> noParen (replaceSpaceHyphenSpace s).
Proof.
  remember (length s) as n eqn:Hn.
  revert s Hn. induction n as [n IH] using lt_wf_ind. intros s Hn Hs.
  destruct s as [|c1 [|c2 [|c3 rest]]]; try assumption.
  change (replaceSpaceHyphenSpace (c1 :: c2 :: c3 :: rest))
    with (if (c1 =? 32) && (c2 =? 45) && (c3 =? 32)
          then 32 :: replaceSpaceHyphenSpace rest
          else c1 :: replaceSpaceHyphenSpace (c2 :: c3 :: rest)).
  simpl in Hn.
  inversion Hs as [|? ? H1 Hs1]; subst.
  inversion Hs1 as [|? ? H2 Hs2]; subst.
  inversion Hs2 as [|? ? H3 Hs3]; subst.
  destruct ((c1 =? 32) && (c2 =? 45) && (c3 =? 32)).
  - constructor; [lia|]. apply (IH (length rest)); [simpl; lia | reflexivity | assumption].
  - constructor; [assumption|].
    apply (IH (length (c2 :: c3 :: rest))); [simpl; lia | reflexivity | assumption].
Qed.

Lemma replaceHyphenSpace_noParen (s : jsstring) :
  noParen s -> noParen (replaceHyphenSpace s).
Proof.
  remember (length s) as n eqn:Hn.
  revert s Hn. induction n as [n IH] using lt_wf_ind. intros s Hn Hs.
  destruct s as [|c1 [|c2 rest]]; try assumption.
  change (replaceHyphenSpace (c1 :: c2 :: rest))
    with (if (c1 =? 45) && (c2 =? 32)
          then replaceHyphenSpace rest
          else c1 :: replaceHyphenSpace (c2 :: rest)).
  simpl in Hn.
  inversion Hs as [|? ? H1 Hs1]; subst.
  inversion Hs1 as [|? ? H2 Hs2]; subst.
  destruct ((c1 =? 45) && (c2 =? 32)).
  - apply (IH (length rest)); [simpl; lia | reflexivity | assumption].
  - constructor; [assumption|].
    apply (IH (length (c2 :: rest))); [simpl; lia | reflexivity | assumption].
Qed.

Lemma replaceSpaceHyphenEnd_noParen (s : jsstring) :
  noParen s -> noParen (replaceSpaceHyphenEnd s).
Proof.
  intros Hs. unfold replaceSpaceHyphenEnd.
  destruct (rev s) as [|c2 [|c1 r]] eqn:Hr; try assumption.
  destruct ((c1 =? 32) && (c2 =? 45)); [|assumption].
  apply rev_noParen in Hs. rewrite Hr in Hs.
  inversion Hs as [|? ? _ Hs1]; subst. inversion Hs1 as [|? ? _ Hs2]; subst.
  apply rev_noParen. assumption.
Qed.

Create HintDb noparen.
#[local] Hint Resolve beforeParen_noParen trim_noParen
  replaceSpaceHyphenSpace_noParen replaceHyphenSpace_noParen
  replaceSpaceHyphenEnd_noParen : noparen.

Lemma cleanName_noParen (s : jsstring) : noParen (cleanName s).
Proof. unfold cleanName. auto 8 with noparen. Qed.

Lemma normalizeActivityName_letters (s : jsstring) :
  normalizeActivityName s = letters (beforeParen s).
Proof.
  unfold normalizeActivityName.
  rewrite removeNonLetters_removeWhiteSpace.
  apply letters_trim.
Qed.

Lemma normalize_letters (s : jsstring) : normalize s = letters (beforeParen s).
Proof.
  unfold normalize.
  rewrite normalizeActivityName_letters.
  rewrite (beforeParen_id _ (cleanName_noParen s)).
  apply letters_cleanName.
Qed.

(** A string of letters a-z is a fixed point of every step. *)
Lemma letters_lowerAZ (s : jsstring) :
  Forall (fun c => isLowerAZ c = true) s -> letters s = s.
Proof.
  induction 1 as [|c s Hc _ IH]; [reflexivity|].
  rewrite letters_cons, IH.
  unfold lettersOfUnit, toLowerCaseUnit.
  unfold isLowerAZ in Hc. bool_to_N.
  destruct ((65 <=? c) && (c <=? 90)) eqn:H1; [bool_to_N; lia|].
  destruct (N.eqb_spec c 304); [lia|].
  destruct (N.eqb_spec c 8490); [lia|].
  simpl. unfold isLowerAZ.
  destruct (N.leb_spec 97 c); [|lia].
  destruct (N.leb_spec c 122); [|lia].
  reflexivity.
Qed.

Lemma lowerAZ_noParen (s : jsstring) :
  Forall (fun c => isLowerAZ c = true) s -> noParen s.
Proof.
  apply List.Forall_impl. intros c Hc. unfold isLowerAZ in Hc. bool_to_N. lia.
Qed.

Lemma letters_are_lowerAZ (s : jsstring) :
  Forall (fun c => isLowerAZ c = true) (letters s).
Proof.
  unfold letters, removeNonLetters. apply List.Forall_forall.
  intros c Hc. apply filter_In in Hc. tauto.
Qed.

Local Open Scope Z_scope.

(** ** Edit distance: the reference notion

    An edit script aligns two strings from the left by deletions,
    insertions, kept units and substitutions; its cost counts everything
    but the kept units.  The Levenshtein distance is the least cost of a
    script. *)

Inductive edit_script : jsstring -> jsstring -> nat -> Prop :=
  | edit_done : edit_script [] [] 0
  | edit_delete a s t n :
      edit_script s t n -> edit_script (a :: s) t (S n)
  | edit_insert b s t n :
      edit_script s t n -> edit_script s (b :: t) (S n)
  | edit_keep a s t n :
      edit_script s t n -> edit_script (a :: s) (a :: t) n
  | edit_substitute a b s t n :
      edit_script s t n -> edit_script (a :: s) (b :: t) (S n).

Definition is_distance (s t : jsstring) (d : nat) : Prop :=
  edit_script s t d /\ forall n, edit_script s t n -> (d <= n)%nat.

Definition substCost (a b : N) : nat := if N.eqb a b then 0 else 1.

(** The textbook recursion, as a function. *)
Fixpoint levenshtein (s t : jsstring) {struct s} : nat :=
  match s with
  | [] => length t
  | a :: s' =>
      (fix aux (t : jsstring) : nat :=
         match t with
         | [] => S (length s')
         | b :: t' =>
             Nat.min (Nat.min (S (levenshtein s' t)) (S (aux t')))
                     (levenshtein s' t' + substCost a b)
         end) t
  end.

Lemma levenshtein_nil_r (s : jsstring) : levenshtein s [] = length s.
Proof. destruct s; reflexivity. Qed.

Lemma levenshtein_cons (a b : N) (s t : jsstring) :
  levenshtein (a :: s) (b :: t) =
  Nat.min (Nat.min (S (levenshtein s (b :: t))) (S (levenshtein (a :: s) t)))
          (levenshtein s t + substCost a b).
Proof. reflexivity. Qed.

Lemma edit_script_inserts (t : jsstring) : edit_script [] t (length t).
Proof. induction t; simpl; constructor; assumption. Qed.

Lemma edit_script_deletes (s : jsstring) : edit_script s [] (length s).
Proof. induction s; simpl; constructor; assumption. Qed.

Lemma levenshtein_script (s t : jsstring) : edit_script s t (levenshtein s t).
Proof.
  revert t. induction s as [|a s IHs]; intros t.
  - apply edit_script_inserts.
  - induction t as [|b t IHt].
    + rewrite levenshtein_nil_r. apply edit_script_deletes.
    + rewrite levenshtein_cons.
      destruct (Nat.min_spec (S (levenshtein s (b :: t))) (S (levenshtein (a :: s) t)))
        as [[_ E1]|[_ E1]]; rewrite E1;
      match goal with |- context [Nat.min ?x ?y] =>
        destruct (Nat.min_spec x y) as [[_ E2]|[_ E2]]; rewrite E2
      end;
      try (constructor; solve [apply IHs | exact IHt]);
      unfold substCost; destruct (N.eqb_spec a b) as [->|_];
      rewrite ?Nat.add_0_r, ?Nat.add_1_r; constructor; apply IHs.
Qed.

Lemma levenshtein_least (s t : jsstring) (n : nat) :
  edit_script s t n -> (levenshtein s t <= n)%nat.
Proof.
  induction 1 as [|a s t n _ IH|b s t n _ IH|a s t n _ IH|a b s t n _ IH].
  - reflexivity.
  - destruct t as [|b t].
    + rewrite levenshtein_nil_r in *. simpl. lia.
    + rewrite levenshtein_cons. lia.
  - destruct s as [|a s].
    + simpl in *. lia.
    + rewrite levenshtein_cons. lia.
  - rewrite levenshtein_cons. unfold substCost. rewrite N.eqb_refl. lia.
  - rewrite levenshtein_cons. unfold substCost. destruct (N.eqb a b); lia.
Qed.

Lemma levenshtein_is_distance (s t : jsstring) :
  is_distance s t (levenshtein s t).
Proof. split; [apply levenshtein_script | apply levenshtein_least]. Qed.

Lemma is_distance_unique (s t : jsstring) (d : nat) :
  is_distance s t d -> d = levenshtein s t.
Proof.
  intros [Hs Hmin]. apply Nat.le_antisymm.
  - apply Hmin, levenshtein_script.
  - apply levenshtein_least, Hs.
Qed.

Lemma edit_script_app (s t s' t' : jsstring) (n n' : nat) :
  edit_script s t n -> edit_script s' t' n' ->
  edit_script (s ++ s') (t ++ t') (n + n').
Proof.
  intros H H'. induction H; simpl; try (constructor; assumption). exact H'.
Qed.

Lemma edit_script_rev (s t : jsstring) (n : nat) :
  edit_script s t n -> edit_script (rev s) (rev t) n.
Proof.
  induction 1 as [|a s t n _ IH|b s t n _ IH|a s t n _ IH|a b s t n _ IH]; simpl.
  - constructor.
  - rewrite <- (app_nil_r (rev t)), <- Nat.add_1_r.
    apply edit_script_app; [exact IH | repeat constructor].
  - rewrite <- (app_nil_r (rev s)), <- Nat.add_1_r.
    apply edit_script_app; [exact IH | repeat constructor].
  - rewrite <- (Nat.add_0_r n).
    apply edit_script_app; [exact IH | repeat constructor].
  - rewrite <- Nat.add_1_r.
    apply edit_script_app; [exact IH | apply edit_substitute; constructor].
Qed.

Lemma edit_script_sym (s t : jsstring) (n : nat) :
  edit_script s t n -> edit_script t s n.
Proof. induction 1; constructor; assumption. Qed.

Lemma levenshtein_rev (s t : jsstring) :
  levenshtein (rev s) (rev t) = levenshtein s t.
Proof.
  apply Nat.le_antisymm.
  - apply levenshtein_least, edit_script_rev, levenshtein_script.
  - apply levenshtein_least.
    pose proof (edit_script_rev _ _ _ (levenshtein_script (rev s) (rev t))) as H.
    rewrite !rev_involutive in H. exact H.
Qed.

Lemma levenshtein_sym (s t : jsstring) : levenshtein s t = levenshtein t s.
Proof.
  apply Nat.le_antisymm; apply levenshtein_least, edit_script_sym, levenshtein_script.
Qed.

(** The recurrence of the table: strings grow at their right end. *)
Lemma levenshtein_snoc (a b : N) (p q : jsstring) :
  levenshtein (p ++ [a]) (q ++ [b]) =
  Nat.min (Nat.min (S (levenshtein p (q ++ [b]))) (S (levenshtein (p ++ [a]) q)))
          (levenshtein p q + substCost a b).
Proof.
  rewrite <- (levenshtein_rev (p ++ [a]) (q ++ [b])).
  rewrite <- (levenshtein_rev p (q ++ [b])).
  rewrite <- (levenshtein_rev (p ++ [a]) q).
  rewrite <- (levenshtein_rev p q).
  rewrite !rev_unit. apply levenshtein_cons.
Qed.

(** Every prefix of the first string is within the final distance of some
    prefix of the second: a row of the table never lies wholly above the
    last cell. *)
Lemma edit_script_prefix (s t : jsstring) (n : nat) :
  edit_script s t n ->
  forall p r, s = p ++ r ->
  exists q r' n', t = q ++ r' /\ edit_script p q n' /\ (n' <= n)%nat.
Proof.
  induction 1 as [|a s t n _ IH|b s t n _ IH|a s t n _ IH|a b s t n _ IH];
    intros p r Hp.
  - destruct p; [|discriminate].
    exists [], [], 0%nat. repeat split; constructor.
  - destruct p as [|a' p]; simpl in Hp.
    + exists [], t, 0%nat. repeat split; [constructor | lia].
    + injection Hp as -> Hs.
      destruct (IH p r Hs) as (q & r' & n' & Ht & Hq & Hn).
      exists q, r', (S n'). repeat split; [assumption | constructor; assumption | lia].
  - destruct (IH p r Hp) as (q & r' & n' & Ht & Hq & Hn).
    exists (b :: q), r', (S n').
    repeat split; [simpl; congruence | constructor; assumption | lia].
  - destruct p as [|a' p]; simpl in Hp.
    + exists [], (a :: t), 0%nat. repeat split; [constructor | lia].
    + injection Hp as -> Hs.
      destruct (IH p r Hs) as (q & r' & n' & Ht & Hq & Hn).
      exists (a' :: q), r', n'.
      repeat split; [simpl; congruence | constructor; assumption | lia].
  - destruct p as [|a' p]; simpl in Hp.
    + exists [], (b :: t), 0%nat. repeat split; [constructor | lia].
    + injection Hp as -> Hs.
      destruct (IH p r Hs) as (q & r' & n' & Ht & Hq & Hn).
      exists (b :: q), r', (S n').
      repeat split; [simpl; congruence | constructor; assumption | lia].
Qed.

Lemma levenshtein_prefix (s t : jsstring) (i : nat) :
  exists j, (j <= length t)%nat /\
    (levenshtein (take i s) (take j t) <= levenshtein s t)%nat.
Proof.
  destruct (edit_script_prefix s t _ (levenshtein_script s t) (take i s) (drop i s))
    as (q & r' & n' & Ht & Hq & Hn).
  - symmetry. apply take_drop.
  - exists (length q). subst t. split.
    + rewrite length_app. lia.
    + rewrite take_app_length.
      apply levenshtein_least in Hq. lia.
Qed.

(** ** The rolling table computes the edit distance *)

Definition fits (d : Z) (maxDistance : limit) : Prop :=
  match maxDistance with
  | Limit k => d <= k
  | NoLimit => True
  end.

Lemma fits_dec (d : Z) (maxDistance : limit) :
  fits d maxDistance \/ ~ fits d maxDistance.
Proof. destruct maxDistance; simpl; [lia | tauto]. Qed.

Lemma exceeds_fits (d : Z) (maxDistance : limit) :
  exceeds d maxDistance = true <-> ~ fits d maxDistance.
Proof.
  destruct maxDistance as [k|]; simpl.
  - rewrite Z.ltb_lt. lia.
  - split; [discriminate | tauto].
Qed.

Section Table.

Variables str1 str2 : jsstring.

(** Cell [(i, j)] of the full table: the distance between the prefixes
    of lengths [i] and [j]. *)
Definition cell (i j : nat) : Z :=
  Z.of_nat (levenshtein (take i str1) (take j str2)).

Definition isRow (i : nat) (row : list Z) : Prop :=
  length row = (length str2 + 1)%nat
  /\ forall j, (j <= length str2)%nat -> row !!! j = cell i j.

Lemma cell_0_r (i : nat) : (i <= length str1)%nat -> cell i 0 = Z.of_nat i.
Proof.
  intros Hi. unfold cell. rewrite take_0, levenshtein_nil_r, length_take. lia.
Qed.

Lemma cell_0_l (j : nat) : (j <= length str2)%nat -> cell 0 j = Z.of_nat j.
Proof.
  intros Hj. unfold cell. rewrite take_0. simpl. rewrite length_take. lia.
Qed.

Lemma cell_last : cell (length str1) (length str2) = Z.of_nat (levenshtein str1 str2).
Proof. unfold cell. rewrite !firstn_all. reflexivity. Qed.

Lemma cell_rec (i j : nat) :
  (1 <= i <= length str1)%nat -> (1 <= j <= length str2)%nat ->
  cell i j =
  Z.min (Z.min (cell (i - 1) j + 1) (cell i (j - 1) + 1))
        (cell (i - 1) (j - 1)
         + (if sameUnit (str1 !! (i - 1)%nat) (str2 !! (j - 1)%nat) then 0 else 1)).
Proof.
  intros Hi Hj.
  destruct i as [|i]; [lia|]. destruct j as [|j]; [lia|].
  replace (S i - 1)%nat with i by lia. replace (S j - 1)%nat with j by lia.
  destruct (lookup_lt_is_Some_2 str1 i) as [a Ha]; [lia|].
  destruct (lookup_lt_is_Some_2 str2 j) as [b Hb]; [lia|].
  unfold cell.
  rewrite (take_S_r _ _ _ Ha), (take_S_r _ _ _ Hb), levenshtein_snoc.
  rewrite Ha, Hb. cbn [sameUnit]. unfold substCost. destruct (N.eqb a b); lia.
Qed.

Lemma cell_row_bound (i : nat) :
  exists j, (j <= length str2)%nat /\ cell i j <= cell (length str1) (length str2).
Proof.
  destruct (levenshtein_prefix str1 str2 i) as (j & Hj & Hle).
  exists j. split; [exact Hj|]. rewrite cell_last. unfold cell. lia.
Qed.

(** The inner loop after [k] cells. *)
Lemma fillCells_spec (i : nat) (prev curr : list Z) (k : nat) :
  (1 <= i <= length str1)%nat -> isRow (i - 1) prev ->
  length curr = (length str2 + 1)%nat -> (k <= length str2)%nat ->
  let st := fold_left (fillCell str1 str2 i prev) (seq 1 k)
                      (<[0%nat := Z.of_nat i]> curr, Z.of_nat i) in
  length (fst st) = (length str2 + 1)%nat
  /\ (forall j, (j <= k)%nat -> fst st !!! j = cell i j)
  /\ (forall j, (j <= k)%nat -> snd st <= cell i j).
Proof.
  intros Hi [Hlen Hprev] Hcurr. induction k as [|k IH]; intros Hk.
  - simpl. rewrite length_insert. split; [exact Hcurr|].
    split; intros j Hj; assert (j = 0%nat) as -> by lia;
      rewrite cell_0_r by lia; [|lia].
    apply list_lookup_total_insert_eq. lia.
  - rewrite seq_S, fold_left_app. cbn [fold_left].
    change (1 + k)%nat with (S k).
    destruct (IH ltac:(lia)) as (Hl & Hc & Hm). clear IH.
    destruct (fold_left (fillCell str1 str2 i prev) (seq 1 k)
                (<[0%nat := Z.of_nat i]> curr, Z.of_nat i)) as [c mn].
    cbn [fst snd] in Hl, Hc, Hm. unfold fillCell. cbn [fst snd].
    replace (S k - 1)%nat with k by lia.
    rewrite (Hprev (S k)) by lia. rewrite (Hprev k) by lia.
    rewrite (Hc k) by lia.
    pose proof (cell_rec i (S k) Hi ltac:(lia)) as Hrec.
    replace (S k - 1)%nat with k in Hrec by lia.
    rewrite <- Hrec. rewrite length_insert.
    split; [exact Hl|]. split; intros j Hj.
    + destruct (decide (j = S k)) as [->|Hne].
      * apply list_lookup_total_insert_eq. lia.
      * rewrite list_lookup_total_insert_ne by congruence. apply Hc. lia.
    + destruct (decide (j = S k)) as [->|Hne]; [lia|].
      specialize (Hm j ltac:(lia)). lia.
Qed.

Lemma fillRow_spec (i : nat) (prev curr : list Z) :
  (1 <= i <= length str1)%nat -> isRow (i - 1) prev ->
  length curr = (length str2 + 1)%nat ->
  isRow i (fst (fillRow str1 str2 i prev curr))
  /\ forall j, (j <= length str2)%nat ->
       snd (fillRow str1 str2 i prev curr) <= cell i j.
Proof.
  intros Hi Hprev Hcurr.
  destruct (fillCells_spec i prev curr (length str2) Hi Hprev Hcurr (le_n _))
    as (Hl & Hc & Hm).
  unfold fillRow, isRow. auto.
Qed.

(** The outer loop from row [i] on, [k] rows to go. *)
Lemma rowLoop_spec (maxDistance : limit) (k i : nat) (prev curr : list Z) :
  (i + k = length str1 + 1)%nat -> (1 <= i)%nat ->
  isRow (i - 1) prev -> length curr = (length str2 + 1)%nat ->
  let d := cell (length str1) (length str2) in
  let r := rowLoop str1 str2 maxDistance (seq i k) prev curr in
  (fits d maxDistance -> r = d)
  /\ (~ fits d maxDistance ->
      exceeds r maxDistance = true
      /\ (r = d \/ exists b, maxDistance = Limit b /\ r = b + 1)).
Proof.
  revert i prev curr. induction k as [|k IH]; intros i prev curr Hik Hi Hprev Hcurr.
  - simpl. replace (i - 1)%nat with (length str1) in Hprev by lia.
    destruct Hprev as [_ Hprev]. rewrite (Hprev (length str2)) by lia.
    split; [reflexivity|]. intros Hn. split; [|left; reflexivity].
    apply exceeds_fits. exact Hn.
  - cbn zeta. simpl seq. simpl rowLoop.
    destruct (fillRow_spec i prev curr ltac:(lia) Hprev Hcurr) as [Hrow Hmin].
    destruct (fillRow str1 str2 i prev curr) as [curr' minInRow].
    simpl in Hrow, Hmin.
    assert (Hnext : isRow (S i - 1) curr')
      by (replace (S i - 1)%nat with i by lia; exact Hrow).
    assert (Hlen : length prev = (length str2 + 1)%nat) by apply Hprev.
    specialize (IH (S i) curr' prev ltac:(lia) ltac:(lia) Hnext Hlen).
    cbn zeta in IH.
    destruct maxDistance as [b|]; [|exact IH].
    destruct (Z.ltb_spec b minInRow) as [Hab|Hok]; [|exact IH].
    destruct (cell_row_bound i) as (j & Hj & Hle).
    specialize (Hmin j Hj). simpl. split.
    + intros Hfit. lia.
    + intros _. split; [apply Z.ltb_lt; lia | right; eauto].
Qed.

End Table.

Lemma levenshteinDistanceWithLimit_spec (str1 str2 : jsstring) (maxDistance : limit) :
  let d := Z.of_nat (levenshtein str1 str2) in
  let r := levenshteinDistanceWithLimit str1 str2 maxDistance in
  (fits d maxDistance -> r = d)
  /\ (~ fits d maxDistance ->
      exceeds r maxDistance = true
      /\ (r = d \/ exists b, maxDistance = Limit b /\ r = b + 1)).
Proof.
  cbn zeta. rewrite <- cell_last. unfold levenshteinDistanceWithLimit.
  apply rowLoop_spec.
  - lia.
  - lia.
  - split.
    + rewrite length_map, length_seq. reflexivity.
    + intros j Hj. rewrite cell_0_l by exact Hj.
      apply list_lookup_total_correct.
      rewrite list_lookup_fmap, lookup_seq_lt by lia. reflexivity.
  - apply repeat_length.
Qed.

(** ** The character sets of the Jaccard filter *)

Lemma setHas_In (set : list N) (c : N) : setHas set c = true <-> In c set.
Proof.
  unfold setHas. rewrite existsb_exists. split.
  - intros (x & Hx & E). apply N.eqb_eq in E. subst. exact Hx.
  - intros H. exists c. split; [exact H | apply N.eqb_refl].
Qed.

Lemma NoDup_snoc (set : list N) (c : N) :
  List.NoDup set -> ~ In c set -> List.NoDup (set ++ [c]).
Proof.
  induction 1 as [|a l Ha Hl IH]; intros Hc; simpl.
  - constructor; [intros [] | constructor].
  - constructor.
    + intros Hin. apply in_app_or in Hin. destruct Hin as [Hin|[E|[]]].
      * apply Ha. exact Hin.
      * apply Hc. left. symmetry. exact E.
    + apply IH. intros Hin. apply Hc. right. exact Hin.
Qed.

Lemma setAdd_NoDup (set : list N) (c : N) :
  List.NoDup set -> List.NoDup (setAdd set c).
Proof.
  intros H. unfold setAdd. destruct (setHas set c) eqn:E; [exact H|].
  apply NoDup_snoc; [exact H|]. rewrite <- setHas_In. congruence.
Qed.

Lemma newSet_NoDup (str : jsstring) : List.NoDup (newSet str).
Proof.
  unfold newSet. generalize (@nil N) (List.NoDup_nil N).
  induction str as [|c str IH]; intros acc Hacc; simpl; [exact Hacc|].
  apply IH, setAdd_NoDup, Hacc.
Qed.

Lemma filter_split_length (f : N -> bool) (l : list N) :
  (length (List.filter f l) + length (List.filter (fun x => negb (f x)) l)
   = length l)%nat.
Proof.
  induction l as [|x l IH]; simpl; [reflexivity|].
  destruct (f x); simpl; lia.
Qed.

Lemma common_length (set1 set2 : list N) :
  List.NoDup set1 -> List.NoDup set2 ->
  length (List.filter (fun x => setHas set2 x) set1)
  = length (List.filter (fun x => setHas set1 x) set2).
Proof.
  assert (Hle : forall a b, List.NoDup a ->
            (length (List.filter (fun x => setHas b x) a)
             <= length (List.filter (fun x => setHas a x) b))%nat).
  { intros a b Ha. apply List.NoDup_incl_length.
    - apply List.NoDup_filter, Ha.
    - intros x Hx. apply filter_In in Hx. destruct Hx as [Hxa Hxb].
      apply filter_In. split; [apply setHas_In, Hxb | apply setHas_In, Hxa]. }
  intros H1 H2. apply Nat.le_antisymm; auto.
Qed.

Lemma jaccardCounts_sym (str1 str2 : jsstring) :
  jaccardCounts str1 str2 = jaccardCounts str2 str1.
Proof.
  unfold jaccardCounts.
  pose proof (common_length _ _ (newSet_NoDup str1) (newSet_NoDup str2)) as Hc.
  pose proof (filter_split_length (fun x => setHas (newSet str1) x) (newSet str2)).
  pose proof (filter_split_length (fun x => setHas (newSet str2) x) (newSet str1)).
  rewrite !length_app. f_equal; lia.
Qed.

Lemma sameUnit_sym (a b : option N) : sameUnit a b = sameUnit b a.
Proof. destruct a, b; simpl; try reflexivity. apply N.eqb_sym. Qed.

(** ** The order of doubles

    [<] on doubles is transitive and irreflexive, and composes with [<=];
    read off the specification of the comparison. *)

Ltac sf_compare :=
  repeat match goal with
  | H : context [Pos.compare_cont Eq ?a ?b] |- _ =>
      change (Pos.compare_cont Eq a b) with (Pos.compare a b) in H
  | |- context [Pos.compare_cont Eq ?a ?b] =>
      change (Pos.compare_cont Eq a b) with (Pos.compare a b)
  end;
  repeat match goal with
  | H : context [Z.compare ?a ?b] |- _ =>
      destruct (Z.compare_spec a b); cbn in H; try discriminate H
  | H : context [Pos.compare ?a ?b] |- _ =>
      destruct (Pos.compare_spec a b); cbn in H; try discriminate H
  end;
  subst;
  repeat match goal with
  | |- context [Z.compare ?a ?b] =>
      destruct (Z.compare_spec a b); cbn; try lia
  | |- context [Pos.compare ?a ?b] =>
      destruct (Pos.compare_spec a b); cbn; try lia
  end;
  try reflexivity; try lia.

Lemma SFltb_trans (x y z : spec_float) :
  SFltb x y = true -> SFltb y z = true -> SFltb x z = true.
Proof.
  unfold SFltb, SFcompare.
  destruct x as [[]|[]| |[] mx ex], y as [[]|[]| |[] my ey],
    z as [[]|[]| |[] mz ez];
    try discriminate; try reflexivity; intros H1 H2; sf_compare.
Qed.

Lemma SFltb_leb_trans (x y z : spec_float) :
  SFltb x y = true -> SFleb y z = true -> SFltb x z = true.
Proof.
  unfold SFltb, SFleb, SFcompare.
  destruct x as [[]|[]| |[] mx ex], y as [[]|[]| |[] my ey],
    z as [[]|[]| |[] mz ez];
    try discriminate; try reflexivity; intros H1 H2; sf_compare.
Qed.

Lemma SFltb_irrefl (x : spec_float) : SFltb x x = false.
Proof.
  unfold SFltb, SFcompare.
  destruct x as [[]|[]| |[] mx ex]; try reflexivity;
    rewrite Z.compare_refl;
    change (Pos.compare_cont Eq mx mx) with (Pos.compare mx mx);
    rewrite Pos.compare_refl; reflexivity.
Qed.

Lemma float_ltb_trans (x y z : float) :
  (x <? y)%float = true -> (y <? z)%float = true -> (x <? z)%float = true.
Proof. rewrite !ltb_spec. apply SFltb_trans. Qed.

Lemma float_ltb_leb_trans (x y z : float) :
  (x <? y)%float = true -> (y <=? z)%float = true -> (x <? z)%float = true.
Proof. rewrite !ltb_spec, leb_spec. apply SFltb_leb_trans. Qed.

Lemma float_ltb_irrefl (x : float) : (x <? x)%float = false.
Proof. rewrite ltb_spec. apply SFltb_irrefl. Qed.

(** ** ExactMatchIndex: what the roster loop builds *)

Definition nameAt (array : list Entry) (p : nat) : option jsstring :=
  normalizedName <$> array !! p.

(** The map sends a key to the last entry that has it. *)
Definition indexesLast (array : list Entry) (exactMatchMap : gmap (list N) nat)
    : Prop :=
  forall k i,
    exactMatchMap !! k = Some i <->
    (nameAt array i = Some k /\ forall j, (i < j)%nat -> nameAt array j <> Some k).

Lemma nameAt_app_l (array more : list Entry) (p : nat) :
  (p < length array)%nat -> nameAt (array ++ more) p = nameAt array p.
Proof. intros H. unfold nameAt. rewrite lookup_app_l by exact H. reflexivity. Qed.

Lemma nameAt_last (array : list Entry) (e : Entry) :
  nameAt (array ++ [e]) (length array) = Some (normalizedName e).
Proof. unfold nameAt. rewrite list_lookup_middle by reflexivity. reflexivity. Qed.

Lemma nameAt_ge (array : list Entry) (p : nat) :
  (length array <= p)%nat -> nameAt array p = None.
Proof. intros H. unfold nameAt. rewrite lookup_ge_None_2 by exact H. reflexivity. Qed.

Lemma nameAt_Some_lt (array : list Entry) (p : nat) (k : jsstring) :
  nameAt array p = Some k -> (p < length array)%nat.
Proof.
  unfold nameAt. intros H. apply lookup_lt_is_Some.
  destruct (array !! p); [eauto | discriminate].
Qed.

Lemma indexesLast_push (array : list Entry) (m : gmap (list N) nat) (e : Entry) :
  indexesLast array m ->
  indexesLast (array ++ [e]) (<[normalizedName e := length array]> m).
Proof.
  intros Hinv k i. destruct (decide (normalizedName e = k)) as [<-|Hne].
  - rewrite lookup_insert_eq. split.
    + intros [= <-]. split; [apply nameAt_last|].
      intros j Hj. rewrite nameAt_ge by (rewrite length_app; simpl; lia).
      discriminate.
    + intros [Hi Hlast]. f_equal.
      pose proof (nameAt_Some_lt _ _ _ Hi) as Hlt.
      rewrite length_app in Hlt. simpl in Hlt.
      destruct (decide (i = length array)) as [->|Hd]; [reflexivity|].
      exfalso. apply (Hlast (length array)); [lia | apply nameAt_last].
  - rewrite lookup_insert_ne by exact Hne. rewrite (Hinv k i). split.
    + intros [Hi Hlast].
      pose proof (nameAt_Some_lt _ _ _ Hi) as Hlt.
      split; [rewrite nameAt_app_l by exact Hlt; exact Hi|].
      intros j Hj. destruct (decide (j < length array)%nat) as [Hjl|Hjl].
      * rewrite nameAt_app_l by exact Hjl. apply Hlast, Hj.
      * destruct (decide (j = length array)) as [->|Hd].
        -- rewrite nameAt_last. congruence.
        -- rewrite nameAt_ge by (rewrite length_app; simpl; lia). discriminate.
    + intros [Hi Hlast].
      pose proof (nameAt_Some_lt _ _ _ Hi) as Hlt.
      rewrite length_app in Hlt. simpl in Hlt.
      assert (Hil : (i < length array)%nat).
      { destruct (decide (i = length array)) as [->|Hd]; [|lia].
        rewrite nameAt_last in Hi. congruence. }
      rewrite nameAt_app_l in Hi by exact Hil. split; [exact Hi|].
      intros j Hj Hk. apply (Hlast j Hj).
      rewrite nameAt_app_l; [exact Hk | eapply nameAt_Some_lt, Hk].
Qed.

Lemma rosterStep_indexesLast (acc : list Entry * gmap (list N) nat) (row : nat)
    (r : RosterRow) :
  indexesLast (fst acc) (snd acc) ->
  indexesLast (fst (rosterStep acc row r)) (snd (rosterStep acc row r)).
Proof.
  destruct acc as [array m]. unfold rosterStep. intros H.
  destruct (bool_decide _); [|exact H].
  destruct (truthy _); [|exact H].
  apply (indexesLast_push array m (mkEntry _ row false)), H.
Qed.

Lemma rosterLoop_indexesLast (rows : list RosterRow) (row : nat)
    (acc : list Entry * gmap (list N) nat) :
  indexesLast (fst acc) (snd acc) ->
  indexesLast (fst (rosterLoop rows row acc)) (snd (rosterLoop rows row acc)).
Proof.
  revert row acc. induction rows as [|r rows IH]; intros row acc H; simpl.
  - exact H.
  - apply IH, rosterStep_indexesLast, H.
Qed.

Lemma buildRoster_indexesLast (rows : list RosterRow) :
  indexesLast (fst (buildRoster rows)) (snd (buildRoster rows)).
Proof.
  apply rosterLoop_indexesLast. intros k i. simpl. rewrite lookup_empty.
  split; [discriminate|]. intros [H _]. unfold nameAt in H.
  rewrite lookup_nil in H. discriminate.
Qed.

Lemma indexesLast_valid (array : list Entry) (m : gmap (list N) nat) (k : list N)
    (i : nat) :
  indexesLast array m -> m !! k = Some i -> (i < length array)%nat.
Proof. intros H Hk. apply H in Hk. eapply nameAt_Some_lt, Hk. Qed.

Arguments normalize : simpl never.
Arguments cleanName : simpl never.
Arguments normalizeActivityName : simpl never.
Arguments normalizeName : simpl never.
Arguments trim : simpl never.

(** The roster entries: one for each eligible row with a non-empty
    normalised name, in the order of the rows. *)
Definition rosterName (r : RosterRow) : jsstring :=
  normalizeName (cleanName (FirstName r)) (cleanName (LastName r)).

Definition eligible (r : RosterRow) : bool :=
  bool_decide (trim (Roster r) ∈ scheduleATypes) && truthy (rosterName r).

Fixpoint rosterEntriesFrom (row : nat) (rows : list RosterRow) : list Entry :=
  match rows with
  | [] => []
  | r :: rows' =>
      if eligible r
      then mkEntry (rosterName r) row false :: rosterEntriesFrom (S row) rows'
      else rosterEntriesFrom (S row) rows'
  end.

Lemma rosterStep_entries (acc : list Entry * gmap (list N) nat) (row : nat)
    (r : RosterRow) :
  fst (rosterStep acc row r) = fst acc ++ rosterEntriesFrom row [r].
Proof.
  destruct acc as [array m]. unfold rosterStep. cbn [rosterEntriesFrom fst].
  unfold eligible. fold (rosterName r).
  destruct (bool_decide _); cbn [andb].
  - destruct (truthy (rosterName r)); [reflexivity | symmetry; apply app_nil_r].
  - symmetry. apply app_nil_r.
Qed.

Lemma rosterLoop_entries (rows : list RosterRow) (row : nat)
    (acc : list Entry * gmap (list N) nat) :
  fst (rosterLoop rows row acc) = fst acc ++ rosterEntriesFrom row rows.
Proof.
  revert row acc. induction rows as [|r rows IH]; intros row acc;
    cbn [rosterLoop rosterEntriesFrom].
  - symmetry. apply app_nil_r.
  - rewrite IH, rosterStep_entries. cbn [rosterEntriesFrom].
    destruct (eligible r).
    + rewrite <- app_assoc. reflexivity.
    + rewrite app_nil_r. reflexivity.
Qed.

Lemma buildRoster_entries (rows : list RosterRow) :
  fst (buildRoster rows) = rosterEntriesFrom 1 rows.
Proof. apply rosterLoop_entries. Qed.

Lemma rosterEntriesFrom_rows (row : nat) (rows : list RosterRow) (e : Entry) :
  In e (rosterEntriesFrom row rows) ->
  exists r, rows !! (rowIndex e - row)%nat = Some r
    /\ (row <= rowIndex e)%nat
    /\ eligible r = true
    /\ normalizedName e = rosterName r.
Proof.
  revert row. induction rows as [|r rows IH]; intros row; cbn [rosterEntriesFrom];
    [intros []|].
  assert (Hrec : In e (rosterEntriesFrom (S row) rows) ->
    exists r0, (r :: rows) !! (rowIndex e - row)%nat = Some r0
      /\ (row <= rowIndex e)%nat /\ eligible r0 = true
      /\ normalizedName e = rosterName r0).
  { intros Hin. destruct (IH _ Hin) as (r0 & Hr & Hle & He & Hn).
    exists r0. replace (rowIndex e - row)%nat with (S (rowIndex e - S row)) by lia.
    repeat split; [exact Hr | lia | exact He | exact Hn]. }
  destruct (eligible r) eqn:Hel; [|exact Hrec].
  intros [<-|Hin]; [|exact (Hrec Hin)].
  exists r. cbn [rowIndex normalizedName]. rewrite Nat.sub_diag.
  repeat split; [lia | exact Hel].
Qed.

Lemma rosterEntriesFrom_increasing (rows : list RosterRow) (row i j : nat)
    (e e' : Entry) :
  (i < j)%nat ->
  rosterEntriesFrom row rows !! i = Some e ->
  rosterEntriesFrom row rows !! j = Some e' ->
  (rowIndex e < rowIndex e')%nat.
Proof.
  revert row i j. induction rows as [|r rows IH]; intros row i j Hij;
    cbn [rosterEntriesFrom].
  - rewrite lookup_nil. discriminate.
  - destruct (eligible r); [|apply IH, Hij].
    destruct j as [|j]; [lia|]. destruct i as [|i].
    + intros [= <-] Hj. cbn [rowIndex].
      change (rosterEntriesFrom (S row) rows !! j = Some e') in Hj.
      apply list_elem_of_lookup_2, list_elem_of_In, rosterEntriesFrom_rows in Hj.
      destruct Hj as (_ & _ & Hle & _). lia.
    + apply IH. lia.
Qed.

(** ** The activity entries: one for each cell with a non-empty
    normalised name, in the order of the rows *)

Fixpoint entriesFrom (row : nat) (cells : list jsstring) : list Entry :=
  match cells with
  | [] => []
  | cell :: cells' =>
      if truthy (normalize cell)
      then mkEntry (normalize cell) row false :: entriesFrom (S row) cells'
      else entriesFrom (S row) cells'
  end.

Lemma takeWhile_Forall (p q : N -> bool) (s : jsstring) :
  Forall (fun c => q c = true) s -> Forall (fun c => q c = true) (takeWhile p s).
Proof.
  induction 1 as [|c s Hc _ IH]; simpl; [constructor|].
  destruct (p c); constructor; assumption.
Qed.

Lemma blank_normalize (cell : jsstring) :
  truthy (trim cell) = false -> normalize cell = [].
Proof.
  intros Hb. rewrite normalize_letters.
  destruct (trim_split cell) as (pre & post & Heq & Hpre & Hpost).
  destruct (trim cell); [|discriminate]. simpl in Heq.
  apply whitespace_all_silent. unfold beforeParen.
  apply takeWhile_Forall. rewrite Heq. apply Forall_app. auto.
Qed.

Lemma activityStep_spec (acc : list Entry) (row : nat) (cell : jsstring) :
  activityStep acc row cell = acc ++ entriesFrom row [cell].
Proof.
  unfold activityStep. cbn [entriesFrom]. fold (normalize cell).
  destruct (truthy (trim cell)) eqn:Hb.
  - destruct (truthy (normalize cell)); [reflexivity | symmetry; apply app_nil_r].
  - rewrite (blank_normalize cell Hb). cbn [truthy]. symmetry. apply app_nil_r.
Qed.

Lemma activityLoop_spec (cells : list jsstring) (row : nat) (acc : list Entry) :
  activityLoop cells row acc = acc ++ entriesFrom row cells.
Proof.
  revert row acc. induction cells as [|cell cells IH]; intros row acc;
    cbn [activityLoop entriesFrom].
  - symmetry. apply app_nil_r.
  - rewrite IH, activityStep_spec. cbn [entriesFrom].
    destruct (truthy (normalize cell)).
    + rewrite <- app_assoc. reflexivity.
    + rewrite app_nil_r. reflexivity.
Qed.

Lemma buildActivity_spec (cells : list jsstring) :
  buildActivity cells = entriesFrom 1 cells.
Proof. apply activityLoop_spec. Qed.

Lemma entriesFrom_rows (row : nat) (cells : list jsstring) (e : Entry) :
  In e (entriesFrom row cells) ->
  exists cell, cells !! (rowIndex e - row)%nat = Some cell
    /\ (row <= rowIndex e)%nat
    /\ normalizedName e = normalize cell
    /\ normalize cell <> [].
Proof.
  revert row. induction cells as [|cell cells IH]; intros row; cbn [entriesFrom];
    [intros []|].
  assert (Hrec : In e (entriesFrom (S row) cells) ->
    exists cell0, (cell :: cells) !! (rowIndex e - row)%nat = Some cell0
      /\ (row <= rowIndex e)%nat
      /\ normalizedName e = normalize cell0 /\ normalize cell0 <> []).
  { intros Hin. destruct (IH _ Hin) as (c & Hc & Hle & Hn & Hne).
    exists c. replace (rowIndex e - row)%nat with (S (rowIndex e - S row)) by lia.
    repeat split; [exact Hc | lia | exact Hn | exact Hne]. }
  destruct (truthy (normalize cell)) eqn:Ht; [|exact Hrec].
  intros [<-|Hin]; [|exact (Hrec Hin)].
  exists cell. cbn [rowIndex normalizedName]. rewrite Nat.sub_diag.
  repeat split; [lia|]. intros E. rewrite E in Ht. discriminate.
Qed.

(** ** Loops *)

Lemma forEachIndexed_start {A St : Type} (f : St -> A -> option St) (l : list A)
    (i j : nat) (s : St) :
  forEachIndexed (fun s x _ => f s x) l i s
  = forEachIndexed (fun s x _ => f s x) l j s.
Proof.
  revert i j s. induction l as [|x l IH]; intros i j s; simpl; [reflexivity|].
  destruct (f s x); [apply IH | reflexivity].
Qed.

Lemma forEach_cons {A St : Type} (f : St -> A -> option St) (x : A) (l : list A)
    (s : St) :
  forEach f (x :: l) s
  = match f s x with Some s' => forEach f l s' | None => None end.
Proof.
  unfold forEach. simpl. destruct (f s x); [|reflexivity].
  apply forEachIndexed_start.
Qed.

Lemma forEach_app {A St : Type} (f : St -> A -> option St) (l1 l2 : list A)
    (s : St) :
  forEach f (l1 ++ l2) s
  = match forEach f l1 s with Some s' => forEach f l2 s' | None => None end.
Proof.
  revert s. induction l1 as [|x l1 IH]; intros s; [reflexivity|].
  simpl. rewrite !forEach_cons. destruct (f s x); [apply IH | reflexivity].
Qed.

(** Batching only paces the work: with fuel for every batch the loop is
    one pass over the entries still to process. *)
Lemma batchLoop_forEach (fuel : nat) (todo pool : list nat) (batchStart : nat)
    (st : State) :
  (length todo <= batchStart + fuel)%nat ->
  batchLoop fuel todo pool batchStart st
  = forEach (fuzzyStep pool) (drop batchStart todo) st.
Proof.
  revert batchStart st. induction fuel as [|fuel IH]; intros batchStart st Hf.
  - simpl. destruct (Nat.ltb_spec batchStart (length todo)); [lia|].
    rewrite drop_ge by lia. reflexivity.
  - simpl. destruct (Nat.ltb_spec batchStart (length todo)) as [Hlt|Hge].
    + rewrite <- (take_drop BATCH_SIZE (drop batchStart todo)) at 2.
      rewrite forEach_app.
      destruct (forEach (fuzzyStep pool) (take BATCH_SIZE (drop batchStart todo)) st)
        as [st'|]; [|reflexivity].
      rewrite drop_drop. apply IH. unfold BATCH_SIZE. lia.
    + rewrite drop_ge by lia. reflexivity.
Qed.

(** ** Entries change by their [matched] flag only, and only upwards *)

Definition entryLe (e e' : Entry) : Prop :=
  normalizedName e' = normalizedName e
  /\ rowIndex e' = rowIndex e
  /\ (matched e = true -> matched e' = true).

Definition rosterLe (array array' : list Entry) : Prop :=
  Forall2 entryLe array array'.

Lemma entryLe_refl (e : Entry) : entryLe e e.
Proof. unfold entryLe. auto. Qed.

Lemma rosterLe_refl (array : list Entry) : rosterLe array array.
Proof. induction array; constructor; [apply entryLe_refl | assumption]. Qed.

Lemma rosterLe_trans (a b c : list Entry) :
  rosterLe a b -> rosterLe b c -> rosterLe a c.
Proof.
  apply Forall2_trans. unfold entryLe. intros x y z (H1 & H2 & H3) (H4 & H5 & H6).
  repeat split; [congruence | congruence | auto].
Qed.

Lemma rosterLe_alter (array : list Entry) (i : nat) :
  rosterLe array (alter setMatched i array).
Proof.
  apply Forall2_alter_r; [apply rosterLe_refl|].
  intros x y _ _ (H1 & H2 & H3). unfold entryLe. simpl. auto.
Qed.

Lemma insert_setMatched (array : list Entry) (i : nat) (e : Entry) :
  array !! i = Some e -> <[i := setMatched e]> array = alter setMatched i array.
Proof.
  intros H. apply list_eq. intros j.
  destruct (decide (i = j)) as [<-|Hne].
  - rewrite list_lookup_alter_eq, H.
    apply list_lookup_insert_eq. eapply lookup_lt_Some, H.
  - rewrite list_lookup_insert_ne, list_lookup_alter_ne by exact Hne. reflexivity.
Qed.

Lemma rosterLe_insert (array : list Entry) (i : nat) (e : Entry) :
  array !! i = Some e -> rosterLe array (<[i := setMatched e]> array).
Proof. intros H. rewrite (insert_setMatched _ _ _ H). apply rosterLe_alter. Qed.

Lemma rosterLe_length (a b : list Entry) : rosterLe a b -> length a = length b.
Proof. apply Forall2_length. Qed.

Lemma rosterLe_nameAt (a b : list Entry) (i : nat) :
  rosterLe a b -> nameAt b i = nameAt a i.
Proof.
  intros H. unfold nameAt. destruct (a !! i) as [e|] eqn:Ha.
  - destruct (Forall2_lookup_l _ _ _ _ _ H Ha) as (e' & -> & Hn & _).
    simpl. f_equal. exact Hn.
  - rewrite lookup_ge_None_2; [reflexivity|].
    rewrite <- (rosterLe_length _ _ H). apply lookup_ge_None_1, Ha.
Qed.

Lemma rosterLe_matched (a b : list Entry) (i : nat) (e : Entry) :
  rosterLe a b -> a !! i = Some e -> matched e = true ->
  exists e', b !! i = Some e' /\ matched e' = true.
Proof.
  intros H Ha Hm. destruct (Forall2_lookup_l _ _ _ _ _ H Ha) as (e' & Hb & _ & _ & Hmm).
  eauto.
Qed.

(** ** The scan of the candidates *)

Definition score (activityName rosterName : jsstring) : float :=
  calculateOptimizedSimilarity activityName rosterName tau.

(** The scan, on the names the references point to. *)
Fixpoint scan (activityName : jsstring) (names : list jsstring) (index : nat)
    (best : float * option nat) : float * option nat :=
  match names with
  | [] => best
  | name :: names' =>
      let similarity := score activityName name in
      scan activityName names' (S index)
           (if (fst best <? similarity)%float then (similarity, Some index) else best)
  end.

Definition bestMatch (activityName : jsstring) (names : list jsstring)
    : float * option nat :=
  scan activityName names 0 (0%float, None).

Definition derefNames (roster : list Entry) (refs : list nat)
    (names : list jsstring) : Prop :=
  Forall2 (fun ref name => nameAt roster ref = Some name) refs names.

Lemma derefNames_le (roster roster' : list Entry) (refs : list nat)
    (names : list jsstring) :
  rosterLe roster roster' -> derefNames roster refs names ->
  derefNames roster' refs names.
Proof.
  intros Hle H. eapply Forall2_impl; [exact H|].
  intros ref name Hn. cbn beta. rewrite (rosterLe_nameAt _ _ _ Hle). exact Hn.
Qed.

Lemma scan_forEachIndexed (roster : list Entry) (activityName : jsstring)
    (refs : list nat) (names : list jsstring) (index : nat)
    (best : float * option nat) :
  derefNames roster refs names ->
  forEachIndexed (scanStep roster activityName) refs index best
  = Some (scan activityName names index best).
Proof.
  intros H. revert index best.
  induction H as [|ref name refs names Hn _ IH]; intros index best; simpl.
  - reflexivity.
  - unfold scanStep at 1. unfold nameAt in Hn.
    destruct (roster !! ref) as [e|]; [|discriminate].
    injection Hn as <-. apply IH.
Qed.

(** What the scan has found after the candidates [seen]: no candidate seen
    beats the best score; the best index is the first position with that
    score, no earlier candidate reaching it. *)
Definition scanInv (activityName : jsstring) (seen : list jsstring)
    (best : float * option nat) : Prop :=
  (forall j name, seen !! j = Some name ->
     (fst best <? score activityName name)%float = false)
  /\ match snd best with
     | Some k =>
         exists name, seen !! k = Some name
           /\ fst best = score activityName name
           /\ forall j name', (j < k)%nat -> seen !! j = Some name' ->
                (fst best <=? score activityName name')%float = false
     | None => fst best = 0%float
     end.

Lemma scan_inv (activityName : jsstring) (names seen : list jsstring)
    (best : float * option nat) :
  scanInv activityName seen best ->
  scanInv activityName (seen ++ names)
          (scan activityName names (length seen) best).
Proof.
  revert seen best. induction names as [|name names IH]; intros seen best Hinv.
  - simpl. rewrite app_nil_r. exact Hinv.
  - simpl. replace (seen ++ name :: names) with ((seen ++ [name]) ++ names)
      by (rewrite <- app_assoc; reflexivity).
    replace (S (length seen)) with (length (seen ++ [name]))
      by (rewrite length_app; simpl; lia).
    apply IH. destruct Hinv as [Hmax Hidx].
    destruct (fst best <? score activityName name)%float eqn:Hlt.
    + split; simpl.
      * intros j name' Hj.
        destruct (decide (j < length seen)%nat) as [Hjl|Hjl].
        -- rewrite lookup_app_l in Hj by exact Hjl.
           specialize (Hmax j name' Hj).
           destruct (score activityName name <? score activityName name')%float eqn:E;
             [|reflexivity].
           rewrite (float_ltb_trans _ _ _ Hlt E) in Hmax. discriminate.
        -- apply lookup_lt_Some in Hj as Hb. rewrite length_app in Hb. simpl in Hb.
           assert (j = length seen) as -> by lia.
           rewrite list_lookup_middle in Hj by reflexivity.
           injection Hj as <-. apply float_ltb_irrefl.
      * exists name. split; [apply list_lookup_middle; reflexivity|].
        split; [reflexivity|]. intros j name' Hj Hl.
        rewrite lookup_app_l in Hl by exact Hj.
        specialize (Hmax j name' Hl).
        destruct (score activityName name <=? score activityName name')%float eqn:E;
          [|reflexivity].
        rewrite (float_ltb_leb_trans _ _ _ Hlt E) in Hmax. discriminate.
    + split.
      * intros j name' Hj.
        destruct (decide (j < length seen)%nat) as [Hjl|Hjl].
        -- rewrite lookup_app_l in Hj by exact Hjl. apply (Hmax j name' Hj).
        -- apply lookup_lt_Some in Hj as Hb. rewrite length_app in Hb. simpl in Hb.
           assert (j = length seen) as -> by lia.
           rewrite list_lookup_middle in Hj by reflexivity.
           injection Hj as <-. exact Hlt.
      * destruct (snd best) as [k|]; [|exact Hidx].
        destruct Hidx as (name0 & Hk & Hs & Hfirst).
        exists name0. split; [apply lookup_app_l_Some, Hk|].
        split; [exact Hs|]. intros j name' Hj Hl.
        apply (Hfirst j name' Hj).
        rewrite lookup_app_l in Hl; [exact Hl|].
        apply lookup_lt_Some in Hk. lia.
Qed.

Lemma bestMatch_inv (activityName : jsstring) (names : list jsstring) :
  scanInv activityName names (bestMatch activityName names).
Proof.
  apply (scan_inv activityName names [] (0%float, None)).
  split; [|reflexivity]. intros j name H. rewrite lookup_nil in H. discriminate.
Qed.

Lemma bestMatch_above_tau (activityName : jsstring) (names : list jsstring) :
  (tau <? fst (bestMatch activityName names))%float = true ->
  exists k name,
    snd (bestMatch activityName names) = Some k /\ names !! k = Some name.
Proof.
  intros Ht. destruct (bestMatch_inv activityName names) as [_ Hidx].
  destruct (snd (bestMatch activityName names)) as [k|].
  - destruct Hidx as (name & Hk & _). eauto.
  - rewrite Hidx in Ht. vm_compute in Ht. discriminate.
Qed.

(** ** The two passes, entry by entry

    Neither pass reads a [matched] flag while it runs, and the names never
    change: what happens to an entry depends on its name, on the index and
    on the names of the candidates only. *)

Definition markExact (m : gmap (list N) nat) (e : Entry) : Entry :=
  match m !! normalizedName e with
  | Some _ => setMatched e
  | None => e
  end.

Fixpoint exactPairsFrom (m : gmap (list N) nat) (off : nat) (l : list Entry)
    : list Pair :=
  match l with
  | [] => []
  | e :: l' =>
      match m !! normalizedName e with
      | Some i => ExactPair off i :: exactPairsFrom m (S off) l'
      | None => exactPairsFrom m (S off) l'
      end
  end.

Lemma insert_middle (done rest : list Entry) (e e' : Entry) :
  <[length done := e']> (done ++ e :: rest) = (done ++ [e']) ++ rest.
Proof.
  rewrite insert_app_r_alt by lia. rewrite Nat.sub_diag. simpl.
  rewrite <- app_assoc. reflexivity.
Qed.

Lemma length_snoc (done : list Entry) (e : Entry) :
  length (done ++ [e]) = S (length done).
Proof. rewrite length_app. simpl. lia. Qed.

Lemma exactLoop_spec (m : gmap (list N) nat) (rest : list Entry) :
  forall (done R : list Entry) (x f : Z) (ps : list Pair),
  (forall k i, m !! k = Some i -> (i < length R)%nat) ->
  exists R',
    forEach (exactStep m) (seq (length done) (length rest))
            (mkState (done ++ rest) R x f ps)
    = Some (mkState (done ++ List.map (markExact m) rest) R'
                    (x + Z.of_nat (length (exactPairsFrom m (length done) rest)))
                    f (ps ++ exactPairsFrom m (length done) rest))
    /\ rosterLe R R'
    /\ forall pr, In pr (exactPairsFrom m (length done) rest) ->
         exists r, R' !! pairRoster pr = Some r /\ matched r = true.
Proof.
  induction rest as [|e rest IH]; intros done R x f ps Hm.
  - exists R. simpl. rewrite !app_nil_r, Z.add_0_r.
    split; [reflexivity|]. split; [apply rosterLe_refl | intros pr []].
  - simpl seq. rewrite forEach_cons. unfold exactStep at 1. cbn [scheduleANames].
    rewrite list_lookup_middle by reflexivity.
    cbn [List.map exactPairsFrom]. unfold markExact at 1.
    destruct (m !! normalizedName e) as [i|] eqn:Hhit.
    + destruct (lookup_lt_is_Some_2 R i (Hm _ _ Hhit)) as [r Hr].
      cbn [eligibleRosterNames exactMatches fuzzyMatches pairs]. rewrite Hr.
      rewrite insert_middle.
      destruct (IH (done ++ [setMatched e]) (<[i := setMatched r]> R) (x + 1) f
                   (ps ++ [ExactPair (length done) i])) as (R' & Heq & Hle & Hmk).
      { intros k j Hk. rewrite length_insert. eapply Hm, Hk. }
      rewrite length_snoc in Heq, Hmk.
      exists R'. split; [|split].
      * rewrite Heq. f_equal. f_equal.
        -- rewrite <- app_assoc. reflexivity.
        -- simpl length. lia.
        -- rewrite <- app_assoc. reflexivity.
      * eapply rosterLe_trans; [apply rosterLe_insert, Hr | exact Hle].
      * intros pr [<-|Hin]; [|apply Hmk, Hin]. simpl.
        apply (rosterLe_matched _ _ i (setMatched r) Hle); [|reflexivity].
        apply list_lookup_insert_eq. eapply lookup_lt_Some, Hr.
    + destruct (IH (done ++ [e]) R x f ps Hm) as (R' & Heq & Hle & Hmk).
      rewrite length_snoc in Heq, Hmk.
      rewrite <- !app_assoc in Heq. simpl in Heq.
      exists R'. split; [exact Heq|]. split; [exact Hle | exact Hmk].
Qed.

Lemma In_exactPairsFrom (m : gmap (list N) nat) (l : list Entry) (off : nat)
    (pr : Pair) :
  In pr (exactPairsFrom m off l) ->
  (off <= pairActivity pr)%nat
  /\ exists e, l !! (pairActivity pr - off)%nat = Some e
       /\ m !! normalizedName e = Some (pairRoster pr)
       /\ pr = ExactPair (pairActivity pr) (pairRoster pr).
Proof.
  revert off. induction l as [|e l IH]; intros off; simpl; [tauto|].
  assert (Hrec : In pr (exactPairsFrom m (S off) l) ->
    (off <= pairActivity pr)%nat
    /\ exists e0, (e :: l) !! (pairActivity pr - off)%nat = Some e0
         /\ m !! normalizedName e0 = Some (pairRoster pr)
         /\ pr = ExactPair (pairActivity pr) (pairRoster pr)).
  { intros Hin. destruct (IH _ Hin) as (Hle & e0 & Hl & Hm & Hp).
    split; [lia|]. exists e0.
    replace (pairActivity pr - off)%nat with (S (pairActivity pr - S off)) by lia.
    auto. }
  destruct (m !! normalizedName e) as [i|] eqn:Hhit; [|exact Hrec].
  intros [<-|Hin]; [|exact (Hrec Hin)].
  simpl. split; [lia|]. exists e. rewrite Nat.sub_diag. auto.
Qed.

(** The candidates of the second pass and their names. *)
Definition candidateNames (roster : list Entry) : list jsstring :=
  List.map normalizedName (List.filter (fun e => negb (matched e)) roster).

Lemma In_unmatchedFrom (l : list Entry) (off p : nat) :
  In p (unmatchedFrom off l) <->
  (off <= p)%nat /\ exists e, l !! (p - off)%nat = Some e /\ matched e = false.
Proof.
  revert off. induction l as [|e l IH]; intros off; simpl.
  - split; [tauto|]. intros (_ & e & H & _). rewrite lookup_nil in H. discriminate.
  - assert (Hrec : In p (unmatchedFrom (S off) l) <->
      (S off <= p)%nat
      /\ exists e0, (e :: l) !! (p - off)%nat = Some e0 /\ matched e0 = false).
    { rewrite IH. split; intros (Hle & e0 & Hl & Hm); (split; [lia|]);
        exists e0; replace (p - off)%nat with (S (p - S off)) in * by lia; auto. }
    destruct (matched e) eqn:Hme; simpl; rewrite Hrec.
    + split; [intros (Hle & H); split; [lia | exact H]|].
      intros (Hle & e0 & Hl & Hm0).
      destruct (decide (p = off)) as [->|Hne]; [|split; [lia | eauto]].
      rewrite Nat.sub_diag in Hl. simpl in Hl. congruence.
    + split.
      * intros [<-|(Hle & H)]; [|split; [lia | exact H]].
        split; [lia|]. exists e. rewrite Nat.sub_diag. auto.
      * intros (Hle & H).
        destruct (decide (p = off)) as [->|Hne]; [left; reflexivity|].
        right. split; [lia | exact H].
Qed.

Lemma derefNames_unmatchedFrom (done rest : list Entry) :
  derefNames (done ++ rest) (unmatchedFrom (length done) rest)
             (candidateNames rest).
Proof.
  unfold candidateNames. revert done.
  induction rest as [|e rest IH]; intros done; simpl; [constructor|].
  specialize (IH (done ++ [e])). rewrite length_snoc, <- app_assoc in IH.
  destruct (matched e); simpl; [exact IH|].
  constructor; [|exact IH].
  unfold nameAt. rewrite list_lookup_middle by reflexivity. reflexivity.
Qed.

Lemma derefNames_unmatchedRefs (roster : list Entry) :
  derefNames roster (unmatchedRefs roster) (candidateNames roster).
Proof. apply (derefNames_unmatchedFrom [] roster). Qed.

(** What the second pass decides for an activity name: the candidate it
    is paired with and the score, or nothing. *)
Definition fuzzyChoice (pool : list nat) (names : list jsstring)
    (activityName : jsstring) : option (nat * float) :=
  let (bestMatchScore, bestMatchIndex) := bestMatch activityName names in
  if (tau <? bestMatchScore)%float then
    match bestMatchIndex with
    | Some index =>
        match pool !! index with
        | Some ref => Some (ref, bestMatchScore)
        | None => None
        end
    | None => None
    end
  else None.

Definition markFuzzy (pool : list nat) (names : list jsstring) (e : Entry) : Entry :=
  if matched e then e
  else match fuzzyChoice pool names (normalizedName e) with
       | Some _ => setMatched e
       | None => e
       end.

Fixpoint fuzzyPairsFrom (pool : list nat) (names : list jsstring) (off : nat)
    (l : list Entry) : list Pair :=
  match l with
  | [] => []
  | e :: l' =>
      if matched e then fuzzyPairsFrom pool names (S off) l'
      else match fuzzyChoice pool names (normalizedName e) with
           | Some (ref, s) => FuzzyPair off ref s :: fuzzyPairsFrom pool names (S off) l'
           | None => fuzzyPairsFrom pool names (S off) l'
           end
  end.

Lemma fuzzyChoice_above (pool : list nat) (names : list jsstring)
    (activityName : jsstring) :
  length pool = length names ->
  (tau <? fst (bestMatch activityName names))%float = true ->
  exists k ref,
    snd (bestMatch activityName names) = Some k /\ pool !! k = Some ref
    /\ fuzzyChoice pool names activityName
       = Some (ref, fst (bestMatch activityName names)).
Proof.
  intros Hlen Ht.
  destruct (bestMatch_above_tau _ _ Ht) as (k & name & Hk & Hn).
  destruct (lookup_lt_is_Some_2 pool k) as [ref Href].
  { rewrite Hlen. eapply lookup_lt_Some, Hn. }
  exists k, ref. repeat split; [exact Hk | exact Href|].
  unfold fuzzyChoice. destruct (bestMatch activityName names) as [s idx].
  simpl in *. rewrite Ht, Hk, Href. reflexivity.
Qed.

Lemma fuzzyChoice_below (pool : list nat) (names : list jsstring)
    (activityName : jsstring) :
  (tau <? fst (bestMatch activityName names))%float = false ->
  fuzzyChoice pool names activityName = None.
Proof.
  intros Ht. unfold fuzzyChoice.
  destruct (bestMatch activityName names) as [s idx]. simpl in Ht.
  rewrite Ht. reflexivity.
Qed.

Lemma fuzzyStep_spec (pool : list nat) (names : list jsstring)
    (A R : list Entry) (x f : Z) (ps : list Pair) (ref : nat) (e : Entry) :
  A !! ref = Some e -> derefNames R pool names ->
  match fuzzyChoice pool names (normalizedName e) with
  | Some (rosterRef, s) =>
      exists R', rosterLe R R'
        /\ fuzzyStep pool (mkState A R x f ps) ref
           = Some (mkState (<[ref := setMatched e]> A) R' x (f + 1)
                           (ps ++ [FuzzyPair ref rosterRef s]))
  | None => fuzzyStep pool (mkState A R x f ps) ref = Some (mkState A R x f ps)
  end.
Proof.
  intros HA Hd.
  assert (Hstep : fuzzyStep pool (mkState A R x f ps) ref
    = let (bestMatchScore, bestMatchIndex) := bestMatch (normalizedName e) names in
      if (tau <? bestMatchScore)%float then
        match bestMatchIndex with
        | None => None
        | Some index =>
            match pool !! index with
            | None => None
            | Some rosterRef =>
                match R !! rosterRef with
                | None => None
                | Some rosterEntry =>
                    let roster := <[rosterRef := setMatched rosterEntry]> R in
                    Some (mkState (<[ref := setMatched e]> A)
                            match findIndex
                                    (fun entry => Nat.eqb (rowIndex entry) (rowIndex rosterEntry))
                                    roster with
                            | Some i => alter setMatched i roster
                            | None => roster
                            end
                            x (f + 1) (ps ++ [FuzzyPair ref rosterRef bestMatchScore]))
                end
            end
        end
      else Some (mkState A R x f ps)).
  { unfold fuzzyStep. cbn [scheduleANames eligibleRosterNames]. rewrite HA.
    rewrite (scan_forEachIndexed _ _ _ _ _ _ Hd). fold (bestMatch (normalizedName e) names).
    destruct (bestMatch (normalizedName e) names) as [s idx]. reflexivity. }
  rewrite Hstep. clear Hstep.
  destruct (tau <? fst (bestMatch (normalizedName e) names))%float eqn:Ht.
  - destruct (fuzzyChoice_above pool names (normalizedName e)
                (Forall2_length _ _ _ Hd) Ht) as (k & rosterRef & Hk & Hp & Hc).
    rewrite Hc.
    destruct (bestMatch (normalizedName e) names) as [s idx]. simpl in *.
    subst idx. rewrite Ht, Hp.
    destruct (Forall2_lookup_l _ _ _ _ _ Hd Hp) as (name & _ & Hname).
    unfold nameAt in Hname. destruct (R !! rosterRef) as [r|] eqn:Hr; [|discriminate].
    eexists. split; [|reflexivity].
    eapply rosterLe_trans; [apply rosterLe_insert, Hr|].
    destruct (findIndex _ _); [apply rosterLe_alter | apply rosterLe_refl].
  - rewrite (fuzzyChoice_below _ _ _ Ht).
    destruct (bestMatch (normalizedName e) names) as [s idx]. simpl in Ht.
    rewrite Ht. reflexivity.
Qed.

Lemma fuzzyLoop_spec (pool : list nat) (names : list jsstring) (rest : list Entry) :
  forall (done R : list Entry) (x f : Z) (ps : list Pair),
  derefNames R pool names ->
  exists R',
    forEach (fuzzyStep pool) (unmatchedFrom (length done) rest)
            (mkState (done ++ rest) R x f ps)
    = Some (mkState (done ++ List.map (markFuzzy pool names) rest) R' x
                    (f + Z.of_nat (length (fuzzyPairsFrom pool names (length done) rest)))
                    (ps ++ fuzzyPairsFrom pool names (length done) rest))
    /\ rosterLe R R'.
Proof.
  induction rest as [|e rest IH]; intros done R x f ps Hd.
  - exists R. simpl. rewrite !app_nil_r, Z.add_0_r.
    split; [reflexivity | apply rosterLe_refl].
  - cbn [unmatchedFrom List.map fuzzyPairsFrom]. unfold markFuzzy at 1.
    destruct (matched e) eqn:Hme.
    + destruct (IH (done ++ [e]) R x f ps Hd) as (R' & Heq & Hle).
      rewrite length_snoc, <- !app_assoc in Heq. simpl in Heq.
      exists R'. split; [exact Heq | exact Hle].
    + rewrite forEach_cons.
      pose proof (fuzzyStep_spec pool names (done ++ e :: rest) R x f ps
                    (length done) e (list_lookup_middle _ _ _ _ eq_refl) Hd) as Hs.
      destruct (fuzzyChoice pool names (normalizedName e)) as [[rosterRef s]|].
      * destruct Hs as (R1 & Hle1 & ->). rewrite insert_middle.
        destruct (IH (done ++ [setMatched e]) R1 x (f + 1)
                     (ps ++ [FuzzyPair (length done) rosterRef s])
                     (derefNames_le _ _ _ _ Hle1 Hd)) as (R' & Heq & Hle).
        rewrite length_snoc in Heq.
        exists R'. split; [|eapply rosterLe_trans; eassumption].
        rewrite Heq. f_equal. f_equal.
        -- rewrite <- app_assoc. reflexivity.
        -- simpl length. lia.
        -- rewrite <- app_assoc. reflexivity.
      * rewrite Hs.
        destruct (IH (done ++ [e]) R x f ps Hd) as (R' & Heq & Hle).
        rewrite length_snoc, <- !app_assoc in Heq. simpl in Heq.
        exists R'. split; [exact Heq | exact Hle].
Qed.

Lemma In_fuzzyPairsFrom (pool : list nat) (names : list jsstring) (l : list Entry)
    (off : nat) (pr : Pair) :
  In pr (fuzzyPairsFrom pool names off l) ->
  (off <= pairActivity pr)%nat
  /\ exists e s, l !! (pairActivity pr - off)%nat = Some e
       /\ matched e = false
       /\ fuzzyChoice pool names (normalizedName e) = Some (pairRoster pr, s)
       /\ pr = FuzzyPair (pairActivity pr) (pairRoster pr) s.
Proof.
  revert off. induction l as [|e l IH]; intros off; simpl; [tauto|].
  assert (Hrec : In pr (fuzzyPairsFrom pool names (S off) l) ->
    (off <= pairActivity pr)%nat
    /\ exists e0 s, (e :: l) !! (pairActivity pr - off)%nat = Some e0
         /\ matched e0 = false
         /\ fuzzyChoice pool names (normalizedName e0) = Some (pairRoster pr, s)
         /\ pr = FuzzyPair (pairActivity pr) (pairRoster pr) s).
  { intros Hin. destruct (IH _ Hin) as (Hle & e0 & s & Hl & Hm & Hc & Hp).
    split; [lia|]. exists e0, s.
    replace (pairActivity pr - off)%nat with (S (pairActivity pr - S off)) by lia.
    auto. }
  destruct (matched e) eqn:Hme; [exact Hrec|].
  destruct (fuzzyChoice pool names (normalizedName e)) as [[ref s]|] eqn:Hc;
    [|exact Hrec].
  intros [<-|Hin]; [|exact (Hrec Hin)].
  simpl. split; [lia|]. exists e, s. rewrite Nat.sub_diag. auto.
Qed.

(** The whole run: it never throws and never runs out of fuel, and its
    result is determined entry by entry. *)
Lemma main_spec (rosterRows : list RosterRow) (activityCells : list jsstring) :
  let m := snd (buildRoster rosterRows) in
  let A0 := buildActivity activityCells in
  let A1 := List.map (markExact m) A0 in
  let exactPairs := exactPairsFrom m 0 A0 in
  exists R1 R2,
    exactPass rosterRows activityCells
    = Some (mkState A1 R1 (Z.of_nat (length exactPairs)) 0 exactPairs)
    /\ rosterLe (fst (buildRoster rosterRows)) R1
    /\ (forall pr, In pr exactPairs ->
          exists r, R1 !! pairRoster pr = Some r /\ matched r = true)
    /\ main rosterRows activityCells
       = Some (mkState
                 (List.map (markFuzzy (unmatchedRefs R1) (candidateNames R1)) A1)
                 R2
                 (Z.of_nat (length exactPairs))
                 (Z.of_nat (length (fuzzyPairsFrom (unmatchedRefs R1)
                                                   (candidateNames R1) 0 A1)))
                 (exactPairs
                  ++ fuzzyPairsFrom (unmatchedRefs R1) (candidateNames R1) 0 A1))
    /\ rosterLe R1 R2.
Proof.
  cbn zeta.
  pose proof (buildRoster_indexesLast rosterRows) as Hidx.
  unfold main, exactPass.
  destruct (buildRoster rosterRows) as [R0 m]. cbn [fst snd] in *.
  destruct (exactLoop_spec m (buildActivity activityCells) [] R0 0 0 [])
    as (R1 & Heq & Hle & Hmk).
  { intros k i Hk. eapply indexesLast_valid; eassumption. }
  cbn [length app] in Heq, Hmk. rewrite Z.add_0_l in Heq.
  destruct (fuzzyLoop_spec (unmatchedRefs R1) (candidateNames R1)
              (List.map (markExact m) (buildActivity activityCells)) [] R1
              (Z.of_nat (length (exactPairsFrom m 0 (buildActivity activityCells))))
              0 (exactPairsFrom m 0 (buildActivity activityCells))
              (derefNames_unmatchedRefs R1)) as (R2 & Heq2 & Hle2).
  cbn [length app] in Heq2. rewrite Z.add_0_l in Heq2.
  exists R1, R2. rewrite Heq. unfold fuzzyPass. cbn [scheduleANames eligibleRosterNames].
  rewrite batchLoop_forEach by lia. rewrite drop_0.
  repeat split; try assumption.
Qed.

(** ** Pairs and marks *)



Lemma fuzzyChoice_Some (pool : list nat) (names : list jsstring)
    (activityName : jsstring) (ref : nat) (s : float) :
  fuzzyChoice pool names activityName = Some (ref, s) ->
  exists k,
    snd (bestMatch activityName names) = Some k
    /\ pool !! k = Some ref
    /\ s = fst (bestMatch activityName names)
    /\ (tau <? s)%float = true.
Proof.
  unfold fuzzyChoice. destruct (bestMatch activityName names) as [s0 idx]. simpl.
  destruct (tau <? s0)%float eqn:Ht; [|discriminate].
  destruct idx as [k|]; [|discriminate].
  destruct (pool !! k) as [r|] eqn:Hp; [|discriminate].
  intros [= <- <-]. exists k. auto.
Qed.

Lemma NoDup_exactPairsFrom (m : gmap (list N) nat) (l : list Entry) (off : nat) :
  List.NoDup (List.map pairActivity (exactPairsFrom m off l)).
Proof.
  revert off. induction l as [|e l IH]; intros off; simpl; [constructor|].
  destruct (m !! normalizedName e); [|apply IH].
  simpl. constructor; [|apply IH].
  intros Hin. apply in_map_iff in Hin. destruct Hin as (pr & Hact & Hin).
  apply In_exactPairsFrom in Hin. lia.
Qed.

Lemma NoDup_fuzzyPairsFrom (pool : list nat) (names : list jsstring)
    (l : list Entry) (off : nat) :
  List.NoDup (List.map pairActivity (fuzzyPairsFrom pool names off l)).
Proof.
  revert off. induction l as [|e l IH]; intros off; simpl; [constructor|].
  destruct (matched e); [apply IH|].
  destruct (fuzzyChoice pool names (normalizedName e)) as [[ref s]|]; [|apply IH].
  simpl. constructor; [|apply IH].
  intros Hin. apply in_map_iff in Hin. destruct Hin as (pr & Hact & Hin).
  apply In_fuzzyPairsFrom in Hin. lia.
Qed.

Lemma NoDup_app_disjoint (l k : list nat) :
  List.NoDup l -> List.NoDup k -> (forall x, In x l -> In x k -> False) ->
  List.NoDup (l ++ k).
Proof.
  induction 1 as [|x l Hx Hl IH]; intros Hk Hd; simpl; [exact Hk|].
  constructor.
  - intros Hin. apply in_app_or in Hin. destruct Hin as [Hin|Hin].
    + exact (Hx Hin).
    + apply (Hd x); [left; reflexivity | exact Hin].
  - apply IH; [exact Hk|]. intros y Hy. apply Hd. right. exact Hy.
Qed.

Lemma markExact_fields (m : gmap (list N) nat) (e : Entry) :
  normalizedName (markExact m e) = normalizedName e
  /\ rowIndex (markExact m e) = rowIndex e.
Proof. unfold markExact. destruct (m !! normalizedName e); auto. Qed.

Lemma markFuzzy_fields (pool : list nat) (names : list jsstring) (e : Entry) :
  normalizedName (markFuzzy pool names e) = normalizedName e
  /\ rowIndex (markFuzzy pool names e) = rowIndex e.
Proof.
  unfold markFuzzy. destruct (matched e); [auto|].
  destruct (fuzzyChoice pool names (normalizedName e)); auto.
Qed.

Lemma markFuzzy_keeps (pool : list nat) (names : list jsstring) (e : Entry) :
  matched e = true -> matched (markFuzzy pool names e) = true.
Proof. intros H. unfold markFuzzy. rewrite H. exact H. Qed.

Lemma entriesFrom_length (row : nat) (cells : list jsstring) :
  length (entriesFrom row cells)
  = length (List.filter (fun cell => truthy (normalize cell)) cells).
Proof.
  revert row. induction cells as [|cell cells IH]; intros row;
    cbn [entriesFrom List.filter]; [reflexivity|].
  destruct (truthy (normalize cell)); cbn [length]; rewrite IH; reflexivity.
Qed.

Lemma exactPairsFrom_complete (m : gmap (list N) nat) (l : list Entry)
    (off p i : nat) (e : Entry) :
  l !! p = Some e -> m !! normalizedName e = Some i ->
  In (ExactPair (off + p) i) (exactPairsFrom m off l).
Proof.
  revert off p. induction l as [|e0 l IH]; intros off p Hl Hm.
  - rewrite lookup_nil in Hl. discriminate.
  - destruct p as [|p]; cbn [exactPairsFrom].
    + injection Hl as ->. rewrite Hm, Nat.add_0_r. left. reflexivity.
    + change (l !! p = Some e) in Hl.
      replace (off + S p)%nat with (S off + p)%nat by lia.
      destruct (m !! normalizedName e0); [right|]; apply IH; assumption.
Qed.

(** The pairs of a run, split by pass. *)
Lemma pairs_split (m : gmap (list N) nat) (pool : list nat) (names : list jsstring)
    (A0 A1 : list Entry) (pr : Pair) :
  In pr (exactPairsFrom m 0 A0 ++ fuzzyPairsFrom pool names 0 A1) ->
  (isFuzzy pr = false /\ In pr (exactPairsFrom m 0 A0))
  \/ (isFuzzy pr = true /\ In pr (fuzzyPairsFrom pool names 0 A1)).
Proof.
  intros Hin. apply in_app_or in Hin. destruct Hin as [Hin|Hin].
  - left. split; [|exact Hin].
    apply In_exactPairsFrom in Hin. destruct Hin as (_ & e & _ & _ & ->). reflexivity.
  - right. split; [|exact Hin].
    apply In_fuzzyPairsFrom in Hin. destruct Hin as (_ & e & s & _ & _ & _ & ->).
    reflexivity.
Qed.

(** ** Rows and roster entries *)

Lemma eligible_iff (r : RosterRow) :
  eligible r = true
  <-> trim (Roster r) ∈ scheduleATypes
      /\ normalizeName (cleanName (FirstName r)) (cleanName (LastName r)) <> [].
Proof.
  unfold eligible, rosterName. rewrite andb_true_iff, bool_decide_eq_true.
  destruct (normalizeName _ _); cbn [truthy]; split; intros [H1 H2];
    (split; [exact H1|]); congruence.
Qed.

(** Every eligible row becomes an entry, with its row number. *)
Lemma rosterEntriesFrom_complete (rows : list RosterRow) :
  forall (row k : nat) (r : RosterRow),
  rows !! k = Some r -> eligible r = true ->
  exists i, rosterEntriesFrom row rows !! i
            = Some (mkEntry (rosterName r) (row + k) false).
Proof.
  induction rows as [|r0 rows IH]; intros row k r Hk Hel.
  - rewrite lookup_nil in Hk. discriminate.
  - cbn [rosterEntriesFrom]. destruct k as [|k].
    + injection Hk as ->. rewrite Hel, Nat.add_0_r. exists 0%nat. reflexivity.
    + change (rows !! k = Some r) in Hk.
      destruct (IH (S row) k r Hk Hel) as [i Hi].
      replace (row + S k)%nat with (S row + k)%nat by lia.
      destruct (eligible r0); [exists (S i) | exists i]; exact Hi.
Qed.

(** Every entry is the entry of an eligible row. *)
Lemma rosterEntriesFrom_entry (rows : list RosterRow) :
  forall (row i : nat) (e : Entry),
  rosterEntriesFrom row rows !! i = Some e ->
  exists k r, rows !! k = Some r /\ eligible r = true
    /\ e = mkEntry (rosterName r) (row + k) false.
Proof.
  induction rows as [|r0 rows IH]; intros row i e Hi; cbn [rosterEntriesFrom] in Hi.
  - rewrite lookup_nil in Hi. discriminate.
  - assert (Hrec : forall i', rosterEntriesFrom (S row) rows !! i' = Some e ->
      exists k r, (r0 :: rows) !! k = Some r /\ eligible r = true
        /\ e = mkEntry (rosterName r) (row + k) false).
    { intros i' H. destruct (IH _ _ _ H) as (k & r & Hk & Hel & ->).
      exists (S k), r. split; [exact Hk|]. split; [exact Hel|]. f_equal. lia. }
    destruct (eligible r0) eqn:E; [|exact (Hrec i Hi)].
    destruct i as [|i]; [|exact (Hrec i Hi)].
    injection Hi as <-. exists 0%nat, r0. rewrite Nat.add_0_r. auto.
Qed.

(** ** The best score and the candidates above the threshold *)

Lemma SFltb_right_ordered (x y : spec_float) : SFltb x y = true -> SFleb y y = true.
Proof.
  unfold SFltb, SFleb, SFcompare.
  destruct x as [[]|[]| |[] mx ex], y as [[]|[]| |[] my ey];
    try discriminate; try reflexivity; intros _;
    rewrite Z.compare_refl;
    change (Pos.compare_cont Eq my my) with (Pos.compare my my);
    rewrite Pos.compare_refl; reflexivity.
Qed.

Lemma SFltb_below (t s b : spec_float) :
  SFltb t s = true -> SFltb b s = false -> SFleb b b = true -> SFltb t b = true.
Proof.
  unfold SFltb, SFleb, SFcompare.
  destruct t as [[]|[]| |[] mt et], s as [[]|[]| |[] ms es],
    b as [[]|[]| |[] mb eb];
    try discriminate; try reflexivity; intros H1 H2 _; sf_compare.
Qed.

Lemma float_ltb_right_ordered (x y : float) :
  (x <? y)%float = true -> (y <=? y)%float = true.
Proof. rewrite ltb_spec, leb_spec. apply SFltb_right_ordered. Qed.

Lemma float_ltb_below (t s b : float) :
  (t <? s)%float = true -> (b <? s)%float = false -> (b <=? b)%float = true ->
  (t <? b)%float = true.
Proof. rewrite !ltb_spec, leb_spec. apply SFltb_below. Qed.

(** The best score of a scan is above the threshold exactly when the score
    of some scanned name is, or the starting value was. *)
Lemma scan_above_tau (activityName : jsstring) (names : list jsstring) :
  forall (index : nat) (best : float * option nat),
  (fst best <=? fst best)%float = true ->
  (tau <? fst (scan activityName names index best))%float = true
  <-> (tau <? fst best)%float = true
      \/ exists name, In name names /\ (tau <? score activityName name)%float = true.
Proof.
  induction names as [|name names IH]; intros index best Hord; cbn [scan].
  - split; [auto|]. intros [H|(name & [] & _)]. exact H.
  - cbv zeta.
    destruct (fst best <? score activityName name)%float eqn:Hup.
    + rewrite IH by (cbn [fst]; eapply float_ltb_right_ordered, Hup).
      cbn [fst In]. split.
      * intros [H|(n & Hin & H)]; right; eauto.
      * intros [H|(n & [<-|Hin] & H)]; [left|left|right; eauto].
        -- eapply float_ltb_trans; eassumption.
        -- exact H.
    + rewrite IH by exact Hord. cbn [In]. split.
      * intros [H|(n & Hin & H)]; [left; exact H | right; eauto].
      * intros [H|(n & [<-|Hin] & H)]; [left; exact H | left | right; eauto].
        eapply float_ltb_below; eassumption.
Qed.

Lemma bestMatch_above_iff (activityName : jsstring) (names : list jsstring) :
  (tau <? fst (bestMatch activityName names))%float = true
  <-> exists name, In name names /\ (tau <? score activityName name)%float = true.
Proof.
  unfold bestMatch. rewrite scan_above_tau by (vm_compute; reflexivity).
  cbn [fst]. split; [|auto]. intros [H|H]; [|exact H].
  vm_compute in H. discriminate.
Qed.

(** The names of the candidates are the names of the unmatched entries. *)
Lemma In_candidateNames (roster : list Entry) (name : jsstring) :
  In name (candidateNames roster)
  <-> exists a r, roster !! a = Some r /\ matched r = false /\ normalizedName r = name.
Proof.
  unfold candidateNames. rewrite in_map_iff. split.
  - intros (r & Hn & Hin). apply filter_In in Hin. destruct Hin as [Hin Hun].
    apply list_elem_of_In, list_elem_of_lookup_1 in Hin. destruct Hin as [a Ha].
    exists a, r. split; [exact Ha|]. split; [|exact Hn].
    destruct (matched r); [discriminate | reflexivity].
  - intros (a & r & Ha & Hun & Hn). exists r. split; [exact Hn|].
    apply filter_In. split; [|rewrite Hun; reflexivity].
    apply list_elem_of_In. eapply list_elem_of_lookup_2, Ha.
Qed.

(** * The claims *)

(** ** Normalisation *)

(** C9.  Normalisation is idempotent: applying the pipeline of the
    Schedule A cells ([cleanName], then [normalizeActivityName]) to its own
    output gives that output back. *)
Theorem normalize_idempotent (s : jsstring) :
  normalize (normalize s) = normalize s.
Proof.
  rewrite (normalize_letters (normalize s)).
  rewrite (normalize_letters s).
  pose proof (letters_are_lowerAZ (beforeParen s)) as Haz.
  rewrite (beforeParen_id _ (lowerAZ_noParen _ Haz)).
  apply letters_lowerAZ, Haz.
Qed.

(** C10.  [normalizeActivityName (cleanName s)] is the simpler function
    that truncates at the first "(", lowercases and deletes every unit
    outside a-z; the removals made by [cleanName] never show in the result,
    which is also what [normalizeActivityName] gives on the raw text. *)
Theorem normalize_is_simpleNormalize (s : jsstring) :
  normalizeActivityName (cleanName s) = simpleNormalize s
  /\ normalizeActivityName (cleanName s) = normalizeActivityName s.
Proof.
  assert (H : normalizeActivityName (cleanName s) = letters (beforeParen s)).
  { rewrite normalizeActivityName_letters.
    rewrite (beforeParen_id _ (cleanName_noParen s)).
    apply letters_cleanName. }
  split.
  - rewrite H. reflexivity.
  - rewrite H. symmetry. apply normalizeActivityName_letters.
Qed.

(** ** The exact-match index *)

(** C2, as the script has it.  Every roster row of an eligible type whose
    normalised name is not empty becomes an entry that carries its row
    number, and the entries follow the order of the rows.  The index maps a
    normalised name to the entry of the LAST such row that has it:
    [Map.set] overwrites, so of several rows with one name the earlier ones
    have an entry and are not indexed. *)
Theorem exactMatchMap_keeps_last (rosterRows : list RosterRow) :
  let array := fst (buildRoster rosterRows) in
  let exactMatchMap := snd (buildRoster rosterRows) in
  (forall k i,
     exactMatchMap !! k = Some i <->
     (nameAt array i = Some k
      /\ forall j, (i < j)%nat -> nameAt array j <> Some k))
  /\ (forall i j e e',
        (i < j)%nat -> array !! i = Some e -> array !! j = Some e' ->
        (rowIndex e < rowIndex e')%nat)
  /\ (forall e, In e array ->
        exists r, rosterRows !! (rowIndex e - 1)%nat = Some r
          /\ normalizedName e
             = normalizeName (cleanName (FirstName r)) (cleanName (LastName r)))
  /\ (forall k r,
        rosterRows !! k = Some r ->
        trim (Roster r) ∈ scheduleATypes ->
        normalizeName (cleanName (FirstName r)) (cleanName (LastName r)) <> [] ->
        exists i,
          array !! i
          = Some (mkEntry (normalizeName (cleanName (FirstName r))
                                         (cleanName (LastName r)))
                          (S k) false))
  /\ (forall name i,
        exactMatchMap !! name = Some i <->
        exists k r,
          rosterRows !! k = Some r
          /\ trim (Roster r) ∈ scheduleATypes
          /\ name = normalizeName (cleanName (FirstName r)) (cleanName (LastName r))
          /\ name <> []
          /\ array !! i = Some (mkEntry name (S k) false)
          /\ forall k' r',
               (k < k')%nat -> rosterRows !! k' = Some r' ->
               trim (Roster r') ∈ scheduleATypes ->
               normalizeName (cleanName (FirstName r')) (cleanName (LastName r'))
               <> name).
Proof.
  cbn zeta. pose proof (buildRoster_indexesLast rosterRows) as Hidx.
  split; [exact Hidx|].
  rewrite buildRoster_entries in *. split; [|split; [|split]].
  - intros i j e e'. apply rosterEntriesFrom_increasing.
  - intros e Hin. apply rosterEntriesFrom_rows in Hin.
    destruct Hin as (r & Hr & _ & _ & Hn). exists r. split; assumption.
  - intros k r Hk Htype Hname.
    apply (rosterEntriesFrom_complete rosterRows 1 k r Hk).
    apply eligible_iff. split; assumption.
  - intros name i. rewrite (Hidx name i). split.
    + intros [Hi Hlast]. unfold nameAt in Hi.
      destruct (rosterEntriesFrom 1 rosterRows !! i) as [e|] eqn:He; [|discriminate].
      injection Hi as Hn.
      destruct (rosterEntriesFrom_entry _ _ _ _ He) as (k & r & Hk & Hel & ->).
      cbn [normalizedName] in Hn. subst name.
      pose proof (proj1 (eligible_iff r) Hel) as [Htype Hne].
      exists k, r. repeat split; try assumption.
      intros k' r' Hlt Hk' Htype' Heq.
      assert (Hel' : eligible r' = true).
      { apply eligible_iff. split; [exact Htype'|]. rewrite Heq. exact Hne. }
      destruct (rosterEntriesFrom_complete rosterRows 1 k' r' Hk' Hel') as [j Hj].
      destruct (Nat.lt_trichotomy i j) as [Hij|[Hij|Hij]].
      * apply (Hlast j Hij). unfold nameAt. rewrite Hj. cbn. f_equal. exact Heq.
      * subst j. rewrite He in Hj. injection Hj as _ Hrow. lia.
      * pose proof (rosterEntriesFrom_increasing _ _ _ _ _ _ Hij Hj He) as Hrow.
        cbn [rowIndex] in Hrow. lia.
    + intros (k & r & Hk & Htype & Hn & Hne & He & Hlater). split.
      * unfold nameAt. rewrite He. reflexivity.
      * intros j Hij Hj. unfold nameAt in Hj.
        destruct (rosterEntriesFrom 1 rosterRows !! j) as [e'|] eqn:He'; [|discriminate].
        injection Hj as Hn'.
        destruct (rosterEntriesFrom_entry _ _ _ _ He') as (k' & r' & Hk' & Hel' & ->).
        cbn [normalizedName] in Hn'.
        pose proof (rosterEntriesFrom_increasing _ _ _ _ _ _ Hij He He') as Hrow.
        cbn [rowIndex] in Hrow.
        pose proof (proj1 (eligible_iff r') Hel') as [Htype' _].
        apply (Hlater k' r' ltac:(lia) Hk' Htype'). exact Hn'.
Qed.

(** C2, counterexample.  Two roster rows with the normalised name
    "johnsmith": both become entries (positions 0 and 1, rows 1 and 2), and
    the index sends the name to position 1, the later one. *)
Lemma exactMatchMap_not_first :
  let rows := [mkRosterRow (js "john") (js "smith") (js "Schedule A");
               mkRosterRow (js "John") (js "Smith") (js "Weekly")] in
  fst (buildRoster rows)
  = [mkEntry (js "johnsmith") 1 false; mkEntry (js "johnsmith") 2 false]
  /\ snd (buildRoster rows) !! js "johnsmith" = Some 1%nat.
Proof. vm_compute. split; reflexivity. Qed.

(** ** The bounded edit distance *)

(** C4.  With a budget [maxDistance >= 0] and [d] the Levenshtein distance
    (the least cost of an edit script): when [d <= maxDistance] the function
    returns [d]; otherwise it returns a value above the budget, which is [d]
    itself or [maxDistance + 1] (the early return), and the scorer called
    with a threshold that gives this budget returns 0. *)
Theorem levenshteinDistanceWithLimit_bounded (str1 str2 : jsstring)
    (maxDistance : Z) (d : nat) :
  0 <= maxDistance -> is_distance str1 str2 d ->
  let r := levenshteinDistanceWithLimit str1 str2 (Limit maxDistance) in
  (Z.of_nat d <= maxDistance -> r = Z.of_nat d)
  /\ (maxDistance < Z.of_nat d ->
      maxDistance < r /\ (r = Z.of_nat d \/ r = maxDistance + 1))
  /\ (maxDistance < Z.of_nat d ->
      forall threshold,
        Math_floor (ofZ (Z.max (Z.of_nat (length str1)) (Z.of_nat (length str2)))
                    * (1 - threshold))%float = Limit maxDistance ->
        calculateOptimizedSimilarity str1 str2 threshold = 0%float).
Proof.
  intros Hpos Hd. apply is_distance_unique in Hd. subst d. cbn zeta.
  destruct (levenshteinDistanceWithLimit_spec str1 str2 (Limit maxDistance))
    as [Hfit Hover]. cbn zeta in Hfit, Hover. simpl fits in Hfit, Hover.
  split; [exact Hfit|].
  assert (Habove : maxDistance < Z.of_nat (levenshtein str1 str2) ->
            maxDistance < levenshteinDistanceWithLimit str1 str2 (Limit maxDistance)
            /\ (levenshteinDistanceWithLimit str1 str2 (Limit maxDistance)
                  = Z.of_nat (levenshtein str1 str2)
                \/ levenshteinDistanceWithLimit str1 str2 (Limit maxDistance)
                   = maxDistance + 1)).
  { intros Hlt. destruct (Hover ltac:(lia)) as [Hex Hval].
    simpl in Hex. apply Z.ltb_lt in Hex. split; [exact Hex|].
    destruct Hval as [Hv|(b & [= <-] & Hv)]; auto. }
  split; [exact Habove|].
  intros Hlt threshold Hfloor. unfold calculateOptimizedSimilarity. cbn zeta.
  destruct (Z.eqb_spec (Z.max (Z.of_nat (length str1)) (Z.of_nat (length str2))) 0)
    as [Hz|_].
  - exfalso. destruct str1; [|simpl in Hz; lia]. destruct str2; [|simpl in Hz; lia].
    simpl in Hlt. lia.
  - do 3 match goal with
         | |- (if ?c then 0%float else _) = 0%float => destruct c; [reflexivity|]
         end.
    rewrite Hfloor. simpl exceeds.
    destruct (Habove Hlt) as [Hr _]. apply Z.ltb_lt in Hr. rewrite Hr. reflexivity.
Qed.

(** C4, at "kitten" and "sitting" (distance 3) with the budget 5. *)
Lemma levenshteinDistanceWithLimit_bounded_witness :
  0 <= 5
  /\ is_distance (js "kitten") (js "sitting") 3
  /\ levenshteinDistanceWithLimit (js "kitten") (js "sitting") (Limit 5) = 3.
Proof.
  split; [lia|]. split; [exact (levenshtein_is_distance (js "kitten") (js "sitting"))|].
  apply (levenshteinDistanceWithLimit_bounded (js "kitten") (js "sitting") 5 3).
  - lia.
  - exact (levenshtein_is_distance (js "kitten") (js "sitting")).
  - simpl. lia.
Defined.

(** ** The similarity score *)

(** C5.  The score is symmetric in its two strings for every threshold,
    also where the bounded distance returns early for one order of the
    arguments and not for the other.  That happens for "aaaacbb" and
    "aaacbbac" at the threshold 0.85 (budget 1): one order completes the
    table and returns the distance 3, the other returns early with 2; both
    are above the budget and the score is 0 either way. *)
Theorem calculateOptimizedSimilarity_symmetric (str1 str2 : jsstring)
    (threshold : float) :
  calculateOptimizedSimilarity str1 str2 threshold
  = calculateOptimizedSimilarity str2 str1 threshold
  /\ Math_floor (ofZ 8 * (1 - tau))%float = Limit 1
  /\ levenshteinDistanceWithLimit (js "aaaacbb") (js "aaacbbac") (Limit 1) = 3
  /\ levenshteinDistanceWithLimit (js "aaacbbac") (js "aaaacbb") (Limit 1) = 2
  /\ calculateOptimizedSimilarity (js "aaaacbb") (js "aaacbbac") tau = 0%float
  /\ calculateOptimizedSimilarity (js "aaacbbac") (js "aaaacbb") tau = 0%float.
Proof.
  split; [|vm_compute; repeat split; reflexivity].
  unfold calculateOptimizedSimilarity, jaccardSimilarity. cbn zeta.
  rewrite (jaccardCounts_sym str2 str1), (sameUnit_sym (head str2) (head str1)).
  rewrite (Z.max_comm (Z.of_nat (length str2)) (Z.of_nat (length str1))).
  replace (Z.abs (Z.of_nat (length str2) - Z.of_nat (length str1)))
    with (Z.abs (Z.of_nat (length str1) - Z.of_nat (length str2))) by lia.
  repeat match goal with
         | |- (if ?c then ?x else _) = (if ?c then ?x else _) =>
             destruct c; [reflexivity|]
         end.
  generalize (Math_floor
                (ofZ (Z.max (Z.of_nat (length str1)) (Z.of_nat (length str2)))
                 * (1 - threshold))%float).
  intros maxDistance.
  destruct (levenshteinDistanceWithLimit_spec str1 str2 maxDistance) as [Hfit1 Hover1].
  destruct (levenshteinDistanceWithLimit_spec str2 str1 maxDistance) as [Hfit2 Hover2].
  cbn zeta in *. rewrite (levenshtein_sym str2 str1) in Hfit2, Hover2.
  destruct (fits_dec (Z.of_nat (levenshtein str1 str2)) maxDistance) as [Hf|Hf].
  - rewrite (Hfit1 Hf), (Hfit2 Hf). reflexivity.
  - destruct (Hover1 Hf) as [-> _]. destruct (Hover2 Hf) as [-> _]. reflexivity.
Qed.

(** ** The matcher *)

(** C1, counterexample.  One roster entry and two Schedule A cells with
    its name: the exact pass pairs both activity entries (positions 0 and
    1) with the roster entry at position 0.  The fuzzy pass does the same
    with two cells that are each one letter away from the roster name. *)
Lemma roster_entry_matched_twice :
  main [mkRosterRow (js "john") (js "smith") (js "Schedule A")]
       [js "john smith"; js "John Smith"]
  = Some (mkState [mkEntry (js "johnsmith") 1 true; mkEntry (js "johnsmith") 2 true]
                  [mkEntry (js "johnsmith") 1 true]
                  2 0 [ExactPair 0 0; ExactPair 1 0])
  /\ main [mkRosterRow (js "jane") (js "doe") (js "Schedule A")]
          [js "jane dow"; js "jane doz"]
     = Some (mkState [mkEntry (js "janedow") 1 true; mkEntry (js "janedoz") 2 true]
                     [mkEntry (js "janedoe") 1 true]
                     0 2 [FuzzyPair 0 0 (6 / 7); FuzzyPair 1 0 (6 / 7)]).
Proof. vm_compute. split; reflexivity. Qed.

(** C1, as the script has it.  Every run ends; an activity entry is paired
    at most once, and a paired activity entry is marked; the roster entry of
    a fuzzy pair was unmatched after the exact pass, so it is never the
    roster entry of an exact pair.  The exact pass pairs every activity
    entry whose name is in the index with the indexed roster entry, however
    many activity entries have that name. *)
Theorem activity_entries_matched_once (rosterRows : list RosterRow)
    (activityCells : list jsstring) :
  exists st1 st,
    exactPass rosterRows activityCells = Some st1
    /\ main rosterRows activityCells = Some st
    /\ List.NoDup (List.map pairActivity (pairs st))
    /\ (forall pr, In pr (pairs st) ->
          exists e, scheduleANames st !! pairActivity pr = Some e /\ matched e = true)
    /\ (forall pr, In pr (pairs st) -> isFuzzy pr = true ->
          In (pairRoster pr) (unmatchedRefs (eligibleRosterNames st1)))
    /\ (forall pe pf, In pe (pairs st) -> In pf (pairs st) ->
          isFuzzy pe = false -> isFuzzy pf = true -> pairRoster pe <> pairRoster pf)
    /\ (forall p e i,
          scheduleANames st1 !! p = Some e ->
          snd (buildRoster rosterRows) !! normalizedName e = Some i ->
          In (ExactPair p i) (pairs st)).
Proof.
  destruct (main_spec rosterRows activityCells) as (R1 & R2 & He & Hle & Hmk & Hm & Hle2).
  cbn zeta in *.
  set (m := snd (buildRoster rosterRows)) in *.
  set (A0 := buildActivity activityCells) in *.
  set (pool := unmatchedRefs R1) in *. set (names := candidateNames R1) in *.
  eexists. eexists. split; [exact He|]. split; [exact Hm|].
  cbn [pairs scheduleANames eligibleRosterNames].
  assert (Hfz : forall pr, In pr (fuzzyPairsFrom pool names 0 (List.map (markExact m) A0)) ->
            In (pairRoster pr) pool).
  { intros pr Hin. apply In_fuzzyPairsFrom in Hin.
    destruct Hin as (_ & e & s & _ & _ & Hc & _).
    apply fuzzyChoice_Some in Hc. destruct Hc as (k & _ & Hp & _).
    apply list_elem_of_In. eapply list_elem_of_lookup_2, Hp. }
  split; [|split; [|split; [|split]]].
  - rewrite List.map_app. apply NoDup_app_disjoint.
    + apply NoDup_exactPairsFrom.
    + apply NoDup_fuzzyPairsFrom.
    + intros p H1 H2. apply in_map_iff in H1. destruct H1 as (pe & <- & H1).
      apply in_map_iff in H2. destruct H2 as (pf & Hp & H2).
      apply In_exactPairsFrom in H1. destruct H1 as (_ & e & Hl & Hhit & _).
      apply In_fuzzyPairsFrom in H2. destruct H2 as (_ & e1 & s & Hl1 & Hun & _).
      rewrite Hp, Nat.sub_0_r in *. rewrite list_lookup_fmap, Hl in Hl1.
      injection Hl1 as <-. unfold markExact in Hun. rewrite Hhit in Hun. discriminate.
  - intros pr Hin. apply pairs_split in Hin. destruct Hin as [[_ Hin]|[_ Hin]].
    + apply In_exactPairsFrom in Hin. destruct Hin as (_ & e & Hl & Hhit & _).
      rewrite Nat.sub_0_r in Hl. eexists. split.
      * rewrite !list_lookup_fmap, Hl. reflexivity.
      * apply markFuzzy_keeps. unfold markExact. rewrite Hhit. reflexivity.
    + apply In_fuzzyPairsFrom in Hin. destruct Hin as (_ & e & s & Hl & Hun & Hc & _).
      rewrite Nat.sub_0_r in Hl. eexists. split.
      * rewrite list_lookup_fmap, Hl. reflexivity.
      * unfold markFuzzy. rewrite Hun, Hc. reflexivity.
  - intros pr Hin Hf. apply pairs_split in Hin.
    destruct Hin as [[Hx _]|[_ Hin]]; [congruence|]. apply Hfz, Hin.
  - intros pe pf Hpe Hpf He0 Hf0 Heq.
    apply pairs_split in Hpe. destruct Hpe as [[_ Hpe]|[Hx _]]; [|congruence].
    apply pairs_split in Hpf. destruct Hpf as [[Hx _]|[_ Hpf]]; [congruence|].
    destruct (Hmk pe Hpe) as (r & Hr & Hrm).
    apply Hfz in Hpf. apply In_unmatchedFrom in Hpf.
    destruct Hpf as (_ & r' & Hr' & Hun). rewrite Nat.sub_0_r, <- Heq, Hr in Hr'.
    congruence.
  - intros p e i Hp Hi. apply in_or_app. left.
    rewrite list_lookup_fmap in Hp.
    destruct (A0 !! p) as [e0|] eqn:H0; [|discriminate].
    injection Hp as <-.
    destruct (markExact_fields m e0) as [Hn _]. rewrite Hn in Hi.
    exact (exactPairsFrom_complete m A0 0 p i e0 H0 Hi).
Qed.

(** C3, counterexample.  "janedow" and "janedoe" have length 7, not 8: the
    score of the fuzzy match is 6/7, which is not 0.875. *)
Lemma jane_score_is_not_0875 :
  length (js "janedow") = 7%nat /\ length (js "janedoe") = 7%nat
  /\ levenshtein (js "janedow") (js "janedoe") = 1%nat
  /\ calculateOptimizedSimilarity (js "janedow") (js "janedoe") tau = (6 / 7)%float
  /\ (6 / 7 =? 0.875)%float = false
  /\ pairs <$> main [mkRosterRow (js "john") (js "smith") (js "Schedule A");
                     mkRosterRow (js "jane") (js "doe") (js "Schedule A")]
                    [js "John Smith (note)"; js "jane dow"]
     = Some [ExactPair 0 0; FuzzyPair 1 1 (6 / 7)].
Proof. vm_compute. repeat split; reflexivity. Qed.

(** C3, with the score the script computes.  Roster rows 1 "john smith"
    and 2 "jane doe" (first and last name in their columns, or the whole
    name in the first), Schedule A rows 1 "John Smith (note)" and 2
    "jane dow" (the records 10 and 11 of the example): row 1 is matched
    exactly with roster row 1, both names being "johnsmith"; row 2 is
    matched fuzzily with roster row 2 at score 6/7 (distance 1 over length
    7), above 0.85; the counters are exact 1, fuzzy 1, and nothing is left
    unmatched on either side. *)
Theorem end_to_end_john_jane :
  let final :=
    mkState [mkEntry (js "johnsmith") 1 true; mkEntry (js "janedow") 2 true]
            [mkEntry (js "johnsmith") 1 true; mkEntry (js "janedoe") 2 true]
            1 1 [ExactPair 0 0; FuzzyPair 1 1 (6 / 7)] in
  main [mkRosterRow (js "john") (js "smith") (js "Schedule A");
        mkRosterRow (js "jane") (js "doe") (js "Schedule A")]
       [js "John Smith (note)"; js "jane dow"] = Some final
  /\ main [mkRosterRow (js "john smith") [] (js "Schedule A");
           mkRosterRow (js "jane doe") [] (js "Schedule A")]
          [js "John Smith (note)"; js "jane dow"] = Some final
  /\ normalize (js "John Smith (note)") = js "johnsmith"
  /\ normalizeName (cleanName (js "john")) (cleanName (js "smith")) = js "johnsmith"
  /\ (tau <? 6 / 7)%float = true
  /\ exactMatches final = 1 /\ fuzzyMatches final = 1
  /\ unmatchedScheduleA final = 0 /\ unmatchedRoster final = 0.
Proof. vm_compute. repeat split; reflexivity. Qed.

(** C6.  The candidates of the second pass are the roster entries that the
    first pass left unmatched.  An activity entry left unmatched by the
    first pass ends matched exactly when the score of some candidate is
    strictly above 0.85, that is, when the greatest score of the candidates
    is: the value the scan returns is 0 for no candidate above 0, and
    otherwise the score of a candidate that no candidate exceeds.  A score
    equal to 0.85 does not match: two names of length 20 at distance 3
    score 0.85, and the run leaves both entries unmatched; at the score
    6/7 the run matches them. *)
Theorem fuzzy_threshold_is_strict (rosterRows : list RosterRow)
    (activityCells : list jsstring) :
  (exists st1 st,
     exactPass rosterRows activityCells = Some st1
     /\ main rosterRows activityCells = Some st
     /\ forall p e,
          scheduleANames st1 !! p = Some e -> matched e = false ->
          exists e' best,
            scheduleANames st !! p = Some e'
            /\ forEachIndexed
                 (scanStep (eligibleRosterNames st1) (normalizedName e))
                 (unmatchedRefs (eligibleRosterNames st1)) 0 (0%float, None)
               = Some best
            /\ (matched e' = true <-> (tau <? fst best)%float = true)
            /\ normalizedName e' = normalizedName e
            /\ (matched e' = true <->
                exists a r,
                  eligibleRosterNames st1 !! a = Some r /\ matched r = false
                  /\ (tau <? calculateOptimizedSimilarity
                               (normalizedName e) (normalizedName r) tau)%float = true)
            /\ (forall a r,
                  eligibleRosterNames st1 !! a = Some r -> matched r = false ->
                  (fst best <? calculateOptimizedSimilarity
                                 (normalizedName e) (normalizedName r) tau)%float = false)
            /\ (fst best = 0%float
                \/ exists a r,
                     eligibleRosterNames st1 !! a = Some r /\ matched r = false
                     /\ fst best = calculateOptimizedSimilarity
                                     (normalizedName e) (normalizedName r) tau))
  /\ levenshteinDistanceWithLimit (js "abcdefghijklmnopqaaa")
       (js "abcdefghijklmnopqrst") NoLimit = 3
  /\ calculateOptimizedSimilarity (js "abcdefghijklmnopqaaa")
       (js "abcdefghijklmnopqrst") tau = tau
  /\ (tau <? tau)%float = false
  /\ main [mkRosterRow (js "abcdefghij") (js "klmnopqrst") (js "Schedule A")]
          [js "abcdefghijklmnopqaaa"]
     = Some (mkState [mkEntry (js "abcdefghijklmnopqaaa") 1 false]
                     [mkEntry (js "abcdefghijklmnopqrst") 1 false] 0 0 [])
  /\ calculateOptimizedSimilarity (js "janedow") (js "janedoe") tau = (6 / 7)%float
  /\ (tau <? 6 / 7)%float = true
  /\ main [mkRosterRow (js "jane") (js "doe") (js "Schedule A")] [js "jane dow"]
     = Some (mkState [mkEntry (js "janedow") 1 true]
                     [mkEntry (js "janedoe") 1 true] 0 1 [FuzzyPair 0 0 (6 / 7)]).
Proof.
  split; [|vm_compute; repeat split; reflexivity].
  destruct (main_spec rosterRows activityCells) as (R1 & R2 & He & Hle & Hmk & Hm & Hle2).
  cbn zeta in *.
  eexists. eexists. split; [exact He|]. split; [exact Hm|].
  cbn [scheduleANames eligibleRosterNames]. intros p e Hp Hun.
  exists (markFuzzy (unmatchedRefs R1) (candidateNames R1) e),
         (bestMatch (normalizedName e) (candidateNames R1)).
  assert (Hiff : matched (markFuzzy (unmatchedRefs R1) (candidateNames R1) e) = true
                 <-> (tau <? fst (bestMatch (normalizedName e) (candidateNames R1)))%float
                     = true).
  { unfold markFuzzy. rewrite Hun. split.
    - intros Hmt.
      destruct (fuzzyChoice (unmatchedRefs R1) (candidateNames R1) (normalizedName e))
        as [[ref s]|] eqn:Hc; [|congruence].
      apply fuzzyChoice_Some in Hc. destruct Hc as (k & _ & _ & -> & Ht). exact Ht.
    - intros Ht.
      destruct (fuzzyChoice_above (unmatchedRefs R1) (candidateNames R1) (normalizedName e)
                  (Forall2_length _ _ _ (derefNames_unmatchedRefs R1)) Ht)
        as (k & ref & _ & _ & ->).
      reflexivity. }
  destruct (bestMatch_inv (normalizedName e) (candidateNames R1)) as [Hmax Hbest].
  split; [rewrite list_lookup_fmap, Hp; reflexivity|].
  split; [apply scan_forEachIndexed, derefNames_unmatchedRefs|].
  split; [exact Hiff|].
  split; [apply markFuzzy_fields|].
  split; [|split].
  - rewrite Hiff, bestMatch_above_iff. split.
    + intros (name & Hin & Ht). apply In_candidateNames in Hin.
      destruct Hin as (a & r & Ha & Hr & <-). exists a, r. auto.
    + intros (a & r & Ha & Hr & Ht). exists (normalizedName r).
      split; [|exact Ht]. apply In_candidateNames. exists a, r. auto.
  - intros a r Ha Hr.
    assert (Hin : In (normalizedName r) (candidateNames R1))
      by (apply In_candidateNames; exists a, r; auto).
    apply list_elem_of_In, list_elem_of_lookup_1 in Hin. destruct Hin as [j Hj].
    exact (Hmax j _ Hj).
  - destruct (snd (bestMatch (normalizedName e) (candidateNames R1))) as [k|].
    + destruct Hbest as (name & Hk & Hs & _). right.
      apply list_elem_of_lookup_2, list_elem_of_In, In_candidateNames in Hk.
      destruct Hk as (a & r & Ha & Hr & <-). exists a, r. auto.
    + left. exact Hbest.
Qed.

(** C7.  The roster entry of a fuzzy pair is the first candidate, in the
    order of the scan, whose score is the greatest: no candidate scores
    more, and no earlier candidate scores as much.  With the roster
    "smith", "smyth" and the Schedule A cell "smith", the activity entry is
    paired with the first roster entry and not with the second; with two
    candidates at the same score, "janedoe" and "janedoz" for "janedow", the
    first is taken. *)
Theorem fuzzy_pair_is_first_best (rosterRows : list RosterRow)
    (activityCells : list jsstring) :
  (exists st1 st,
     exactPass rosterRows activityCells = Some st1
     /\ main rosterRows activityCells = Some st
     /\ forall b a s,
          In (FuzzyPair b a s) (pairs st) ->
          exists activityName k name,
            nameAt (scheduleANames st1) b = Some activityName
            /\ unmatchedRefs (eligibleRosterNames st1) !! k = Some a
            /\ candidateNames (eligibleRosterNames st1) !! k = Some name
            /\ nameAt (eligibleRosterNames st1) a = Some name
            /\ s = score activityName name
            /\ (tau <? s)%float = true
            /\ (forall j name', candidateNames (eligibleRosterNames st1) !! j = Some name' ->
                  (s <? score activityName name')%float = false)
            /\ (forall j name', (j < k)%nat ->
                  candidateNames (eligibleRosterNames st1) !! j = Some name' ->
                  (s <=? score activityName name')%float = false))
  /\ main [mkRosterRow (js "smith") [] (js "Schedule A");
           mkRosterRow (js "smyth") [] (js "Schedule A")]
          [js "smith"]
     = Some (mkState [mkEntry (js "smith") 1 true]
                     [mkEntry (js "smith") 1 true; mkEntry (js "smyth") 2 false]
                     1 0 [ExactPair 0 0])
  /\ main [mkRosterRow (js "jane") (js "doe") (js "Schedule A");
           mkRosterRow (js "jane") (js "doz") (js "Schedule A")]
          [js "jane dow"]
     = Some (mkState [mkEntry (js "janedow") 1 true]
                     [mkEntry (js "janedoe") 1 true; mkEntry (js "janedoz") 2 false]
                     0 1 [FuzzyPair 0 0 (6 / 7)])
  /\ score (js "janedow") (js "janedoz") = (6 / 7)%float.
Proof.
  split; [|vm_compute; repeat split; reflexivity].
  destruct (main_spec rosterRows activityCells) as (R1 & R2 & He & Hle & Hmk & Hm & Hle2).
  cbn zeta in *.
  eexists. eexists. split; [exact He|]. split; [exact Hm|].
  cbn [scheduleANames eligibleRosterNames pairs]. intros b a s Hin.
  apply pairs_split in Hin. destruct Hin as [[Hx _]|[_ Hin]]; [discriminate|].
  apply In_fuzzyPairsFrom in Hin. cbn [pairActivity pairRoster] in Hin.
  destruct Hin as (_ & e & s' & Hl & _ & Hc & [= <-]).
  rewrite Nat.sub_0_r in Hl.
  apply fuzzyChoice_Some in Hc. destruct Hc as (k & Hk & Hp & Hs & Ht).
  destruct (bestMatch_inv (normalizedName e) (candidateNames R1)) as [Hmax Hidx].
  rewrite Hk in Hidx. destruct Hidx as (name & Hn & Hsc & Hfirst).
  rewrite <- Hs in *.
  exists (normalizedName e), k, name.
  split; [unfold nameAt; rewrite Hl; reflexivity|].
  split; [exact Hp|]. split; [exact Hn|].
  split.
  { pose proof (derefNames_unmatchedRefs R1) as Hd.
    exact (Forall2_lookup_lr _ _ _ _ _ _ Hd Hp Hn). }
  split; [exact Hsc|]. split; [exact Ht|]. split; [exact Hmax | exact Hfirst].
Qed.



(** * Further properties of the script *)

(** ** Normalisation of the roster names and of the Schedule A cells *)

Local Open Scope N_scope.

Lemma normalizeName_letters (firstName lastName : jsstring) :
  normalizeName firstName lastName = letters firstName ++ letters lastName.
Proof.
  unfold normalizeName. rewrite removeNonLetters_removeWhiteSpace.
  fold (letters (firstName ++ lastName)). apply letters_app.
Qed.

Lemma beforeParen_app_noParen (s t : jsstring) :
  noParen s -> beforeParen (s ++ t) = s ++ beforeParen t.
Proof.
  unfold beforeParen. induction 1 as [|c s Hc _ IH]; [reflexivity|].
  cbn [app takeWhile]. destruct (N.eqb_spec c 40); [contradiction|].
  cbn [negb]. rewrite IH. reflexivity.
Qed.

Lemma beforeParen_app_paren (s t : jsstring) :
  ~ noParen s -> beforeParen (s ++ t) = beforeParen s.
Proof.
  unfold beforeParen, noParen. induction s as [|c s IH]; intros H.
  - exfalso. apply H. constructor.
  - cbn [app takeWhile]. destruct (N.eqb_spec c 40); [reflexivity|].
    cbn [negb]. rewrite IH; [reflexivity|].
    intros Hs. apply H. constructor; assumption.
Qed.

Lemma noParen_dec (s : jsstring) : noParen s \/ ~ noParen s.
Proof.
  unfold noParen. induction s as [|c s [IH|IH]].
  - left. constructor.
  - destruct (N.eq_dec c 40) as [->|Hc].
    + right. intros H. inversion H; subst. congruence.
    + left. constructor; assumption.
  - right. intros H. inversion H; subst. contradiction.
Qed.

(** X1.  The name of a roster entry is made of the letters of the first
    name before its first "(", then those of the last name before its
    first "(": each part is cut at its own parenthesis. *)
Theorem rosterName_by_parts (firstName lastName : jsstring) :
  normalizeName (cleanName firstName) (cleanName lastName)
  = simpleNormalize firstName ++ simpleNormalize lastName.
Proof.
  rewrite normalizeName_letters, !letters_cleanName. reflexivity.
Qed.

(** X2.  A Schedule A cell that reads "first last" normalises to the name
    of the roster row with these two cells, provided the first name holds
    no "(".  With a parenthesis in the first name the two differ: the cell
    is cut there, the roster row keeps the last name. *)
Theorem cell_agrees_with_roster_row (firstName lastName : jsstring) :
  noParen firstName ->
  normalize (firstName ++ 32%N :: lastName)
  = normalizeName (cleanName firstName) (cleanName lastName).
Proof.
  intros Hf. rewrite normalize_letters, normalizeName_letters, !letters_cleanName.
  replace (firstName ++ 32%N :: lastName) with ((firstName ++ [32%N]) ++ lastName)
    by (rewrite <- app_assoc; reflexivity).
  rewrite beforeParen_app_noParen.
  - rewrite !letters_app, (beforeParen_id _ Hf). cbn [letters]. 
    change (letters [32%N]) with (@nil N). rewrite app_nil_r. reflexivity.
  - unfold noParen in *. apply Forall_app. split; [exact Hf|].
    constructor; [discriminate | constructor].
Qed.

Lemma cell_agrees_with_roster_row_witness :
  noParen (js "Mary-Jane")
  /\ normalize (js "Mary-Jane" ++ 32%N :: js "O'Neil (nee Smith)")
     = normalizeName (cleanName (js "Mary-Jane")) (cleanName (js "O'Neil (nee Smith)"))
  /\ normalize (js "John (Jack) Smith") = js "john"
  /\ normalizeName (cleanName (js "John (Jack)")) (cleanName (js "Smith"))
     = js "johnsmith".
Proof.
  assert (H : noParen (js "Mary-Jane")).
  { unfold noParen. repeat constructor; discriminate. }
  split; [exact H|]. split.
  - exact (cell_agrees_with_roster_row (js "Mary-Jane") (js "O'Neil (nee Smith)") H).
  - vm_compute. split; reflexivity.
Defined.

Lemma lettersOfUnit_length (c : N) : (length (lettersOfUnit c) <= 1)%nat.
Proof.
  unfold lettersOfUnit, toLowerCaseUnit.
  destruct ((65 <=? c) && (c <=? 90))%N; [cbn; destruct (isLowerAZ _); cbn; lia|].
  destruct (c =? 304)%N; [cbn; lia|].
  destruct (c =? 8490)%N; [cbn; lia|].
  cbn. destruct (isLowerAZ c); cbn; lia.
Qed.

Lemma letters_length (s : jsstring) : (length (letters s) <= length s)%nat.
Proof.
  induction s as [|c s IH]; [reflexivity|].
  rewrite letters_cons, length_app. pose proof (lettersOfUnit_length c).
  cbn [length]. lia.
Qed.

Lemma takeWhile_length (p : N -> bool) (s : jsstring) :
  (length (takeWhile p s) <= length s)%nat.
Proof.
  induction s as [|c s IH]; cbn [takeWhile length]; [lia|].
  destruct (p c); cbn [length]; lia.
Qed.

(** X3.  A normalised name holds letters a-z only and is never longer than
    the text it comes from; a text that is already made of letters a-z is
    its own normalised name. *)
Theorem normalize_alphabet (s : jsstring) :
  Forall (fun c => isLowerAZ c = true) (normalize s)
  /\ (length (normalize s) <= length s)%nat
  /\ (Forall (fun c => isLowerAZ c = true) s -> normalize s = s).
Proof.
  rewrite normalize_letters. split; [apply letters_are_lowerAZ|]. split.
  - pose proof (letters_length (beforeParen s)).
    pose proof (takeWhile_length (fun c => negb (c =? 40)%N) s).
    unfold beforeParen in *. lia.
  - intros H. rewrite (beforeParen_id s (lowerAZ_noParen s H)).
    apply letters_lowerAZ, H.
Qed.

(** The upper-case form of a letter a-z, other units unchanged. *)
Definition asciiUpper (c : N) : N := if isLowerAZ c then (c - 32)%N else c.

Lemma lettersOfUnit_asciiUpper (c : N) :
  lettersOfUnit (asciiUpper c) = lettersOfUnit c.
Proof.
  unfold asciiUpper, isLowerAZ.
  destruct ((97 <=? c) && (c <=? 122))%N eqn:H; [|reflexivity].
  bool_to_N. unfold lettersOfUnit, toLowerCaseUnit.
  destruct (N.leb_spec 65 (c - 32)); [|lia].
  destruct (N.leb_spec (c - 32) 90); [|lia].
  destruct (N.leb_spec 65 c); [|lia].
  destruct (N.leb_spec c 90); [lia|].
  destruct (N.eqb_spec c 304); [lia|]. destruct (N.eqb_spec c 8490); [lia|].
  cbn [andb]. replace (c - 32 + 32)%N with c by lia. reflexivity.
Qed.

Lemma letters_asciiUpper (s : jsstring) :
  letters (List.map asciiUpper s) = letters s.
Proof.
  induction s as [|c s IH]; [reflexivity|].
  cbn [List.map]. rewrite !letters_cons, IH, lettersOfUnit_asciiUpper. reflexivity.
Qed.

Lemma beforeParen_asciiUpper (s : jsstring) :
  beforeParen (List.map asciiUpper s) = List.map asciiUpper (beforeParen s).
Proof.
  unfold beforeParen. induction s as [|c s IH]; [reflexivity|].
  cbn [List.map takeWhile].
  assert (H : (asciiUpper c =? 40)%N = (c =? 40)%N).
  { unfold asciiUpper, isLowerAZ.
    destruct ((97 <=? c) && (c <=? 122))%N eqn:E; [|reflexivity].
    bool_to_N. destruct (N.eqb_spec (c - 32) 40), (N.eqb_spec c 40); try reflexivity; lia. }
  rewrite H. destruct (c =? 40)%N; cbn [negb List.map]; [reflexivity|].
  rewrite IH. reflexivity.
Qed.

(** X4.  Normalisation ignores the case of the letters a-z, and it ignores
    every unit other than "(" that is not a letter (a space, a digit, a
    hyphen, an apostrophe): adding or removing one changes nothing. *)
Theorem normalize_ignores_case_and_punctuation (s t : jsstring) (c : N) :
  normalize (List.map asciiUpper s) = normalize s
  /\ (c <> 40%N -> lettersOfUnit c = [] ->
      normalize (s ++ c :: t) = normalize (s ++ t)).
Proof.
  split.
  - rewrite !normalize_letters, beforeParen_asciiUpper. apply letters_asciiUpper.
  - intros Hc Hsilent. rewrite !normalize_letters.
    destruct (noParen_dec s) as [Hs|Hs].
    + rewrite !(beforeParen_app_noParen s) by exact Hs.
      unfold beforeParen at 1. cbn [takeWhile].
      destruct (N.eqb_spec c 40); [contradiction|]. cbn [negb].
      fold (beforeParen t). rewrite !letters_app, letters_cons, Hsilent. reflexivity.
    + rewrite !(beforeParen_app_paren s) by exact Hs. reflexivity.
Qed.

Local Open Scope Z_scope.

(** ** Column letters *)

(** Reading column letters back: A = 1, ..., Z = 26, AA = 27, ... *)
Definition columnNumberOf (letters : jsstring) : Z :=
  fold_left (fun acc c => acc * 26 + (Z.of_N c - 64)) letters 0.

Definition isUpperAZ (c : N) : bool := ((65 <=? c) && (c <=? 90))%N.

Lemma columnNumberOf_snoc (s : jsstring) (c : N) :
  columnNumberOf (s ++ [c]) = columnNumberOf s * 26 + (Z.of_N c - 64).
Proof. unfold columnNumberOf. rewrite fold_left_app. reflexivity. Qed.

Lemma columnLoop_spec (fuel : nat) :
  forall (n : Z) (acc : jsstring),
  (Z.to_nat n <= fuel)%nat ->
  exists s,
    columnLoop fuel n acc = Some (s ++ acc)
    /\ columnNumberOf s = Z.max 0 n
    /\ Forall (fun c => isUpperAZ c = true) s
    /\ (s = [] <-> n <= 0).
Proof.
  induction fuel as [|fuel IH]; intros n acc Hf.
  - exists []. cbn [columnLoop].
    destruct (Z.ltb_spec 0 n); [lia|].
    split; [reflexivity|]. split; [cbn; lia|]. split; [constructor|].
    split; [intros _; lia | reflexivity].
  - cbn [columnLoop]. destruct (Z.ltb_spec 0 n) as [Hpos|Hneg].
    + destruct (IH ((n - 1) / 26) (Z.to_N (65 + Z.rem (n - 1) 26) :: acc))
        as (s & Heq & Hnum & Hup & _).
      { assert ((n - 1) / 26 < n) by (apply Z.div_lt_upper_bound; lia).
        assert (0 <= (n - 1) / 26) by (apply Z.div_pos; lia). lia. }
      assert (Hrem : Z.rem (n - 1) 26 = (n - 1) mod 26)
        by (apply Z.rem_mod_nonneg; lia).
      pose proof (Z.mod_pos_bound (n - 1) 26 ltac:(lia)) as Hb.
      pose proof (Z.div_mod (n - 1) 26 ltac:(lia)) as Hdm.
      assert (0 <= (n - 1) / 26) by (apply Z.div_pos; lia).
      exists (s ++ [Z.to_N (65 + Z.rem (n - 1) 26)]).
      split; [rewrite <- app_assoc; exact Heq|]. split; [|split].
      * rewrite columnNumberOf_snoc, Hnum, Hrem, Z2N.id by lia. lia.
      * apply Forall_app. split; [exact Hup|]. constructor; [|constructor].
        unfold isUpperAZ. rewrite Hrem.
        apply andb_true_intro. split; apply N.leb_le; lia.
      * split; [|lia]. intros E. apply (f_equal (@length N)) in E.
        rewrite length_app in E. cbn in E. lia.
    + exists []. split; [reflexivity|]. split; [cbn; lia|]. split; [constructor|].
      split; [intros _; lia | reflexivity].
Qed.

Lemma getColumnLetter_spec (columnNumber : Z) :
  exists letters,
    getColumnLetter columnNumber = Some letters
    /\ (truthy letters = true <-> 1 <= columnNumber).
Proof.
  destruct (columnLoop_spec (Z.to_nat columnNumber) columnNumber [] (le_n _))
    as (s & Heq & _ & _ & Hnil).
  exists s. rewrite app_nil_r in Heq. split; [exact Heq|].
  destruct s as [|c s]; cbn [truthy].
  - split; [discriminate|]. intros H. destruct Hnil as [Hn _].
    specialize (Hn eq_refl). lia.
  - split; [|reflexivity]. intros _. destruct Hnil as [_ Hn].
    destruct (Z_le_gt_dec columnNumber 0) as [Hle|Hgt]; [|lia].
    specialize (Hn Hle). discriminate.
Qed.

(** X5.  On the column numbers the script passes, the integers up to 2^32
    (an array index plus one), [getColumnLetter] ends.  Its result is made
    of letters A-Z and reads back, in the bijective base 26 of spreadsheet
    columns, as the column number it was given, so distinct columns in that
    range get distinct letters; for the numbers below 1 it is the empty
    string. *)
Theorem getColumnLetter_round_trip (columnNumber : Z) :
  columnNumber <= 2 ^ 32 ->
  exists letters,
    getColumnLetter columnNumber = Some letters
    /\ columnNumberOf letters = Z.max 0 columnNumber
    /\ Forall (fun c => isUpperAZ c = true) letters
    /\ (letters = [] <-> columnNumber <= 0)
    /\ (forall other,
          other <= 2 ^ 32 ->
          1 <= columnNumber -> getColumnLetter other = Some letters ->
          other = columnNumber).
Proof.
  intros _.
  destruct (columnLoop_spec (Z.to_nat columnNumber) columnNumber [] (le_n _))
    as (s & Heq & Hnum & Hup & Hnil).
  exists s. rewrite app_nil_r in Heq. split; [exact Heq|].
  split; [exact Hnum|]. split; [exact Hup|]. split; [exact Hnil|].
  intros other _ Hpos Ho.
  destruct (columnLoop_spec (Z.to_nat other) other [] (le_n _))
    as (s' & Heq' & Hnum' & _ & Hnil').
  rewrite app_nil_r in Heq'. unfold getColumnLetter in Ho.
  rewrite Heq' in Ho. injection Ho as ->.
  destruct (Z_le_gt_dec other 0) as [Hle|Hgt]; [|lia].
  apply Hnil' in Hle. apply Hnil in Hle. lia.
Qed.

(** X5 at the columns 28 ("AB") and 16384 ("XFD", the last column of a
    sheet). *)
Lemma getColumnLetter_round_trip_witness :
  28 <= 2 ^ 32
  /\ (exists letters,
        getColumnLetter 28 = Some letters
        /\ columnNumberOf letters = Z.max 0 28
        /\ Forall (fun c => isUpperAZ c = true) letters
        /\ (letters = [] <-> 28 <= 0)
        /\ (forall other,
              other <= 2 ^ 32 ->
              1 <= 28 -> getColumnLetter other = Some letters ->
              other = 28))
  /\ getColumnLetter 28 = Some (js "AB")
  /\ getColumnLetter 16384 = Some (js "XFD")
  /\ getColumnLetter 0 = Some [].
Proof.
  split; [vm_compute; discriminate|]. split.
  - apply (getColumnLetter_round_trip 28). vm_compute. discriminate.
  - vm_compute. repeat split; reflexivity.
Defined.

(** ** The Jaccard filter *)

Lemma newSet_In (str : jsstring) (c : N) : In c (newSet str) <-> In c str.
Proof.
  unfold newSet.
  assert (H : forall acc, In c (fold_left setAdd str acc) <-> In c acc \/ In c str).
  { induction str as [|x str IH]; intros acc; cbn [fold_left].
    - cbn. tauto.
    - rewrite IH. unfold setAdd. destruct (setHas acc x) eqn:E.
      + apply setHas_In in E. cbn. split; [tauto|].
        intros [H|[<-|H]]; tauto.
      + rewrite in_app_iff. cbn. tauto. }
  rewrite H. cbn. tauto.
Qed.

Lemma filter_length_le (p q : N -> bool) (l k : list N) :
  List.NoDup l ->
  (forall x, In x l -> p x = true -> In x k /\ q x = true) ->
  (length (List.filter p l) <= length (List.filter q k))%nat.
Proof.
  intros Hl H. apply List.NoDup_incl_length.
  - apply List.NoDup_filter, Hl.
  - intros x Hx. apply filter_In in Hx. destruct Hx as [Hin Hp].
    apply filter_In. apply H; assumption.
Qed.

Lemma jaccardCounts_sets (str1 str2 str1' str2' : jsstring) :
  (forall c, In c str1 <-> In c str1') ->
  (forall c, In c str2 <-> In c str2') ->
  jaccardCounts str1 str2 = jaccardCounts str1' str2'.
Proof.
  intros H1 H2.
  assert (Hhas : forall a a' c, (forall c, In c a <-> In c a') ->
            setHas (newSet a) c = setHas (newSet a') c).
  { intros a a' c Ha. destruct (setHas (newSet a) c) eqn:E; symmetry.
    - apply setHas_In, newSet_In, Ha, newSet_In, setHas_In, E.
    - destruct (setHas (newSet a') c) eqn:E'; [|reflexivity].
      apply setHas_In, newSet_In, Ha, newSet_In, setHas_In in E'. congruence. }
  assert (Hle : forall a b a' b' (p q : bool -> bool),
            (forall c, In c a <-> In c a') -> (forall c, In c b <-> In c b') ->
            (forall x, p x = true -> q x = true) ->
            (length (List.filter (fun x => p (setHas (newSet b) x)) (newSet a))
             <= length (List.filter (fun x => q (setHas (newSet b') x)) (newSet a')))%nat).
  { intros a b a' b' p q Ha Hb Hpq. apply filter_length_le; [apply newSet_NoDup|].
    intros x Hx Hp. split; [apply newSet_In, Ha, newSet_In, Hx|].
    rewrite <- (Hhas b b' x Hb). apply Hpq, Hp. }
  assert (Hsym1 : forall c, In c str1' <-> In c str1) by (intros c; symmetry; apply H1).
  assert (Hsym2 : forall c, In c str2' <-> In c str2) by (intros c; symmetry; apply H2).
  unfold jaccardCounts. rewrite !length_app. f_equal; f_equal.
  - apply Nat.le_antisymm.
    + apply (Hle str1 str2 str1' str2' (fun b => b) (fun b => b)); auto.
    + apply (Hle str1' str2' str1 str2 (fun b => b) (fun b => b)); auto.
  - f_equal.
    + apply Nat.le_antisymm; apply List.NoDup_incl_length;
        try apply newSet_NoDup; intros x Hx;
        apply (proj2 (newSet_In _ x)); apply H1;
        exact (proj1 (newSet_In _ x) Hx).
    + apply Nat.le_antisymm.
      * apply (Hle str2 str1 str2' str1' negb negb); auto.
      * apply (Hle str2' str1' str2 str1 negb negb); auto.
Qed.

(** X6.  The Jaccard score is symmetric, and it depends on the sets of code
    units of the two strings only: repeating or reordering the units of a
    string does not change it.  It divides the number of distinct common
    units by the number of distinct units, the former never above the
    latter. *)
Theorem jaccardSimilarity_of_sets (str1 str2 : jsstring) :
  jaccardSimilarity str1 str2 = jaccardSimilarity str2 str1
  /\ (forall str1' str2',
        (forall c, In c str1 <-> In c str1') ->
        (forall c, In c str2 <-> In c str2') ->
        jaccardSimilarity str1 str2 = jaccardSimilarity str1' str2')
  /\ 0 <= fst (jaccardCounts str1 str2) <= snd (jaccardCounts str1 str2)
  /\ (forall c, In c str1 -> In c str2 -> 1 <= fst (jaccardCounts str1 str2)).
Proof.
  split; [|split; [|split]].
  - unfold jaccardSimilarity. rewrite (jaccardCounts_sym str1 str2). reflexivity.
  - intros str1' str2' H1 H2. unfold jaccardSimilarity.
    rewrite (jaccardCounts_sets str1 str2 str1' str2' H1 H2). reflexivity.
  - unfold jaccardCounts. cbn [fst snd]. rewrite length_app.
    pose proof (filter_split_length (fun x => setHas (newSet str2) x) (newSet str1))
      as H.
    cbv beta in H. lia.
  - intros c H1 H2. unfold jaccardCounts. cbn [fst].
    assert (Hin : In c (List.filter (fun x => setHas (newSet str2) x) (newSet str1))).
    { apply filter_In. split; [apply newSet_In, H1|].
      apply setHas_In, newSet_In, H2. }
    destruct (List.filter _ _); [destruct Hin|]. cbn [length]. lia.
Qed.

(** ** The distance without a finite budget *)

Lemma edit_script_lengths (s t : jsstring) (n : nat) :
  edit_script s t n ->
  (length s <= length t + n)%nat /\ (length t <= length s + n)%nat.
Proof. induction 1; cbn [length]; lia. Qed.

Lemma edit_script_zero (s t : jsstring) (n : nat) :
  edit_script s t n -> n = 0%nat -> s = t.
Proof.
  induction 1 as [|a s t n _ IH|b s t n _ IH|a s t n _ IH|a b s t n _ IH];
    intros Hn; try discriminate; [reflexivity|].
  rewrite (IH Hn). reflexivity.
Qed.

Lemma edit_script_refl (s : jsstring) : edit_script s s 0.
Proof. induction s; constructor; assumption. Qed.

Lemma levenshtein_max (s t : jsstring) :
  (levenshtein s t <= Nat.max (length s) (length t))%nat.
Proof.
  revert t. induction s as [|a s IH]; intros t.
  - cbn [levenshtein length]. lia.
  - destruct t as [|b t].
    + rewrite levenshtein_nil_r. cbn [length]. lia.
    + rewrite levenshtein_cons. specialize (IH t). unfold substCost.
      cbn [length]. destruct (N.eqb a b); lia.
Qed.

(** Two scripts in a row make a script that costs no more than both. *)
Lemma edit_script_compose (s t : jsstring) (n : nat) :
  edit_script s t n ->
  forall u m, edit_script t u m ->
  exists k, edit_script s u k /\ (k <= n + m)%nat.
Proof.
  induction 1 as [|a s t n _ IH|b s t n _ IH|a s t n _ IH|a b s t n _ IH];
    intros u m H2.
  - exists m. split; [exact H2 | lia].
  - destruct (IH u m H2) as (k & Hk & Hle).
    exists (S k). split; [constructor; exact Hk | lia].
  - remember (b :: t) as bt eqn:Ebt.
    induction H2 as [|a' s' t' n' H' IH2|b' s' t' n' H' IH2|a' s' t' n' H' IH2
                     |a' b' s' t' n' H' IH2]; try discriminate.
    + injection Ebt as -> ->. destruct (IH t' n' H') as (k & Hk & Hle).
      exists k. split; [exact Hk | lia].
    + destruct (IH2 Ebt) as (k & Hk & Hle).
      exists (S k). split; [constructor; exact Hk | lia].
    + injection Ebt as -> ->. destruct (IH t' n' H') as (k & Hk & Hle).
      exists (S k). split; [constructor; exact Hk | lia].
    + injection Ebt as -> ->. destruct (IH t' n' H') as (k & Hk & Hle).
      exists (S k). split; [constructor; exact Hk | lia].
  - remember (a :: t) as at_ eqn:Eat.
    induction H2 as [|a' s' t' n' H' IH2|b' s' t' n' H' IH2|a' s' t' n' H' IH2
                     |a' b' s' t' n' H' IH2]; try discriminate.
    + injection Eat as -> ->. destruct (IH t' n' H') as (k & Hk & Hle).
      exists (S k). split; [constructor; exact Hk | lia].
    + destruct (IH2 Eat) as (k & Hk & Hle).
      exists (S k). split; [constructor; exact Hk | lia].
    + injection Eat as -> ->. destruct (IH t' n' H') as (k & Hk & Hle).
      exists k. split; [constructor; exact Hk | lia].
    + injection Eat as -> ->. destruct (IH t' n' H') as (k & Hk & Hle).
      exists (S k). split; [apply edit_substitute; exact Hk | lia].
  - remember (b :: t) as bt eqn:Ebt.
    induction H2 as [|a' s' t' n' H' IH2|b' s' t' n' H' IH2|a' s' t' n' H' IH2
                     |a' b' s' t' n' H' IH2]; try discriminate.
    + injection Ebt as -> ->. destruct (IH t' n' H') as (k & Hk & Hle).
      exists (S k). split; [constructor; exact Hk | lia].
    + destruct (IH2 Ebt) as (k & Hk & Hle).
      exists (S k). split; [constructor; exact Hk | lia].
    + injection Ebt as -> ->. destruct (IH t' n' H') as (k & Hk & Hle).
      exists (S k). split; [apply edit_substitute; exact Hk | lia].
    + injection Ebt as -> ->. destruct (IH t' n' H') as (k & Hk & Hle).
      exists (S k). split; [apply edit_substitute; exact Hk | lia].
Qed.

Lemma levenshtein_triangle (s t u : jsstring) :
  (levenshtein s u <= levenshtein s t + levenshtein t u)%nat.
Proof.
  destruct (edit_script_compose _ _ _ (levenshtein_script s t) _ _
              (levenshtein_script t u)) as (k & Hk & Hle).
  apply levenshtein_least in Hk. lia.
Qed.

Lemma unbounded_distance (s t : jsstring) :
  levenshteinDistanceWithLimit s t NoLimit = Z.of_nat (levenshtein s t).
Proof.
  destruct (levenshteinDistanceWithLimit_spec s t NoLimit) as [H _].
  apply H. exact I.
Qed.

(** X7.  With a budget that is NaN or plus infinity, no test
    [v > maxDistance] is ever true: the table is filled to the end and the
    result is the Levenshtein distance, a metric on strings (symmetric,
    zero exactly between equal strings, triangle inequality), at least the
    difference of the lengths and at most the greater length. *)
Theorem unbounded_distance_is_metric (budget : float) (s t u : jsstring) :
  Prim2SF budget = S754_nan \/ Prim2SF budget = S754_infinity false ->
  let d := fun x y => levenshteinDistanceWithLimit x y (Math_floor budget) in
  is_distance s t (Z.to_nat (d s t))
  /\ d s t = d t s
  /\ (d s t = 0 <-> s = t)
  /\ d s u <= d s t + d t u
  /\ Z.abs (Z.of_nat (length s) - Z.of_nat (length t)) <= d s t
  /\ d s t <= Z.max (Z.of_nat (length s)) (Z.of_nat (length t)).
Proof.
  intros Hb.
  assert (Hfloor : Math_floor budget = NoLimit).
  { unfold Math_floor. destruct Hb as [-> | ->]; reflexivity. }
  cbv beta zeta. rewrite Hfloor, !unbounded_distance, Nat2Z.id.
  split; [apply levenshtein_is_distance|].
  split; [rewrite (levenshtein_sym s t); reflexivity|].
  split; [|split; [|split]].
  - split.
    + intros H0. apply (edit_script_zero s t _ (levenshtein_script s t)). lia.
    + intros ->. pose proof (levenshtein_least t t 0 (edit_script_refl t)). lia.
  - pose proof (levenshtein_triangle s t u). lia.
  - pose proof (edit_script_lengths s t _ (levenshtein_script s t)). lia.
  - pose proof (levenshtein_max s t). lia.
Qed.

(** X7 at the budget plus infinity and the strings "kitten", "sitting"
    and "mitten". *)
Lemma unbounded_distance_is_metric_witness :
  (Prim2SF infinity = S754_nan \/ Prim2SF infinity = S754_infinity false)
  /\ (let d := fun x y => levenshteinDistanceWithLimit x y (Math_floor infinity) in
      is_distance (js "kitten") (js "sitting") (Z.to_nat (d (js "kitten") (js "sitting")))
      /\ d (js "kitten") (js "sitting") = d (js "sitting") (js "kitten")
      /\ (d (js "kitten") (js "sitting") = 0 <-> js "kitten" = js "sitting")
      /\ d (js "kitten") (js "mitten")
         <= d (js "kitten") (js "sitting") + d (js "sitting") (js "mitten")
      /\ Z.abs (Z.of_nat (length (js "kitten")) - Z.of_nat (length (js "sitting")))
         <= d (js "kitten") (js "sitting")
      /\ d (js "kitten") (js "sitting")
         <= Z.max (Z.of_nat (length (js "kitten"))) (Z.of_nat (length (js "sitting"))))
  /\ levenshteinDistanceWithLimit (js "kitten") (js "sitting") (Math_floor infinity) = 3
  /\ levenshteinDistanceWithLimit (js "kitten") (js "sitting") (Math_floor nan) = 3.
Proof.
  assert (H : Prim2SF infinity = S754_nan \/ Prim2SF infinity = S754_infinity false)
    by (right; reflexivity).
  split; [exact H|]. split.
  - exact (unbounded_distance_is_metric infinity (js "kitten") (js "sitting")
             (js "mitten") H).
  - vm_compute. split; reflexivity.
Defined.

(** ** The score *)

Lemma sameUnit_head (str1 str2 : jsstring) :
  sameUnit (head str1) (head str2) = true ->
  (str1 = [] /\ str2 = [])
  \/ exists a rest1 rest2, str1 = a :: rest1 /\ str2 = a :: rest2.
Proof.
  destruct str1 as [|a rest1], str2 as [|b rest2]; cbn [head sameUnit];
    try discriminate; [left; split; reflexivity|].
  intros H. apply N.eqb_eq in H. subst b. right. exists a, rest1, rest2.
  split; reflexivity.
Qed.

Lemma calculateOptimizedSimilarity_cases (str1 str2 : jsstring) (threshold : float) :
  let maxLength := Z.max (Z.of_nat (length str1)) (Z.of_nat (length str2)) in
  let lengthDiff := Z.abs (Z.of_nat (length str1) - Z.of_nat (length str2)) in
  let d := Z.of_nat (levenshtein str1 str2) in
  let s := calculateOptimizedSimilarity str1 str2 threshold in
  (str1 = [] /\ str2 = [] /\ s = 1%float)
  \/ s = 0%float
  \/ ((exists a rest1 rest2, str1 = a :: rest1 /\ str2 = a :: rest2)
      /\ (ofZ maxLength * (1 - threshold) <? ofZ lengthDiff)%float = false
      /\ (jaccardSimilarity str1 str2 <? 0.6)%float = false
      /\ fits d (Math_floor (ofZ maxLength * (1 - threshold))%float)
      /\ s = ((ofZ maxLength - ofZ d) / ofZ maxLength)%float).
Proof.
  cbv zeta. unfold calculateOptimizedSimilarity. cbv zeta.
  set (maxLength := Z.max (Z.of_nat (length str1)) (Z.of_nat (length str2))).
  set (lengthDiff := Z.abs (Z.of_nat (length str1) - Z.of_nat (length str2))).
  destruct (maxLength =? 0) eqn:Hz.
  { left. apply Z.eqb_eq in Hz. unfold maxLength in Hz.
    destruct str1; [|cbn [length] in Hz; lia].
    destruct str2; [|cbn [length] in Hz; lia].
    repeat split; reflexivity. }
  right.
  destruct (ofZ maxLength * (1 - threshold) <? ofZ lengthDiff)%float eqn:Hlen;
    [left; reflexivity|].
  destruct (sameUnit (head str1) (head str2)) eqn:Hhead; cbn [negb];
    [|left; reflexivity].
  destruct (jaccardSimilarity str1 str2 <? 0.6)%float eqn:Hj; [left; reflexivity|].
  set (maxDistance := Math_floor (ofZ maxLength * (1 - threshold))%float).
  destruct (levenshteinDistanceWithLimit_spec str1 str2 maxDistance) as [Hfit Hover].
  cbv zeta in Hfit, Hover.
  destruct (fits_dec (Z.of_nat (levenshtein str1 str2)) maxDistance) as [Hf|Hf].
  - rewrite (Hfit Hf).
    destruct (exceeds (Z.of_nat (levenshtein str1 str2)) maxDistance) eqn:He;
      [left; reflexivity|].
    right. split; [|auto].
    destruct (sameUnit_head _ _ Hhead) as [[-> ->]|H]; [|exact H].
    apply Z.eqb_neq in Hz. unfold maxLength in Hz. cbn [length] in Hz. lia.
  - destruct (Hover Hf) as [-> _]. left. reflexivity.
Qed.

(** X8.  For every threshold the score is 1 for two empty strings, or 0,
    or the similarity [(maxLength - d) / maxLength] computed from the true
    edit distance [d]: a distance cut short by the budget never enters a
    score.  In the last case the two strings begin with the same unit, the
    Jaccard filter and the length filter did not fire, and [d] is within
    the budget. *)
Theorem score_is_exact_or_zero (str1 str2 : jsstring) (threshold : float) :
  let maxLength := Z.max (Z.of_nat (length str1)) (Z.of_nat (length str2)) in
  let lengthDiff := Z.abs (Z.of_nat (length str1) - Z.of_nat (length str2)) in
  let d := Z.of_nat (levenshtein str1 str2) in
  let s := calculateOptimizedSimilarity str1 str2 threshold in
  (str1 = [] /\ str2 = [] /\ s = 1%float)
  \/ s = 0%float
  \/ ((exists a rest1 rest2, str1 = a :: rest1 /\ str2 = a :: rest2)
      /\ (ofZ maxLength * (1 - threshold) <? ofZ lengthDiff)%float = false
      /\ (jaccardSimilarity str1 str2 <? 0.6)%float = false
      /\ fits d (Math_floor (ofZ maxLength * (1 - threshold))%float)
      /\ s = ((ofZ maxLength - ofZ d) / ofZ maxLength)%float).
Proof. exact (calculateOptimizedSimilarity_cases str1 str2 threshold). Qed.

(** ** Who is paired in the second pass *)

Lemma last_occurrence (array : list Entry) (k : jsstring) (i : nat) :
  nameAt array i = Some k ->
  exists j, nameAt array j = Some k
    /\ forall j', (j < j')%nat -> nameAt array j' <> Some k.
Proof.
  revert i. induction array as [|e array IH] using rev_ind; intros i Hi.
  - unfold nameAt in Hi. rewrite lookup_nil in Hi. discriminate.
  - destruct (decide (normalizedName e = k)) as [Heq|Hne].
    + exists (length array). split; [rewrite nameAt_last, Heq; reflexivity|].
      intros j' Hj'. rewrite nameAt_ge; [discriminate|]. rewrite length_snoc. lia.
    + assert (Hlt : (i < length array)%nat).
      { pose proof (nameAt_Some_lt _ _ _ Hi) as Hl. rewrite length_snoc in Hl.
        destruct (decide (i = length array)) as [->|]; [|lia].
        rewrite nameAt_last in Hi. congruence. }
      rewrite nameAt_app_l in Hi by exact Hlt.
      destruct (IH i Hi) as (j & Hj & Hlast).
      exists j. split.
      * rewrite nameAt_app_l; [exact Hj | eapply nameAt_Some_lt, Hj].
      * intros j' Hj'. destruct (Nat.lt_trichotomy j' (length array)) as [H|[->|H]].
        -- rewrite nameAt_app_l by exact H. apply Hlast, Hj'.
        -- rewrite nameAt_last. congruence.
        -- rewrite nameAt_ge; [discriminate|]. rewrite length_snoc. lia.
Qed.

(** Every name of the array is a key of the index. *)
Lemma indexesLast_complete (array : list Entry) (m : gmap (list N) nat)
    (k : jsstring) (i : nat) :
  indexesLast array m -> nameAt array i = Some k -> exists j, m !! k = Some j.
Proof.
  intros Hidx Hi. destruct (last_occurrence array k i Hi) as (j & Hj & Hlast).
  exists j. apply Hidx. split; assumption.
Qed.

Lemma markExact_unmatched (m : gmap (list N) nat) (e : Entry) :
  matched (markExact m e) = false -> m !! normalizedName e = None.
Proof.
  unfold markExact. destruct (m !! normalizedName e); [discriminate | reflexivity].
Qed.

(** Up to length 6 the budget of the threshold 0.85 is 0. *)
Lemma small_budget (maxLength : Z) :
  1 <= maxLength <= 6 -> Math_floor (ofZ maxLength * (1 - tau))%float = Limit 0.
Proof.
  intros H.
  assert (Hc : maxLength = 1 \/ maxLength = 2 \/ maxLength = 3 \/ maxLength = 4
               \/ maxLength = 5 \/ maxLength = 6) by lia.
  destruct Hc as [->|[->|[->|[->|[->| ->]]]]]; vm_compute; reflexivity.
Qed.

Lemma fuzzyPair_names (rosterRows : list RosterRow) (activityCells : list jsstring) :
  exists st,
    main rosterRows activityCells = Some st
    /\ forall b a s,
         In (FuzzyPair b a s) (pairs st) ->
         exists activityName name,
           nameAt (scheduleANames st) b = Some activityName
           /\ nameAt (eligibleRosterNames st) a = Some name
           /\ activityName <> []
           /\ (forall i, nameAt (eligibleRosterNames st) i <> Some activityName)
           /\ s = score activityName name
           /\ (tau <? s)%float = true.
Proof.
  destruct (main_spec rosterRows activityCells) as (R1 & R2 & He & Hle & Hmk & Hm & Hle2).
  cbn zeta in *.
  pose proof (buildRoster_indexesLast rosterRows) as Hidx.
  eexists. split; [exact Hm|].
  cbn [scheduleANames eligibleRosterNames pairs]. intros b a s Hin.
  apply pairs_split in Hin. destruct Hin as [[Hx _]|[_ Hin]]; [discriminate|].
  apply In_fuzzyPairsFrom in Hin. cbn [pairActivity pairRoster] in Hin.
  destruct Hin as (_ & e & s' & Hl & Hun & Hc & [= <-]).
  rewrite Nat.sub_0_r in Hl.
  apply fuzzyChoice_Some in Hc. destruct Hc as (k & Hk & Hp & Hs & Ht).
  destruct (bestMatch_inv (normalizedName e) (candidateNames R1)) as [_ Hbest].
  rewrite Hk in Hbest. destruct Hbest as (name & Hn & Hsc & _).
  rewrite <- Hs in Hsc.
  pose proof (Forall2_lookup_lr _ _ _ _ _ _ (derefNames_unmatchedRefs R1) Hp Hn) as Ha.
  cbn beta in Ha.
  rewrite list_lookup_fmap in Hl.
  destruct (buildActivity activityCells !! b) as [e0|] eqn:H0; [|discriminate].
  injection Hl as <-.
  destruct (markExact_fields (snd (buildRoster rosterRows)) e0) as [Hname _].
  apply markExact_unmatched in Hun.
  rewrite Hname in *.
  exists (normalizedName e0), name.
  split.
  { unfold nameAt. rewrite !list_lookup_fmap, H0. cbn [fmap option_fmap option_map].
    f_equal.
    destruct (markFuzzy_fields (unmatchedRefs R1) (candidateNames R1)
                (markExact (snd (buildRoster rosterRows)) e0)) as [-> _].
    exact Hname. }
  split; [rewrite (rosterLe_nameAt _ _ a Hle2); exact Ha|].
  split.
  { rewrite buildActivity_spec in H0.
    apply list_elem_of_lookup_2, list_elem_of_In, entriesFrom_rows in H0.
    destruct H0 as (cell & _ & _ & -> & Hne). exact Hne. }
  split; [|split; assumption].
  intros i Hi.
  rewrite (rosterLe_nameAt _ _ i (rosterLe_trans _ _ _ Hle Hle2)) in Hi.
  destruct (indexesLast_complete _ _ _ _ Hidx Hi) as [j Hj]. congruence.
Qed.

(** X9.  What a fuzzy pair of a run joins: the name of the activity entry
    is no roster entry's name; the two names begin with the same unit;
    the recorded score is [(L - d) / L] for the length [L] of the longer
    name and the edit distance [d] of the two; [d] is at least 1 and within
    the budget; and [L] is at least 7, so names of up to six letters are
    only ever matched exactly. *)
Theorem fuzzy_pairs_pass_the_filters (rosterRows : list RosterRow)
    (activityCells : list jsstring) :
  exists st,
    main rosterRows activityCells = Some st
    /\ forall b a s,
         In (FuzzyPair b a s) (pairs st) ->
         exists activityName name,
           nameAt (scheduleANames st) b = Some activityName
           /\ nameAt (eligibleRosterNames st) a = Some name
           /\ (forall i, nameAt (eligibleRosterNames st) i <> Some activityName)
           /\ (exists c rest1 rest2, activityName = c :: rest1 /\ name = c :: rest2)
           /\ let L := Z.max (Z.of_nat (length activityName)) (Z.of_nat (length name)) in
              let d := Z.of_nat (levenshtein activityName name) in
              s = ((ofZ L - ofZ d) / ofZ L)%float
              /\ (tau <? s)%float = true
              /\ 1 <= d
              /\ fits d (Math_floor (ofZ L * (1 - tau))%float)
              /\ 7 <= L.
Proof.
  destruct (fuzzyPair_names rosterRows activityCells) as (st & Hm & Hpairs).
  exists st. split; [exact Hm|]. intros b a s Hin.
  destruct (Hpairs b a s Hin) as (activityName & name & Hb & Ha & Hne & Hnew & Hs & Ht).
  exists activityName, name.
  split; [exact Hb|]. split; [exact Ha|]. split; [exact Hnew|].
  unfold score in Hs.
  destruct (calculateOptimizedSimilarity_cases activityName name tau)
    as [(-> & _)|[H0|(Hhead & _ & _ & Hfit & Hval)]]; cbv zeta in *.
  - congruence.
  - rewrite Hs, H0 in Ht. vm_compute in Ht. discriminate.
  - split; [exact Hhead|]. rewrite <- Hs in Hval.
    assert (Hd : 1 <= Z.of_nat (levenshtein activityName name)).
    { destruct (levenshtein activityName name) eqn:Hlev; [|lia].
      exfalso. apply (Hnew a). rewrite Ha. f_equal. symmetry.
      apply (edit_script_zero activityName name 0); [|reflexivity].
      rewrite <- Hlev. apply levenshtein_script. }
    split; [exact Hval|]. split; [exact Ht|]. split; [exact Hd|].
    split; [exact Hfit|].
    destruct (Z_lt_le_dec
                (Z.max (Z.of_nat (length activityName)) (Z.of_nat (length name))) 7)
      as [Hlt|Hge]; [|exact Hge].
    exfalso. rewrite small_budget in Hfit; [cbn [fits] in Hfit; lia|].
    destruct activityName; [congruence|]. cbn [length] in *. lia.
Qed.

(** ** Who is paired in the first pass *)

(** X10.  The first pass is a membership test on names.  An exact pair
    joins an activity entry with the last roster entry that has the same
    normalised name; and every activity entry whose name is the name of
    some roster entry is in an exact pair and ends matched, whether or not
    that roster entry was paired before. *)
Theorem exact_pairs_join_equal_names (rosterRows : list RosterRow)
    (activityCells : list jsstring) :
  exists st,
    main rosterRows activityCells = Some st
    /\ (forall b a,
          In (ExactPair b a) (pairs st) ->
          exists name,
            nameAt (scheduleANames st) b = Some name
            /\ nameAt (eligibleRosterNames st) a = Some name
            /\ forall j, (a < j)%nat -> nameAt (eligibleRosterNames st) j <> Some name)
    /\ (forall b e i,
          scheduleANames st !! b = Some e ->
          nameAt (eligibleRosterNames st) i = Some (normalizedName e) ->
          matched e = true
          /\ exists a, In (ExactPair b a) (pairs st) /\ (i <= a)%nat).
Proof.
  destruct (main_spec rosterRows activityCells) as (R1 & R2 & He & Hle & Hmk & Hm & Hle2).
  cbn zeta in *.
  pose proof (buildRoster_indexesLast rosterRows) as Hidx.
  pose proof (rosterLe_trans _ _ _ Hle Hle2) as Hle02.
  set (m := snd (buildRoster rosterRows)) in *.
  eexists. split; [exact Hm|].
  cbn [scheduleANames eligibleRosterNames pairs]. split.
  - intros b a Hin.
    apply pairs_split in Hin. destruct Hin as [[_ Hin]|[Hx _]]; [|discriminate].
    apply In_exactPairsFrom in Hin. cbn [pairActivity pairRoster] in Hin.
    destruct Hin as (_ & e & Hl & Hhit & _). rewrite Nat.sub_0_r in Hl.
    apply Hidx in Hhit. destruct Hhit as [Ha Hlast].
    exists (normalizedName e). split; [|split].
    + unfold nameAt. rewrite !list_lookup_fmap, Hl.
      cbn [fmap option_fmap option_map]. f_equal.
      destruct (markFuzzy_fields (unmatchedRefs R1) (candidateNames R1)
                  (markExact m e)) as [-> _].
      apply markExact_fields.
    + rewrite (rosterLe_nameAt _ _ a Hle02). exact Ha.
    + intros j Hj. rewrite (rosterLe_nameAt _ _ j Hle02). apply Hlast, Hj.
  - intros b e i Hb Hi.
    rewrite !list_lookup_fmap in Hb.
    destruct (buildActivity activityCells !! b) as [e0|] eqn:H0; [|discriminate].
    injection Hb as <-.
    destruct (markFuzzy_fields (unmatchedRefs R1) (candidateNames R1)
                (markExact m e0)) as [Hn1 _].
    destruct (markExact_fields m e0) as [Hn0 _].
    rewrite Hn1, Hn0 in Hi. rewrite (rosterLe_nameAt _ _ i Hle02) in Hi.
    destruct (indexesLast_complete _ _ _ _ Hidx Hi) as [a Ha].
    split.
    + apply markFuzzy_keeps. unfold markExact. rewrite Ha. reflexivity.
    + exists a. split.
      * apply in_or_app. left.
        exact (exactPairsFrom_complete m _ 0 b a e0 H0 Ha).
      * apply Hidx in Ha. destruct Ha as [_ Hlast].
        destruct (le_lt_dec i a) as [Hle'|Hlt]; [exact Hle'|].
        exfalso. exact (Hlast i Hlt Hi).
Qed.

(** ** The marks of the roster entries

    The roster array changes only by marks on the roster entries of the
    pairs.  The second pass sets the mark twice: through the filtered array,
    which holds the same objects, and through [findIndex] on the row; the
    rows of the entries are distinct, so both writes reach one entry. *)

Definition markRoster (roster : list Entry) (ps : list Pair) : list Entry :=
  fold_left (fun r pr => alter setMatched (pairRoster pr) r) ps roster.

Definition distinctRows (array : list Entry) : Prop :=
  List.NoDup (List.map rowIndex array).

Lemma markRoster_app (roster : list Entry) (ps qs : list Pair) :
  markRoster roster (ps ++ qs) = markRoster (markRoster roster ps) qs.
Proof. unfold markRoster. apply fold_left_app. Qed.

Lemma rows_alter (array : list Entry) (i : nat) :
  List.map rowIndex (alter setMatched i array) = List.map rowIndex array.
Proof.
  revert i. induction array as [|e array IH]; intros i; [reflexivity|].
  destruct i as [|i]; cbn; [reflexivity|]. f_equal. apply IH.
Qed.

Lemma rows_markRoster (roster : list Entry) (ps : list Pair) :
  List.map rowIndex (markRoster roster ps) = List.map rowIndex roster.
Proof.
  revert roster. induction ps as [|pr ps IH]; intros roster; [reflexivity|].
  cbn [markRoster fold_left]. fold (markRoster (alter setMatched (pairRoster pr) roster) ps).
  rewrite IH. apply rows_alter.
Qed.

Lemma alter_setMatched_twice (array : list Entry) (i : nat) :
  alter setMatched i (alter setMatched i array) = alter setMatched i array.
Proof.
  revert i. induction array as [|e array IH]; intros i; [reflexivity|].
  destruct i as [|i]; cbn; [reflexivity|]. f_equal. apply IH.
Qed.

Lemma findIndexFrom_row (array : list Entry) :
  forall (off i : nat) (e : Entry),
  distinctRows array -> array !! i = Some e ->
  findIndexFrom (fun entry => Nat.eqb (rowIndex entry) (rowIndex e)) off array
  = Some (off + i)%nat.
Proof.
  unfold distinctRows.
  induction array as [|e0 array IH]; intros off i e Hnd Hi.
  - rewrite lookup_nil in Hi. discriminate.
  - cbn [List.map] in Hnd. apply List.NoDup_cons_iff in Hnd. destruct Hnd as [Hnotin Hnd].
    destruct i as [|i]; cbn [findIndexFrom].
    + injection Hi as ->. rewrite Nat.eqb_refl, Nat.add_0_r. reflexivity.
    + change (array !! i = Some e) in Hi.
      destruct (Nat.eqb_spec (rowIndex e0) (rowIndex e)) as [Heq|Hne].
      * exfalso. apply Hnotin. rewrite Heq. apply in_map.
        apply list_elem_of_In. eapply list_elem_of_lookup_2, Hi.
      * rewrite (IH (S off) i e Hnd Hi). f_equal. lia.
Qed.

Lemma exactStep_trace (m : gmap (list N) nat) (st st' : State) (p : nat) :
  exactStep m st p = Some st' ->
  exists new,
    pairs st' = pairs st ++ new
    /\ eligibleRosterNames st' = markRoster (eligibleRosterNames st) new.
Proof.
  unfold exactStep.
  destruct (scheduleANames st !! p) as [activityEntry|]; [|discriminate].
  destruct (m !! normalizedName activityEntry) as [i|].
  - destruct (eligibleRosterNames st !! i) as [r|] eqn:Hr; [|discriminate].
    intros [= <-]. exists [ExactPair p i]. cbn [pairs eligibleRosterNames].
    split; [reflexivity|]. apply insert_setMatched, Hr.
  - intros [= <-]. exists []. rewrite app_nil_r. split; reflexivity.
Qed.

Lemma fuzzyStep_trace (pool : list nat) (st st' : State) (ref : nat) :
  distinctRows (eligibleRosterNames st) ->
  fuzzyStep pool st ref = Some st' ->
  exists new,
    pairs st' = pairs st ++ new
    /\ eligibleRosterNames st' = markRoster (eligibleRosterNames st) new.
Proof.
  intros Hnd. unfold fuzzyStep.
  destruct (scheduleANames st !! ref) as [activityEntry|]; [|discriminate].
  destruct (forEachIndexed _ pool 0%nat (0%float, None)) as [[s idx]|]; [|discriminate].
  destruct (tau <? s)%float.
  - destruct idx as [index|]; [|discriminate].
    destruct (pool !! index) as [rosterRef|]; [|discriminate].
    destruct (eligibleRosterNames st !! rosterRef) as [r|] eqn:Hr; [|discriminate].
    cbv zeta. intros [= <-]. exists [FuzzyPair ref rosterRef s].
    cbn [pairs eligibleRosterNames]. split; [reflexivity|].
    rewrite (insert_setMatched _ _ _ Hr).
    unfold findIndex.
    rewrite (findIndexFrom_row (alter setMatched rosterRef (eligibleRosterNames st))
               0 rosterRef (setMatched r)).
    + cbn [Nat.add]. apply alter_setMatched_twice.
    + unfold distinctRows. rewrite rows_alter. exact Hnd.
    + rewrite list_lookup_alter_eq, Hr. reflexivity.
  - intros [= <-]. exists []. rewrite app_nil_r. split; reflexivity.
Qed.

Lemma forEach_trace (f : State -> nat -> option State) (l : list nat) :
  (forall st p st',
     distinctRows (eligibleRosterNames st) -> f st p = Some st' ->
     exists new,
       pairs st' = pairs st ++ new
       /\ eligibleRosterNames st' = markRoster (eligibleRosterNames st) new) ->
  forall st st',
  distinctRows (eligibleRosterNames st) -> forEach f l st = Some st' ->
  exists new,
    pairs st' = pairs st ++ new
    /\ eligibleRosterNames st' = markRoster (eligibleRosterNames st) new.
Proof.
  intros Hf. induction l as [|p l IH]; intros st st' Hnd Hrun.
  - injection Hrun as <-. exists []. rewrite app_nil_r. split; reflexivity.
  - rewrite forEach_cons in Hrun. destruct (f st p) as [st1|] eqn:H1; [|discriminate].
    destruct (Hf st p st1 Hnd H1) as (new1 & Hp1 & Hr1).
    destruct (IH st1 st') as (new2 & Hp2 & Hr2); [|exact Hrun|].
    + unfold distinctRows. rewrite Hr1, rows_markRoster. exact Hnd.
    + exists (new1 ++ new2). rewrite Hp2, Hp1, Hr2, Hr1, markRoster_app, app_assoc.
      split; reflexivity.
Qed.

Lemma rosterEntriesFrom_unmatched (row : nat) (rows : list RosterRow) :
  Forall (fun e => matched e = false) (rosterEntriesFrom row rows).
Proof.
  revert row. induction rows as [|r rows IH]; intros row; cbn [rosterEntriesFrom];
    [constructor|].
  destruct (eligible r); [constructor; [reflexivity|]|]; apply IH.
Qed.

Lemma rosterEntriesFrom_distinctRows (row : nat) (rows : list RosterRow) :
  distinctRows (rosterEntriesFrom row rows).
Proof.
  unfold distinctRows. revert row.
  induction rows as [|r rows IH]; intros row; cbn [rosterEntriesFrom];
    [constructor|].
  destruct (eligible r); [|apply IH].
  cbn [List.map rowIndex]. constructor; [|apply IH].
  intros Hin. apply in_map_iff in Hin. destruct Hin as (e & He & Hin).
  apply rosterEntriesFrom_rows in Hin. destruct Hin as (_ & _ & Hle & _). lia.
Qed.

(** The roster array at the end of a run. *)
Lemma main_roster (rosterRows : list RosterRow) (activityCells : list jsstring)
    (st : State) :
  main rosterRows activityCells = Some st ->
  eligibleRosterNames st = markRoster (rosterEntriesFrom 1 rosterRows) (pairs st).
Proof.
  unfold main, exactPass. rewrite <- buildRoster_entries.
  pose proof (rosterEntriesFrom_distinctRows 1 rosterRows) as Hnd.
  rewrite <- buildRoster_entries in Hnd.
  destruct (buildRoster rosterRows) as [R0 m]. cbn [fst] in *.
  destruct (forEach (exactStep m) _ _) as [st1|] eqn:H1; [|discriminate].
  apply (forEach_trace _ _ (fun st p st' _ => exactStep_trace m st st' p)) in H1;
    [|exact Hnd].
  cbn [pairs eligibleRosterNames app] in H1. destruct H1 as (new1 & Hp1 & Hr1).
  unfold fuzzyPass. rewrite batchLoop_forEach by lia. rewrite drop_0. intros H2.
  apply (forEach_trace _ _ (fun st0 p st' => fuzzyStep_trace _ st0 st' p)) in H2.
  - destruct H2 as (new2 & Hp2 & Hr2).
    rewrite Hr2, Hp2, Hr1, Hp1, markRoster_app. reflexivity.
  - unfold distinctRows. rewrite Hr1, rows_markRoster. exact Hnd.
Qed.

(** ** The highlighting *)

Lemma pinkLoop_spec (scheduleAColIndex : Z) (letters : jsstring) (l : list Entry) :
  getColumnLetter (scheduleAColIndex + 1) = Some letters ->
  truthy letters = true ->
  forall pink,
  forEach (pinkStep scheduleAColIndex) l pink
  = Some (pink ++ List.map (fun e => mkAddress letters (Z.of_nat (rowIndex e) + 1))
                    (List.filter (fun e => negb (matched e)) l)).
Proof.
  intros Hc Ht. induction l as [|e l IH]; intros pink.
  - cbn. rewrite app_nil_r. reflexivity.
  - rewrite forEach_cons. unfold pinkStep at 1. cbn [List.filter].
    destruct (matched e); cbn [negb]; [apply IH|].
    rewrite Hc, Ht. cbv zeta.
    destruct (Z.ltb_spec 0 (Z.of_nat (rowIndex e) + 1)) as [_|Hn]; [|lia].
    cbn [andb List.map]. rewrite IH, <- app_assoc. reflexivity.
Qed.

Lemma redLoop_spec (headerRowIndex rosterColIndex : Z) (letters : jsstring)
    (l : list Entry) :
  0 <= headerRowIndex ->
  getColumnLetter (rosterColIndex + 1) = Some letters ->
  truthy letters = true ->
  forall red,
  forEach (redStep headerRowIndex rosterColIndex) l red
  = Some (red ++ List.map (fun e => mkAddress letters
                                      (headerRowIndex + 1 + Z.of_nat (rowIndex e)))
                    (List.filter matched l)).
Proof.
  intros Hh Hc Ht. induction l as [|e l IH]; intros red.
  - cbn. rewrite app_nil_r. reflexivity.
  - rewrite forEach_cons. unfold redStep at 1. cbn [List.filter].
    destruct (matched e); [|apply IH].
    rewrite Hc, Ht. cbv zeta.
    destruct (Z.ltb_spec 0 (headerRowIndex + 1 + Z.of_nat (rowIndex e))) as [_|Hn];
      [|lia].
    cbn [andb List.map]. rewrite IH, <- app_assoc. reflexivity.
Qed.

(** *** The Schedule A side *)

Lemma entriesFrom_unmatched (row : nat) (cells : list jsstring) :
  Forall (fun e => matched e = false) (entriesFrom row cells).
Proof.
  revert row. induction cells as [|cell cells IH]; intros row; cbn [entriesFrom];
    [constructor|].
  destruct (truthy (normalize cell)); [constructor; [reflexivity|]|]; apply IH.
Qed.

Lemma fuzzyPairsFrom_complete (pool : list nat) (names : list jsstring)
    (l : list Entry) (off p ref : nat) (s : float) (e : Entry) :
  l !! p = Some e -> matched e = false ->
  fuzzyChoice pool names (normalizedName e) = Some (ref, s) ->
  In (FuzzyPair (off + p) ref s) (fuzzyPairsFrom pool names off l).
Proof.
  revert off p. induction l as [|e0 l IH]; intros off p Hl Hun Hc.
  - rewrite lookup_nil in Hl. discriminate.
  - destruct p as [|p]; cbn [fuzzyPairsFrom].
    + injection Hl as ->. rewrite Hun, Hc, Nat.add_0_r. left. reflexivity.
    + change (l !! p = Some e) in Hl.
      replace (off + S p)%nat with (S off + p)%nat by lia.
      destruct (matched e0); [apply IH; assumption|].
      destruct (fuzzyChoice pool names (normalizedName e0)) as [[r0 s0]|];
        [right|]; apply IH; assumption.
Qed.

(** Every entry is left unmatched or is in one pair. *)
Lemma unmatched_count (m : gmap (list N) nat) (pool : list nat)
    (names : list jsstring) (l : list Entry) (off : nat) :
  Forall (fun e => matched e = false) l ->
  (length (List.filter (fun e => negb (matched e))
             (List.map (markFuzzy pool names) (List.map (markExact m) l)))
   + length (exactPairsFrom m off l)
   + length (fuzzyPairsFrom pool names off (List.map (markExact m) l))
   = length l)%nat.
Proof.
  intros Hall. revert off. induction Hall as [|e l Hun _ IH]; intros off;
    [reflexivity|].
  cbn [List.map exactPairsFrom fuzzyPairsFrom List.filter length].
  specialize (IH (S off)).
  destruct (m !! normalizedName e) as [i|] eqn:Hhit.
  - assert (He : markExact m e = setMatched e)
      by (unfold markExact; rewrite Hhit; reflexivity).
    rewrite He. unfold markFuzzy at 1.
    cbn [matched setMatched negb length]. lia.
  - assert (He : markExact m e = e)
      by (unfold markExact; rewrite Hhit; reflexivity).
    rewrite He. unfold markFuzzy at 1. rewrite Hun.
    destruct (fuzzyChoice pool names (normalizedName e)) as [[ref s]|].
    + cbn [matched setMatched negb length]. lia.
    + rewrite Hun. cbn [negb length]. lia.
Qed.

Lemma main_activity (rosterRows : list RosterRow) (activityCells : list jsstring) :
  exists st,
    main rosterRows activityCells = Some st
    /\ Z.of_nat (length (List.filter (fun e => negb (matched e)) (scheduleANames st)))
       = unmatchedScheduleA st
    /\ (forall b e,
          scheduleANames st !! b = Some e ->
          (matched e = true <-> exists pr, In pr (pairs st) /\ pairActivity pr = b))
    /\ (forall e, In e (scheduleANames st) ->
          exists cell, activityCells !! (rowIndex e - 1)%nat = Some cell
            /\ (1 <= rowIndex e)%nat /\ normalize cell <> []).
Proof.
  destruct (main_spec rosterRows activityCells) as (R1 & R2 & He & Hle & Hmk & Hm & Hle2).
  cbn zeta in *.
  set (m := snd (buildRoster rosterRows)) in *.
  set (pool := unmatchedRefs R1) in *. set (names := candidateNames R1) in *.
  pose proof (entriesFrom_unmatched 1 activityCells) as Hun0.
  rewrite <- buildActivity_spec in Hun0.
  eexists. split; [exact Hm|].
  unfold unmatchedScheduleA.
  cbn [scheduleANames eligibleRosterNames pairs exactMatches fuzzyMatches].
  split; [|split].
  - pose proof (unmatched_count m pool names _ 0 Hun0) as Hc.
    rewrite !length_map. lia.
  - intros b e Hb. rewrite !list_lookup_fmap in Hb.
    destruct (buildActivity activityCells !! b) as [e0|] eqn:H0; [|discriminate].
    injection Hb as <-.
    assert (Hu0 : matched e0 = false).
    { rewrite Forall_lookup in Hun0. exact (Hun0 b e0 H0). }
    split.
    + intros Hmt. unfold markFuzzy in Hmt.
      destruct (m !! normalizedName e0) as [i|] eqn:Hhit.
      * exists (ExactPair b i). split; [|reflexivity]. apply in_or_app. left.
        exact (exactPairsFrom_complete m _ 0 b i e0 H0 Hhit).
      * assert (Hme : markExact m e0 = e0)
          by (unfold markExact; rewrite Hhit; reflexivity).
        rewrite Hme, Hu0 in Hmt.
        destruct (fuzzyChoice pool names (normalizedName e0)) as [[ref s]|] eqn:Hc;
          [|congruence].
        exists (FuzzyPair b ref s). split; [|reflexivity]. apply in_or_app. right.
        apply (fuzzyPairsFrom_complete pool names _ 0 b ref s e0).
        -- rewrite list_lookup_fmap, H0. cbn [fmap option_fmap option_map].
           rewrite Hme. reflexivity.
        -- exact Hu0.
        -- exact Hc.
    + intros (pr & Hin & <-). apply pairs_split in Hin.
      destruct Hin as [[_ Hin]|[_ Hin]].
      * apply In_exactPairsFrom in Hin. destruct Hin as (_ & e & Hl & Hhit & _).
        rewrite Nat.sub_0_r, H0 in Hl. injection Hl as <-.
        apply markFuzzy_keeps. unfold markExact. rewrite Hhit. reflexivity.
      * apply In_fuzzyPairsFrom in Hin. destruct Hin as (_ & e & s & Hl & Hu & Hc & _).
        rewrite Nat.sub_0_r, list_lookup_fmap, H0 in Hl. injection Hl as <-.
        unfold markFuzzy. rewrite Hu, Hc. reflexivity.
  - intros e Hin. apply in_map_iff in Hin. destruct Hin as (e1 & <- & Hin).
    apply in_map_iff in Hin. destruct Hin as (e0 & <- & Hin).
    destruct (markFuzzy_fields pool names (markExact m e0)) as [_ ->].
    destruct (markExact_fields m e0) as [_ ->].
    rewrite buildActivity_spec in Hin. apply entriesFrom_rows in Hin.
    destruct Hin as (cell & Hcell & Hrow & _ & Hne). exists cell. auto.
Qed.

(** X11.  The cells filled with pink are the cells of the activity entries
    that are in no pair, in the order of the entries, all in the column of
    the "Schedule A" header: the address check skips none.  Each is a data
    cell with a non-empty normalised name, and their number is the number
    the script logs as unmatched. *)
Theorem pink_cells_are_the_unpaired_entries (rosterRows : list RosterRow)
    (activityCells : list jsstring) (scheduleAColIndex : Z) :
  0 <= scheduleAColIndex ->
  exists st letters pink,
    main rosterRows activityCells = Some st
    /\ getColumnLetter (scheduleAColIndex + 1) = Some letters
    /\ pinkCells scheduleAColIndex st = Some pink
    /\ pink = List.map (fun e => mkAddress letters (Z.of_nat (rowIndex e) + 1))
                (List.filter (fun e => negb (matched e)) (scheduleANames st))
    /\ Z.of_nat (length pink) = unmatchedScheduleA st
    /\ (forall b e,
          scheduleANames st !! b = Some e ->
          (matched e = false <-> forall pr, In pr (pairs st) -> pairActivity pr <> b))
    /\ (forall cell, In cell pink ->
          addressColumn cell = letters
          /\ exists text, activityCells !! Z.to_nat (addressRow cell - 2) = Some text
               /\ normalize text <> []).
Proof.
  intros Hcol.
  destruct (main_activity rosterRows activityCells) as (st & Hm & Hcount & Hiff & Hrows).
  destruct (getColumnLetter_spec (scheduleAColIndex + 1)) as (letters & Hc & Ht).
  assert (Htrue : truthy letters = true) by (apply Ht; lia).
  pose proof (pinkLoop_spec scheduleAColIndex letters (scheduleANames st) Hc Htrue [])
    as Hpink.
  cbn [app] in Hpink.
  exists st, letters. eexists.
  split; [exact Hm|]. split; [exact Hc|]. split; [exact Hpink|].
  split; [reflexivity|]. split; [rewrite length_map; exact Hcount|]. split.
  - intros b e Hb. specialize (Hiff b e Hb). split.
    + intros Hun pr Hin Heq.
      assert (matched e = true) by (apply Hiff; eauto). congruence.
    + intros Hno. destruct (matched e) eqn:Hme; [|reflexivity].
      destruct (proj1 Hiff eq_refl) as (pr & Hin & Heq).
      exfalso. exact (Hno pr Hin Heq).
  - intros cell Hin. apply in_map_iff in Hin. destruct Hin as (e & <- & Hin).
    apply filter_In in Hin. destruct Hin as [Hin _].
    cbn [addressColumn addressRow]. split; [reflexivity|].
    destruct (Hrows e Hin) as (text & Htext & Hrow & Hne).
    exists text. split; [|exact Hne].
    replace (Z.to_nat (Z.of_nat (rowIndex e) + 1 - 2)) with (rowIndex e - 1)%nat by lia.
    exact Htext.
Qed.

(** X11 at the column C and a run that leaves one cell unmatched. *)
Lemma pink_cells_are_the_unpaired_entries_witness :
  0 <= 2
  /\ exists st letters pink,
       main [mkRosterRow (js "jane") (js "doe") (js "Schedule A")]
            [js "jane doe"; js "bob"] = Some st
       /\ getColumnLetter (2 + 1) = Some letters
       /\ pinkCells 2 st = Some pink
       /\ pink = List.map (fun e => mkAddress letters (Z.of_nat (rowIndex e) + 1))
                   (List.filter (fun e => negb (matched e)) (scheduleANames st))
       /\ Z.of_nat (length pink) = unmatchedScheduleA st
       /\ (forall b e,
             scheduleANames st !! b = Some e ->
             (matched e = false <-> forall pr, In pr (pairs st) -> pairActivity pr <> b))
       /\ (forall cell, In cell pink ->
             addressColumn cell = letters
             /\ exists text,
                  [js "jane doe"; js "bob"] !! Z.to_nat (addressRow cell - 2) = Some text
                  /\ normalize text <> []).
Proof.
  split; [lia|].
  apply (pink_cells_are_the_unpaired_entries
           [mkRosterRow (js "jane") (js "doe") (js "Schedule A")]
           [js "jane doe"; js "bob"] 2).
  lia.
Defined.

(** *** The roster side *)

(** The positions of the matched entries of an array. *)
Fixpoint matchedFrom (off : nat) (array : list Entry) : list nat :=
  match array with
  | [] => []
  | entry :: rest =>
      if matched entry then off :: matchedFrom (S off) rest
      else matchedFrom (S off) rest
  end.

Lemma matchedFrom_length (off : nat) (array : list Entry) :
  length (matchedFrom off array) = length (List.filter matched array).
Proof.
  revert off. induction array as [|e array IH]; intros off; cbn [matchedFrom List.filter];
    [reflexivity|].
  destruct (matched e); cbn [length]; rewrite IH; reflexivity.
Qed.

Lemma In_matchedFrom (array : list Entry) (off p : nat) :
  In p (matchedFrom off array) <->
  (off <= p)%nat /\ exists e, array !! (p - off)%nat = Some e /\ matched e = true.
Proof.
  revert off. induction array as [|e array IH]; intros off; cbn [matchedFrom].
  - split; [intros []|]. intros (_ & e & H & _). rewrite lookup_nil in H. discriminate.
  - assert (Hrec : In p (matchedFrom (S off) array) <->
      (S off <= p)%nat
      /\ exists e0, (e :: array) !! (p - off)%nat = Some e0 /\ matched e0 = true).
    { rewrite IH. split; intros (Hle & e0 & Hl & Hm); (split; [lia|]);
        exists e0; replace (p - off)%nat with (S (p - S off)) in * by lia; auto. }
    destruct (matched e) eqn:Hme; cbn [In]; rewrite Hrec.
    + split.
      * intros [<-|(Hle & H)]; [|split; [lia | exact H]].
        split; [lia|]. exists e. rewrite Nat.sub_diag. auto.
      * intros (Hle & e0 & Hl & Hm).
        destruct (decide (off = p)) as [->|Hne]; [left; reflexivity|].
        right. split; [lia|]. eauto.
    + split.
      * intros (Hle & H). split; [lia | exact H].
      * intros (Hle & e0 & Hl & Hm). split; [|eauto].
        destruct (decide (off = p)) as [->|Hne]; [|lia].
        rewrite Nat.sub_diag in Hl. injection Hl as <-. congruence.
Qed.

Lemma NoDup_matchedFrom (off : nat) (array : list Entry) :
  List.NoDup (matchedFrom off array).
Proof.
  revert off. induction array as [|e array IH]; intros off; cbn [matchedFrom];
    [constructor|].
  destruct (matched e); [|apply IH]. constructor; [|apply IH].
  intros Hin. apply In_matchedFrom in Hin. lia.
Qed.

Lemma markRoster_lookup (ps : list Pair) :
  forall (roster : list Entry) (i : nat) (e : Entry),
  roster !! i = Some e ->
  exists e',
    markRoster roster ps !! i = Some e'
    /\ (matched e' = true <-> matched e = true \/ In i (List.map pairRoster ps)).
Proof.
  induction ps as [|pr ps IH]; intros roster i e Hi.
  - exists e. split; [exact Hi|]. cbn. tauto.
  - cbn [markRoster fold_left].
    fold (markRoster (alter setMatched (pairRoster pr) roster) ps).
    destruct (decide (pairRoster pr = i)) as [Heq|Hne].
    + destruct (IH (alter setMatched (pairRoster pr) roster) i (setMatched e))
        as (e' & He' & Hiff).
      { rewrite Heq, list_lookup_alter_eq, Hi. reflexivity. }
      exists e'. split; [exact He'|]. rewrite Hiff. cbn [matched setMatched List.map In].
      tauto.
    + destruct (IH (alter setMatched (pairRoster pr) roster) i e) as (e' & He' & Hiff).
      { rewrite list_lookup_alter_ne by exact Hne. exact Hi. }
      exists e'. split; [exact He'|]. rewrite Hiff. cbn [List.map In]. tauto.
Qed.

(** The roster at the end of a run: the marks are on the roster entries
    of the pairs. *)
Lemma main_roster_marks (rosterRows : list RosterRow) (activityCells : list jsstring) :
  exists st,
    main rosterRows activityCells = Some st
    /\ matchedRosterLogged st = Z.of_nat (length (pairs st))
    /\ (forall pr, In pr (pairs st) ->
          (pairRoster pr < length (eligibleRosterNames st))%nat)
    /\ (forall a e,
          eligibleRosterNames st !! a = Some e ->
          (matched e = true <-> In a (List.map pairRoster (pairs st))))
    /\ (forall e, In e (eligibleRosterNames st) ->
          exists r, rosterRows !! (rowIndex e - 1)%nat = Some r
            /\ (1 <= rowIndex e)%nat /\ eligible r = true).
Proof.
  destruct (main_spec rosterRows activityCells) as (R1 & R2 & He & Hle & Hmk & Hm & Hle2).
  cbn zeta in *.
  pose proof (main_roster _ _ _ Hm) as Hroster. cbn [eligibleRosterNames pairs] in Hroster.
  pose proof (buildRoster_indexesLast rosterRows) as Hidx.
  pose proof (rosterLe_trans _ _ _ Hle Hle2) as Hle02.
  pose proof (rosterLe_length _ _ Hle) as Hlen1.
  pose proof (rosterLe_length _ _ Hle2) as Hlen2.
  set (m := snd (buildRoster rosterRows)) in *.
  eexists. split; [exact Hm|].
  unfold matchedRosterLogged.
  cbn [scheduleANames eligibleRosterNames pairs exactMatches fuzzyMatches].
  split; [rewrite length_app; lia|]. split; [|split].
  - intros pr Hin. apply pairs_split in Hin. destruct Hin as [[_ Hin]|[_ Hin]].
    + apply In_exactPairsFrom in Hin. destruct Hin as (_ & e & _ & Hhit & _).
      pose proof (indexesLast_valid _ _ _ _ Hidx Hhit). lia.
    + apply In_fuzzyPairsFrom in Hin. destruct Hin as (_ & e & s & _ & _ & Hc & _).
      apply fuzzyChoice_Some in Hc. destruct Hc as (k & _ & Hp & _).
      apply list_elem_of_lookup_2, list_elem_of_In, In_unmatchedFrom in Hp.
      destruct Hp as (_ & r & Hr & _). rewrite Nat.sub_0_r in Hr.
      apply lookup_lt_Some in Hr. lia.
  - intros a e Ha.
    destruct (lookup_lt_is_Some_2 (rosterEntriesFrom 1 rosterRows) a) as [e0 H0].
    { rewrite <- buildRoster_entries. apply lookup_lt_Some in Ha. lia. }
    match type of Hroster with
    | _ = markRoster _ ?ps =>
        destruct (markRoster_lookup ps _ a e0 H0) as (e' & He' & Hiff)
    end.
    rewrite <- Hroster, Ha in He'. injection He' as <-.
    rewrite Hiff.
    pose proof (rosterEntriesFrom_unmatched 1 rosterRows) as Hun.
    rewrite Forall_lookup in Hun. specialize (Hun a e0 H0). cbn beta in Hun.
    rewrite Hun. split; [intros [Hx|Hx]; [discriminate | exact Hx] | auto].
  - intros e Hin. apply list_elem_of_In, list_elem_of_lookup_1 in Hin.
    destruct Hin as [a Ha].
    destruct (Forall2_lookup_r _ _ _ _ _ Hle02 Ha) as (e0 & H0 & _ & Hrow & _).
    rewrite buildRoster_entries in H0.
    apply list_elem_of_lookup_2, list_elem_of_In, rosterEntriesFrom_rows in H0.
    destruct H0 as (r & Hr & Hge & Hel & _). rewrite Hrow. exists r. auto.
Qed.

(** X12.  The cells whose text turns red are the cells of the roster
    entries that are in some pair, in the order of the entries, all in the
    column of the "Roster" header and each on the row of an eligible roster
    row: the address check skips none.  Their number is at most the number
    the script logs as marked, and equals it exactly when no roster entry
    is in two pairs. *)
Theorem red_cells_are_the_paired_roster_rows (rosterRows : list RosterRow)
    (activityCells : list jsstring) (headerRowIndex rosterColIndex : Z) :
  0 <= headerRowIndex -> 0 <= rosterColIndex ->
  exists st letters red,
    main rosterRows activityCells = Some st
    /\ getColumnLetter (rosterColIndex + 1) = Some letters
    /\ redCells headerRowIndex rosterColIndex st = Some red
    /\ red = List.map (fun e => mkAddress letters
                                  (headerRowIndex + 1 + Z.of_nat (rowIndex e)))
               (List.filter matched (eligibleRosterNames st))
    /\ (forall a e,
          eligibleRosterNames st !! a = Some e ->
          (matched e = true <-> exists pr, In pr (pairs st) /\ pairRoster pr = a))
    /\ Z.of_nat (length red) <= matchedRosterLogged st
    /\ (Z.of_nat (length red) = matchedRosterLogged st
        <-> List.NoDup (List.map pairRoster (pairs st)))
    /\ (forall cell, In cell red ->
          addressColumn cell = letters
          /\ exists r,
               rosterRows !! Z.to_nat (addressRow cell - headerRowIndex - 2) = Some r
               /\ eligible r = true).
Proof.
  intros Hh Hcol.
  destruct (main_roster_marks rosterRows activityCells)
    as (st & Hm & Hlog & Hvalid & Hiff & Hrows).
  destruct (getColumnLetter_spec (rosterColIndex + 1)) as (letters & Hc & Ht).
  assert (Htrue : truthy letters = true) by (apply Ht; lia).
  pose proof (redLoop_spec headerRowIndex rosterColIndex letters
                (eligibleRosterNames st) Hh Hc Htrue []) as Hred.
  cbn [app] in Hred.
  assert (Hincl : incl (matchedFrom 0 (eligibleRosterNames st))
                       (List.map pairRoster (pairs st))).
  { intros a Ha. apply In_matchedFrom in Ha. destruct Ha as (_ & e & He & Hme).
    rewrite Nat.sub_0_r in He. apply (Hiff a e He), Hme. }
  assert (Hincl' : incl (List.map pairRoster (pairs st))
                        (matchedFrom 0 (eligibleRosterNames st))).
  { intros a Ha. apply In_matchedFrom. split; [lia|]. rewrite Nat.sub_0_r.
    destruct (lookup_lt_is_Some_2 (eligibleRosterNames st) a) as [e He].
    { apply in_map_iff in Ha. destruct Ha as (pr & <- & Hin). apply Hvalid, Hin. }
    exists e. split; [exact He|]. apply (Hiff a e He), Ha. }
  pose proof (List.NoDup_incl_length (NoDup_matchedFrom 0 (eligibleRosterNames st)) Hincl)
    as Hle.
  rewrite matchedFrom_length, length_map in Hle.
  exists st, letters. eexists.
  split; [exact Hm|]. split; [exact Hc|]. split; [exact Hred|].
  split; [reflexivity|]. rewrite length_map, Hlog.
  split; [|split; [lia|split]].
  - intros a e Ha. rewrite (Hiff a e Ha), in_map_iff. split.
    + intros (pr & Heq & Hin). eauto.
    + intros (pr & Hin & Heq). eauto.
  - split.
    + intros Heq.
      apply (List.NoDup_incl_NoDup (NoDup_matchedFrom 0 (eligibleRosterNames st)));
        [|exact Hincl].
      rewrite matchedFrom_length, length_map. lia.
    + intros Hnd. pose proof (List.NoDup_incl_length Hnd Hincl') as Hge.
      rewrite matchedFrom_length, length_map in Hge. lia.
  - intros cell Hin. apply in_map_iff in Hin. destruct Hin as (e & <- & Hin).
    apply filter_In in Hin. destruct Hin as [Hin _].
    cbn [addressColumn addressRow]. split; [reflexivity|].
    destruct (Hrows e Hin) as (r & Hr & Hrow & Hel).
    exists r. split; [|exact Hel].
    replace (Z.to_nat (headerRowIndex + 1 + Z.of_nat (rowIndex e) - headerRowIndex - 2))
      with (rowIndex e - 1)%nat by lia.
    exact Hr.
Qed.

(** X12 with the header on the first row, the roster type in column C and
    one roster row paired with two cells. *)
Lemma red_cells_are_the_paired_roster_rows_witness :
  0 <= 0 /\ 0 <= 2
  /\ exists st letters red,
       main [mkRosterRow (js "john") (js "smith") (js "Schedule A")]
            [js "john smith"; js "John Smith"] = Some st
       /\ getColumnLetter (2 + 1) = Some letters
       /\ redCells 0 2 st = Some red
       /\ red = List.map (fun e => mkAddress letters (0 + 1 + Z.of_nat (rowIndex e)))
                  (List.filter matched (eligibleRosterNames st))
       /\ (forall a e,
             eligibleRosterNames st !! a = Some e ->
             (matched e = true <-> exists pr, In pr (pairs st) /\ pairRoster pr = a))
       /\ Z.of_nat (length red) <= matchedRosterLogged st
       /\ (Z.of_nat (length red) = matchedRosterLogged st
           <-> List.NoDup (List.map pairRoster (pairs st)))
       /\ (forall cell, In cell red ->
             addressColumn cell = letters
             /\ exists r,
                  [mkRosterRow (js "john") (js "smith") (js "Schedule A")]
                    !! Z.to_nat (addressRow cell - 0 - 2) = Some r
                  /\ eligible r = true).
Proof.
  split; [lia|]. split; [lia|].
  apply (red_cells_are_the_paired_roster_rows
           [mkRosterRow (js "john") (js "smith") (js "Schedule A")]
           [js "john smith"; js "John Smith"] 0 2); lia.
Defined.

(** ** Reading the roster sheet in chunks *)

Section Chunks.

Context {Row : Type}.
Variable sheetRow : Z -> Row.

Lemma getValues_empty (startRow endRow : Z) :
  endRow < startRow -> getValues sheetRow startRow endRow = [].
Proof.
  intros H. unfold getValues.
  replace (Z.to_nat (endRow - startRow + 1)) with 0%nat by lia. reflexivity.
Qed.

Lemma getValues_split (startRow midRow endRow : Z) :
  startRow <= midRow + 1 -> midRow <= endRow ->
  getValues sheetRow startRow midRow ++ getValues sheetRow (midRow + 1) endRow
  = getValues sheetRow startRow endRow.
Proof.
  intros H1 H2. unfold getValues.
  set (n1 := Z.to_nat (midRow - startRow + 1)).
  set (n2 := Z.to_nat (endRow - (midRow + 1) + 1)).
  replace (Z.to_nat (endRow - startRow + 1)) with (n1 + n2)%nat by lia.
  rewrite seq_app, List.map_app. f_equal. cbn [Nat.add].
  replace (seq n1 n2) with (List.map (fun k => (n1 + k)%nat) (seq 0 n2)).
  - rewrite List.map_map. apply List.map_ext. intros k. f_equal. lia.
  - assert (Hshift : forall a,
              List.map (fun k => (n1 + k)%nat) (seq a n2) = seq (n1 + a) n2).
    { clear. induction n2 as [|n2 IH]; intros a; [reflexivity|].
      cbn [seq List.map]. f_equal. rewrite IH. f_equal. lia. }
    rewrite Hshift, Nat.add_0_r. reflexivity.
Qed.

Lemma chunkLoop_spec (actualEndRow : Z) (fuel : nat) :
  forall (startRow : Z) (rosterValues : list Row),
  (Z.to_nat (actualEndRow - startRow + 1) <= fuel)%nat ->
  chunkLoop sheetRow fuel startRow actualEndRow rosterValues
  = Some (rosterValues ++ getValues sheetRow startRow actualEndRow).
Proof.
  induction fuel as [|fuel IH]; intros startRow rosterValues Hf; cbn [chunkLoop].
  - destruct (Z.leb_spec startRow actualEndRow) as [Hle|Hgt]; [lia|].
    rewrite getValues_empty, app_nil_r by lia. reflexivity.
  - destruct (Z.leb_spec startRow actualEndRow) as [Hle|Hgt].
    + cbv zeta. rewrite IH by (unfold CHUNK_SIZE; lia).
      rewrite <- app_assoc. do 2 f_equal.
      destruct (Z.min_spec (startRow + CHUNK_SIZE - 1) actualEndRow)
        as [[Hlt ->]|[Hge ->]].
      * rewrite <- (getValues_split startRow (startRow + CHUNK_SIZE - 1) actualEndRow)
          by (unfold CHUNK_SIZE in *; lia).
        do 2 f_equal. lia.
      * rewrite (getValues_empty (startRow + CHUNK_SIZE)) by lia. apply app_nil_r.
    + rewrite getValues_empty, app_nil_r by lia. reflexivity.
Qed.

(** X13.  The chunks of 500 rows, read one after the other, give what one
    read of the rows below the header would give: every row from the one
    after the header to the last is read once, in order, and the element at
    index [k >= 1] of [rosterValues] is the row [headerRowIndex + 1 + k] of
    the sheet, the row the highlighting step computes for an entry with
    [rowIndex = k]. *)
Theorem chunks_are_one_read (headerRowIndex actualEndRow : Z) (rosterHeaderRow : Row) :
  0 <= headerRowIndex ->
  exists rosterValues,
    readRoster sheetRow headerRowIndex actualEndRow rosterHeaderRow = Some rosterValues
    /\ rosterValues = rosterHeaderRow :: getValues sheetRow (headerRowIndex + 2) actualEndRow
    /\ Z.of_nat (length rosterValues) = 1 + Z.max 0 (actualEndRow - headerRowIndex - 1)
    /\ (forall k : nat,
          (1 <= k < length rosterValues)%nat ->
          rosterValues !! k = Some (sheetRow (headerRowIndex + 1 + Z.of_nat k))).
Proof.
  intros Hh. eexists. split; [|split; [reflexivity|]].
  - unfold readRoster. rewrite chunkLoop_spec by lia. reflexivity.
  - unfold getValues. cbn [length]. rewrite length_map, length_seq. split; [lia|].
    intros k Hk. destruct k as [|k]; [lia|]. cbn [lookup list_lookup].
    change (List.map (fun k0 => sheetRow (headerRowIndex + 2 + Z.of_nat k0))
              (seq 0 (Z.to_nat (actualEndRow - (headerRowIndex + 2) + 1))) !! k
            = Some (sheetRow (headerRowIndex + 1 + Z.of_nat (S k)))).
    rewrite list_lookup_fmap, lookup_seq_lt by lia.
    cbn [fmap option_fmap option_map Nat.add]. do 2 f_equal. lia.
Qed.

End Chunks.

(** X13 on a sheet whose row [r] holds the number [r], with the header on
    row 3 and 1203 rows: three chunks. *)
Lemma chunks_are_one_read_witness :
  0 <= 2
  /\ exists rosterValues,
       readRoster (fun r : Z => r) 2 1203 0 = Some rosterValues
       /\ rosterValues = 0 :: getValues (fun r : Z => r) (2 + 2) 1203
       /\ Z.of_nat (length rosterValues) = 1 + Z.max 0 (1203 - 2 - 1)
       /\ (forall k : nat,
             (1 <= k < length rosterValues)%nat ->
             rosterValues !! k = Some (2 + 1 + Z.of_nat k)).
Proof.
  split; [lia|].
  apply (chunks_are_one_read (fun r : Z => r) 2 1203 0). lia.
Defined.

(** ** The batches of the second pass *)

Lemma batchLoop_batches (fuel : nat) (todo pool : list nat) (batchStart : nat)
    (st : State) :
  (length todo <= batchStart + fuel * BATCH_SIZE)%nat ->
  batchLoop fuel todo pool batchStart st
  = forEach (fuzzyStep pool) (drop batchStart todo) st.
Proof.
  revert batchStart st. induction fuel as [|fuel IH]; intros batchStart st Hf;
    cbn [batchLoop].
  - destruct (Nat.ltb_spec batchStart (length todo)); [lia|].
    rewrite drop_ge by lia. reflexivity.
  - destruct (Nat.ltb_spec batchStart (length todo)) as [Hlt|Hge].
    + cbv zeta. rewrite <- (take_drop BATCH_SIZE (drop batchStart todo)) at 2.
      rewrite forEach_app.
      destruct (forEach (fuzzyStep pool) (take BATCH_SIZE (drop batchStart todo)) st)
        as [st'|]; [|reflexivity].
      rewrite drop_drop. apply IH. lia.
    + rewrite drop_ge by lia. reflexivity.
Qed.

Lemma slices_cover (fuel : nat) (todo : list nat) (batchStart : nat) :
  (length todo <= batchStart + fuel * BATCH_SIZE)%nat ->
  drop batchStart todo
  = concat (List.map (fun k => take BATCH_SIZE (drop (batchStart + k * BATCH_SIZE) todo))
                     (seq 0 fuel)).
Proof.
  revert batchStart. induction fuel as [|fuel IH]; intros batchStart Hf.
  - cbn. apply drop_ge. lia.
  - cbn [seq List.map concat]. rewrite <- List.seq_shift, List.map_map.
    rewrite Nat.mul_0_l, Nat.add_0_r.
    rewrite <- (take_drop BATCH_SIZE (drop batchStart todo)) at 1. f_equal.
    rewrite drop_drop, (IH (batchStart + BATCH_SIZE)%nat) by lia.
    f_equal. apply List.map_ext. intros k. do 2 f_equal. lia.
Qed.

(** X14.  The batches are consecutive slices of 50 that cover the entries
    to process once each and in order, and the loop over the batches does
    what one loop over all the entries does: batching changes nothing in the
    result.  [fuel] is the number of turns the loop may take; one for every
    50 entries is enough, and the second pass itself is that single loop. *)
Theorem batches_are_one_loop (fuel : nat) (todo pool : list nat) (st : State) :
  (length todo <= fuel * BATCH_SIZE)%nat ->
  batchLoop fuel todo pool 0 st = forEach (fuzzyStep pool) todo st
  /\ todo = concat (List.map (fun k => take BATCH_SIZE (drop (k * BATCH_SIZE) todo))
                             (seq 0 fuel))
  /\ fuzzyPass st
     = forEach (fuzzyStep (unmatchedRefs (eligibleRosterNames st)))
               (unmatchedRefs (scheduleANames st)) st.
Proof.
  intros Hf. split; [|split].
  - rewrite batchLoop_batches by lia. rewrite drop_0. reflexivity.
  - pose proof (slices_cover fuel todo 0 ltac:(lia)) as H. rewrite drop_0 in H.
    exact H.
  - unfold fuzzyPass. rewrite batchLoop_batches; [rewrite drop_0; reflexivity|].
    unfold BATCH_SIZE. lia.
Qed.

(** A state with 120 activity entries "janedow" and one roster entry
    "janedoe", none matched. *)
Definition batchSample : State :=
  mkState (List.map (fun i => mkEntry (js "janedow") (S i) false) (seq 0 120))
          [mkEntry (js "janedoe") 1 false] 0 0 [].

(** X14 with the 120 entries of [batchSample] to process and one
    candidate: three turns, over slices of 50, 50 and 20 entries, after
    which all 120 entries are matched. *)
Lemma batches_are_one_loop_witness :
  (length (seq 0 120) <= 3 * BATCH_SIZE)%nat
  /\ (batchLoop 3 (seq 0 120) [0%nat] 0 batchSample
      = forEach (fuzzyStep [0%nat]) (seq 0 120) batchSample
      /\ seq 0 120
         = concat (List.map (fun k => take BATCH_SIZE (drop (k * BATCH_SIZE) (seq 0 120)))
                            (seq 0 3))
      /\ fuzzyPass batchSample
         = forEach (fuzzyStep (unmatchedRefs (eligibleRosterNames batchSample)))
                   (unmatchedRefs (scheduleANames batchSample)) batchSample)
  /\ List.map (@length nat)
       (List.map (fun k => take BATCH_SIZE (drop (k * BATCH_SIZE) (seq 0 120))) (seq 0 3))
     = [50%nat; 50%nat; 20%nat]
  /\ unmatchedRefs (scheduleANames batchSample) = seq 0 120
  /\ fuzzyMatches <$> batchLoop 3 (seq 0 120) [0%nat] 0 batchSample = Some 120
  /\ (length ∘ List.filter matched ∘ scheduleANames)
       <$> forEach (fuzzyStep [0%nat]) (seq 0 120) batchSample = Some 120%nat.
Proof.
  split; [vm_compute; lia|]. split.
  - apply (batches_are_one_loop 3 (seq 0 120) [0%nat] batchSample).
    vm_compute. lia.
  - vm_compute. repeat split; reflexivity.
Defined.

(** ** The score at the threshold 0.85, in integers

    For names of up to 100 units the three tests on doubles are decided
    by integer comparisons.  The two tables are checked by evaluation. *)

Definition scoreTableRow (maxLength : Z) : bool :=
  match Math_floor (ofZ maxLength * (1 - tau))%float with
  | Limit k => k =? 3 * maxLength / 20
  | NoLimit => false
  end
  && forallb (fun n =>
        let v := Z.of_nat n in
        Bool.eqb (ofZ maxLength * (1 - tau) <? ofZ v)%float (3 * maxLength <? 20 * v)
        && Bool.eqb (tau <? (ofZ maxLength - ofZ v) / ofZ maxLength)%float
                    (20 * v <? 3 * maxLength))
      (seq 0 (S (Z.to_nat maxLength))).

Definition scoreTable (bound : nat) : bool :=
  forallb (fun n => scoreTableRow (Z.of_nat n)) (seq 1 bound).

Definition jaccardTable (bound : nat) : bool :=
  forallb (fun u =>
      forallb (fun i =>
          Bool.eqb (ofZ (Z.of_nat i) / ofZ (Z.of_nat u) <? 0.6)%float
                   (5 * Z.of_nat i <? 3 * Z.of_nat u))
        (seq 0 (S u)))
    (seq 1 bound).

Lemma scoreTable_100 : scoreTable 100 = true.
Proof. vm_compute. reflexivity. Qed.

Lemma jaccardTable_200 : jaccardTable 200 = true.
Proof. vm_compute. reflexivity. Qed.

Lemma score_tests (maxLength v : Z) :
  1 <= maxLength <= 100 -> 0 <= v <= maxLength ->
  Math_floor (ofZ maxLength * (1 - tau))%float = Limit (3 * maxLength / 20)
  /\ (ofZ maxLength * (1 - tau) <? ofZ v)%float = (3 * maxLength <? 20 * v)
  /\ (tau <? (ofZ maxLength - ofZ v) / ofZ maxLength)%float = (20 * v <? 3 * maxLength).
Proof.
  intros HL Hv. pose proof scoreTable_100 as H. unfold scoreTable in H.
  rewrite forallb_forall in H. specialize (H (Z.to_nat maxLength)).
  rewrite Z2Nat.id in H by lia.
  assert (Hin : In (Z.to_nat maxLength) (seq 1 100)) by (apply in_seq; lia).
  specialize (H Hin). unfold scoreTableRow in H.
  apply andb_prop in H. destruct H as [Hfloor Hrow].
  rewrite forallb_forall in Hrow. specialize (Hrow (Z.to_nat v)).
  cbv zeta in Hrow. rewrite Z2Nat.id in Hrow by lia.
  assert (Hin' : In (Z.to_nat v) (seq 0 (S (Z.to_nat maxLength))))
    by (apply in_seq; lia).
  specialize (Hrow Hin'). apply andb_prop in Hrow. destruct Hrow as [H1 H2].
  apply Bool.eqb_prop in H1, H2. split; [|split; assumption].
  destruct (Math_floor (ofZ maxLength * (1 - tau))%float) as [k|]; [|discriminate].
  apply Z.eqb_eq in Hfloor. rewrite Hfloor. reflexivity.
Qed.

Lemma jaccard_test (intersection union : Z) :
  0 <= intersection <= union -> 1 <= union <= 200 ->
  (ofZ intersection / ofZ union <? 0.6)%float = (5 * intersection <? 3 * union).
Proof.
  intros Hi Hu. pose proof jaccardTable_200 as H. unfold jaccardTable in H.
  rewrite forallb_forall in H. specialize (H (Z.to_nat union)).
  assert (Hin : In (Z.to_nat union) (seq 1 200)) by (apply in_seq; lia).
  specialize (H Hin). rewrite forallb_forall in H. specialize (H (Z.to_nat intersection)).
  assert (Hin' : In (Z.to_nat intersection) (seq 0 (S (Z.to_nat union))))
    by (apply in_seq; lia).
  specialize (H Hin'). rewrite !Z2Nat.id in H by lia.
  apply Bool.eqb_prop in H. exact H.
Qed.

Lemma newSet_length (str : jsstring) : (length (newSet str) <= length str)%nat.
Proof.
  unfold newSet.
  assert (H : forall acc,
            (length (fold_left setAdd str acc) <= length acc + length str)%nat).
  { induction str as [|x str IH]; intros acc; cbn [fold_left length]; [lia|].
    specialize (IH (setAdd acc x)). unfold setAdd in *.
    destruct (setHas acc x); [lia|]. rewrite length_app in IH. cbn [length] in IH. lia. }
  specialize (H []). cbn [length] in H. lia.
Qed.

Lemma jaccardCounts_bounds (str1 str2 : jsstring) :
  let (intersection, union) := jaccardCounts str1 str2 in
  0 <= intersection <= union
  /\ union <= Z.of_nat (length str1) + Z.of_nat (length str2)
  /\ (str1 <> [] -> 1 <= union).
Proof.
  unfold jaccardCounts. rewrite length_app.
  pose proof (filter_split_length (fun x => setHas (newSet str2) x) (newSet str1)) as H1.
  cbv beta in H1.
  pose proof (List.filter_length_le (fun x => negb (setHas (newSet str1) x)) (newSet str2))
    as H2.
  pose proof (newSet_length str1). pose proof (newSet_length str2).
  split; [lia|]. split; [lia|].
  intros Hne. destruct str1 as [|c str1]; [congruence|].
  assert (Hin : In c (newSet (c :: str1))) by (apply newSet_In; left; reflexivity).
  destruct (newSet (c :: str1)); [destruct Hin|]. cbn [length]. lia.
Qed.

(** X15.  For two names of which the longer has between 1 and 100 units,
    the score is above 0.85 exactly when the names begin with the same
    unit, at least three fifths of their distinct units are common to both,
    and the edit distance [d] satisfies [20 * d < 3 * L] for the length [L]
    of the longer name; the budget of the bounded distance is the integer
    part of [3 * L / 20].  The length filter never decides: a pair it
    rejects has [20 * d > 3 * L]. *)
Theorem fuzzy_match_by_integers (str1 str2 : jsstring) :
  let L := Z.max (Z.of_nat (length str1)) (Z.of_nat (length str2)) in
  let d := Z.of_nat (levenshtein str1 str2) in
  1 <= L <= 100 ->
  (tau <? calculateOptimizedSimilarity str1 str2 tau)%float
  = sameUnit (head str1) (head str2)
    && (3 * snd (jaccardCounts str1 str2) <=? 5 * fst (jaccardCounts str1 str2))
    && (20 * d <? 3 * L)
  /\ Math_floor (ofZ L * (1 - tau))%float = Limit (3 * L / 20)
  /\ ((ofZ L * (1 - tau)
       <? ofZ (Z.abs (Z.of_nat (length str1) - Z.of_nat (length str2))))%float = true ->
      3 * L < 20 * d).
Proof.
  cbv zeta. intros HL.
  set (L := Z.max (Z.of_nat (length str1)) (Z.of_nat (length str2))) in *.
  set (lengthDiff := Z.abs (Z.of_nat (length str1) - Z.of_nat (length str2))).
  pose proof (edit_script_lengths str1 str2 _ (levenshtein_script str1 str2)) as Hlen.
  pose proof (levenshtein_max str1 str2) as Hmax.
  assert (Hd : 0 <= Z.of_nat (levenshtein str1 str2) <= L) by (unfold L; lia).
  assert (Hdiff : 0 <= lengthDiff <= L) by (unfold L, lengthDiff; lia).
  assert (Hdd : lengthDiff <= Z.of_nat (levenshtein str1 str2))
    by (unfold lengthDiff; lia).
  destruct (score_tests L lengthDiff HL Hdiff) as (Hfloor & Hfilter & _).
  destruct (score_tests L _ HL Hd) as (_ & _ & Habove).
  assert (Hzero : (tau <? 0)%float = false) by (vm_compute; reflexivity).
  split; [|split; [exact Hfloor|]].
  2:{ rewrite Hfilter. intros H. apply Z.ltb_lt in H. lia. }
  unfold calculateOptimizedSimilarity. cbv zeta. fold L. fold lengthDiff.
  destruct (Z.eqb_spec L 0) as [H0|_]; [lia|].
  rewrite Hfilter.
  destruct (Z.ltb_spec (3 * L) (20 * lengthDiff)) as [Hout|Hin].
  { rewrite Hzero. symmetry. apply andb_false_intro2. apply Z.ltb_ge. lia. }
  destruct (sameUnit (head str1) (head str2)) eqn:Hhead; cbn [negb andb];
    [|exact Hzero].
  assert (Hne : str1 <> []).
  { destruct (sameUnit_head _ _ Hhead) as [[-> ->]|(a & r1 & r2 & -> & _)];
      [subst L; cbn in HL; lia | discriminate]. }
  pose proof (jaccardCounts_bounds str1 str2) as Hj.
  unfold jaccardSimilarity.
  destruct (jaccardCounts str1 str2) as [intersection union]. cbn [fst snd].
  destruct Hj as (Hiu & Hu & Hu1). specialize (Hu1 Hne).
  rewrite jaccard_test by (unfold L in HL; lia).
  destruct (Z.ltb_spec (5 * intersection) (3 * union)) as [Hlow|Hok].
  { rewrite Hzero. symmetry. apply andb_false_intro1. apply Z.leb_gt. lia. }
  replace (3 * union <=? 5 * intersection) with true by (symmetry; apply Z.leb_le; lia).
  cbn [andb]. rewrite Hfloor.
  destruct (levenshteinDistanceWithLimit_spec str1 str2 (Limit (3 * L / 20)))
    as [Hfit Hover].
  cbv zeta in Hfit, Hover. cbn [fits] in Hfit, Hover.
  destruct (Z_le_gt_dec (Z.of_nat (levenshtein str1 str2)) (3 * L / 20)) as [Hle|Hgt].
  - rewrite (Hfit Hle). cbn [exceeds].
    destruct (Z.ltb_spec (3 * L / 20) (Z.of_nat (levenshtein str1 str2))); [lia|].
    exact Habove.
  - destruct (Hover ltac:(lia)) as [-> _]. rewrite Hzero. symmetry.
    apply Z.ltb_ge.
    pose proof (Z.mul_succ_div_gt (3 * L) 20 ltac:(lia)) as Hdiv. lia.
Qed.

(** X15 at "janedow" and "janedoe": length 7, distance 1, six of seven
    distinct units in common. *)
Lemma fuzzy_match_by_integers_witness :
  1 <= Z.max (Z.of_nat (length (js "janedow"))) (Z.of_nat (length (js "janedoe"))) <= 100
  /\ (tau <? calculateOptimizedSimilarity (js "janedow") (js "janedoe") tau)%float
     = sameUnit (head (js "janedow")) (head (js "janedoe"))
       && (3 * snd (jaccardCounts (js "janedow") (js "janedoe"))
           <=? 5 * fst (jaccardCounts (js "janedow") (js "janedoe")))
       && (20 * Z.of_nat (levenshtein (js "janedow") (js "janedoe"))
           <? 3 * Z.max (Z.of_nat (length (js "janedow")))
                        (Z.of_nat (length (js "janedoe"))))
  /\ Math_floor (ofZ (Z.max (Z.of_nat (length (js "janedow")))
                            (Z.of_nat (length (js "janedoe")))) * (1 - tau))%float
     = Limit (3 * Z.max (Z.of_nat (length (js "janedow")))
                        (Z.of_nat (length (js "janedoe"))) / 20)
  /\ ((ofZ (Z.max (Z.of_nat (length (js "janedow")))
                  (Z.of_nat (length (js "janedoe")))) * (1 - tau)
       <? ofZ (Z.abs (Z.of_nat (length (js "janedow"))
                      - Z.of_nat (length (js "janedoe")))))%float = true ->
      3 * Z.max (Z.of_nat (length (js "janedow"))) (Z.of_nat (length (js "janedoe")))
      < 20 * Z.of_nat (levenshtein (js "janedow") (js "janedoe"))).
Proof.
  split; [vm_compute; split; discriminate|].
  apply (fuzzy_match_by_integers (js "janedow") (js "janedoe")).
  vm_compute. split; discriminate.
Defined.

(** ** The run in closed form, and the order of the Schedule A rows *)

Lemma exactPass_roster (rosterRows : list RosterRow) (activityCells : list jsstring)
    (st : State) :
  exactPass rosterRows activityCells = Some st ->
  eligibleRosterNames st = markRoster (rosterEntriesFrom 1 rosterRows) (pairs st).
Proof.
  unfold exactPass. rewrite <- buildRoster_entries.
  pose proof (rosterEntriesFrom_distinctRows 1 rosterRows) as Hnd.
  rewrite <- buildRoster_entries in Hnd.
  destruct (buildRoster rosterRows) as [R0 m]. cbn [fst] in *.
  intros H1.
  apply (forEach_trace _ _ (fun st p st' _ => exactStep_trace m st st' p)) in H1;
    [|exact Hnd].
  cbn [pairs eligibleRosterNames app] in H1. destruct H1 as (new1 & Hp1 & Hr1).
  rewrite Hr1, Hp1. reflexivity.
Qed.

(** The result of a run, written from the rows. *)
Lemma main_closed_form (rosterRows : list RosterRow) (activityCells : list jsstring) :
  let R0 := rosterEntriesFrom 1 rosterRows in
  let m := snd (buildRoster rosterRows) in
  let A0 := entriesFrom 1 activityCells in
  let exactPairs := exactPairsFrom m 0 A0 in
  let R1 := markRoster R0 exactPairs in
  let A1 := List.map (markExact m) A0 in
  let fuzzyPairs := fuzzyPairsFrom (unmatchedRefs R1) (candidateNames R1) 0 A1 in
  main rosterRows activityCells
  = Some (mkState (List.map (markFuzzy (unmatchedRefs R1) (candidateNames R1)) A1)
                  (markRoster R0 (exactPairs ++ fuzzyPairs))
                  (Z.of_nat (length exactPairs))
                  (Z.of_nat (length fuzzyPairs))
                  (exactPairs ++ fuzzyPairs)).
Proof.
  cbv zeta.
  destruct (main_spec rosterRows activityCells) as (R1 & R2 & He & _ & _ & Hm & _).
  cbv zeta in He, Hm.
  pose proof (exactPass_roster _ _ _ He) as H1.
  pose proof (main_roster _ _ _ Hm) as H2.
  cbn [eligibleRosterNames pairs] in H1, H2.
  rewrite buildActivity_spec in *. subst R1. rewrite Hm. f_equal. f_equal. exact H2.
Qed.

Lemma markRoster_length (ps : list Pair) (roster : list Entry) :
  length (markRoster roster ps) = length roster.
Proof.
  rewrite <- (length_map rowIndex), rows_markRoster. apply length_map.
Qed.

Lemma markRoster_value (ps : list Pair) :
  forall (roster : list Entry) (i : nat) (e : Entry),
  roster !! i = Some e ->
  markRoster roster ps !! i
  = Some (if existsb (Nat.eqb i) (List.map pairRoster ps) then setMatched e else e).
Proof.
  induction ps as [|pr ps IH]; intros roster i e Hi; [exact Hi|].
  cbn [markRoster fold_left].
  fold (markRoster (alter setMatched (pairRoster pr) roster) ps).
  cbn [List.map existsb].
  destruct (Nat.eqb_spec i (pairRoster pr)) as [->|Hne]; cbn [orb].
  - rewrite (IH _ (pairRoster pr) (setMatched e))
      by (rewrite list_lookup_alter_eq, Hi; reflexivity).
    destruct (existsb _ _); reflexivity.
  - apply IH. rewrite list_lookup_alter_ne by congruence. exact Hi.
Qed.

(** The marks depend on the set of the paired positions only. *)
Lemma markRoster_ext (roster : list Entry) (ps qs : list Pair) :
  (forall i, In i (List.map pairRoster ps) <-> In i (List.map pairRoster qs)) ->
  markRoster roster ps = markRoster roster qs.
Proof.
  intros Hset. apply list_eq. intros i.
  destruct (roster !! i) as [e|] eqn:Hi.
  - rewrite !(markRoster_value _ _ i e Hi).
    replace (existsb (Nat.eqb i) (List.map pairRoster qs))
      with (existsb (Nat.eqb i) (List.map pairRoster ps)); [reflexivity|].
    apply eq_true_iff_eq. rewrite !existsb_exists. split.
    + intros (x & Hx & Heq). apply Nat.eqb_eq in Heq. subst x.
      exists i. split; [apply Hset, Hx | apply Nat.eqb_refl].
    + intros (x & Hx & Heq). apply Nat.eqb_eq in Heq. subst x.
      exists i. split; [apply Hset, Hx | apply Nat.eqb_refl].
  - apply lookup_ge_None_1 in Hi.
    rewrite !lookup_ge_None_2; [reflexivity| |]; rewrite markRoster_length; exact Hi.
Qed.

Lemma entriesFrom_names (row : nat) (cells : list jsstring) (n : jsstring) :
  (exists e, In e (entriesFrom row cells) /\ normalizedName e = n)
  <-> (exists cell, In cell cells /\ normalize cell = n /\ n <> []).
Proof.
  revert row. induction cells as [|cell cells IH]; intros row; cbn [entriesFrom].
  - split; [intros (e & [] & _) | intros (c & [] & _)].
  - destruct (normalize cell) as [|c0 rest] eqn:En; cbn [truthy].
    + rewrite IH. split.
      * intros (c & Hin & Hc). exists c. split; [right; exact Hin | exact Hc].
      * intros (c & [<-|Hin] & Hc & Hne); [congruence|]. eauto.
    + split.
      * intros (e & [<-|Hin] & He).
        -- exists cell. cbn [normalizedName] in He. subst n.
           split; [left; reflexivity|]. split; [exact En | discriminate].
        -- destruct (proj1 (IH (S row)) (ex_intro _ e (conj Hin He)))
             as (c & Hc & Hn). exists c. split; [right; exact Hc | exact Hn].
      * intros (c & [<-|Hin] & Hc & Hne).
        -- eexists. split; [left; reflexivity|]. cbn [normalizedName]. congruence.
        -- destruct (proj2 (IH (S row)) (ex_intro _ c (conj Hin (conj Hc Hne))))
             as (e & He & Hn). exists e. split; [right; exact He | exact Hn].
Qed.

Lemma exactPairs_rosters (m : gmap (list N) nat) (l : list Entry) (off i : nat) :
  In i (List.map pairRoster (exactPairsFrom m off l))
  <-> exists e, In e l /\ m !! normalizedName e = Some i.
Proof.
  rewrite in_map_iff. split.
  - intros (pr & <- & Hin). apply In_exactPairsFrom in Hin.
    destruct Hin as (_ & e & Hl & Hhit & _). exists e. split; [|exact Hhit].
    apply list_elem_of_In. eapply list_elem_of_lookup_2, Hl.
  - intros (e & Hin & Hhit).
    apply list_elem_of_In, list_elem_of_lookup_1 in Hin. destruct Hin as [p Hp].
    exists (ExactPair (off + p) i). split; [reflexivity|].
    exact (exactPairsFrom_complete m l off p i e Hp Hhit).
Qed.

Lemma fuzzyPairs_rosters (pool : list nat) (names : list jsstring) (l : list Entry)
    (off i : nat) :
  In i (List.map pairRoster (fuzzyPairsFrom pool names off l))
  <-> exists e s, In e l /\ matched e = false
        /\ fuzzyChoice pool names (normalizedName e) = Some (i, s).
Proof.
  rewrite in_map_iff. split.
  - intros (pr & <- & Hin). apply In_fuzzyPairsFrom in Hin.
    destruct Hin as (_ & e & s & Hl & Hun & Hc & _). exists e, s.
    split; [|split; assumption].
    apply list_elem_of_In. eapply list_elem_of_lookup_2, Hl.
  - intros (e & s & Hin & Hun & Hc).
    apply list_elem_of_In, list_elem_of_lookup_1 in Hin. destruct Hin as [p Hp].
    exists (FuzzyPair (off + p) i s). split; [reflexivity|].
    exact (fuzzyPairsFrom_complete pool names l off p i s e Hp Hun Hc).
Qed.

(** What becomes of an activity entry, from its name. *)
Definition fate (m : gmap (list N) nat) (pool : list nat) (names : list jsstring)
    (n : jsstring) : bool :=
  match m !! n with
  | Some _ => true
  | None =>
      match fuzzyChoice pool names n with
      | Some _ => true
      | None => false
      end
  end.

Lemma matched_fate (m : gmap (list N) nat) (pool : list nat) (names : list jsstring)
    (e : Entry) :
  matched e = false ->
  matched (markFuzzy pool names (markExact m e)) = fate m pool names (normalizedName e).
Proof.
  intros Hun. unfold fate, markFuzzy, markExact.
  destruct (m !! normalizedName e); [reflexivity|]. rewrite Hun.
  destruct (fuzzyChoice pool names (normalizedName e)); [reflexivity | exact Hun].
Qed.

Lemma exact_set_incl (m : gmap (list N) nat) (A0 A0' : list Entry) (i : nat) :
  (forall n, (exists e, In e A0 /\ normalizedName e = n) ->
             exists e', In e' A0' /\ normalizedName e' = n) ->
  In i (List.map pairRoster (exactPairsFrom m 0 A0)) ->
  In i (List.map pairRoster (exactPairsFrom m 0 A0')).
Proof.
  intros Hnames Hin. apply exactPairs_rosters in Hin. destruct Hin as (e & He & Hhit).
  destruct (Hnames _ (ex_intro _ e (conj He eq_refl))) as (e' & He' & Hn).
  apply exactPairs_rosters. exists e'. split; [exact He'|]. rewrite Hn. exact Hhit.
Qed.

Lemma fuzzy_set_incl (m : gmap (list N) nat) (pool : list nat) (names : list jsstring)
    (A0 A0' : list Entry) (i : nat) :
  Forall (fun e => matched e = false) A0' ->
  (forall n, (exists e, In e A0 /\ normalizedName e = n) ->
             exists e', In e' A0' /\ normalizedName e' = n) ->
  In i (List.map pairRoster (fuzzyPairsFrom pool names 0 (List.map (markExact m) A0))) ->
  In i (List.map pairRoster (fuzzyPairsFrom pool names 0 (List.map (markExact m) A0'))).
Proof.
  intros Hun' Hnames Hin. apply fuzzyPairs_rosters in Hin.
  destruct Hin as (e & s & He & Hun & Hc).
  apply in_map_iff in He. destruct He as (e0 & <- & He0).
  destruct (markExact_fields m e0) as [Hn0 _]. rewrite Hn0 in Hc.
  apply markExact_unmatched in Hun.
  destruct (Hnames _ (ex_intro _ e0 (conj He0 eq_refl))) as (e' & He' & Hn).
  apply fuzzyPairs_rosters. exists (markExact m e'), s.
  destruct (markExact_fields m e') as [Hn' _].
  split; [apply in_map, He'|]. split.
  - unfold markExact. rewrite Hn, Hun.
    rewrite List.Forall_forall in Hun'. apply Hun', He'.
  - rewrite Hn', Hn. exact Hc.
Qed.

(** X17.  What a run marks does not depend on the order of the Schedule A
    rows, nor on how often a text occurs among them: two lists of cells
    with the same members give the same roster array at the end, and
    activity entries with the same normalised name end with the same
    mark.  (The order of the roster rows does matter: it decides ties in
    the scan and which of several entries with one name is indexed.) *)
Theorem marks_ignore_the_order_of_cells (rosterRows : list RosterRow)
    (activityCells activityCells' : list jsstring) :
  (forall cell, In cell activityCells <-> In cell activityCells') ->
  exists st st',
    main rosterRows activityCells = Some st
    /\ main rosterRows activityCells' = Some st'
    /\ eligibleRosterNames st = eligibleRosterNames st'
    /\ (forall e e',
          In e (scheduleANames st) -> In e' (scheduleANames st') ->
          normalizedName e = normalizedName e' -> matched e = matched e').
Proof.
  intros Hcells.
  pose proof (main_closed_form rosterRows activityCells) as Hm.
  pose proof (main_closed_form rosterRows activityCells') as Hm'.
  cbv zeta in Hm, Hm'.
  set (m := snd (buildRoster rosterRows)) in *.
  set (R0 := rosterEntriesFrom 1 rosterRows) in *.
  set (A0 := entriesFrom 1 activityCells) in *.
  set (A0' := entriesFrom 1 activityCells') in *.
  assert (Hnames : forall n, (exists e, In e A0 /\ normalizedName e = n)
                             <-> (exists e', In e' A0' /\ normalizedName e' = n)).
  { intros n. unfold A0, A0'. rewrite !entriesFrom_names. split;
      intros (c & Hc & H); exists c; (split; [apply Hcells, Hc | exact H]). }
  pose proof (entriesFrom_unmatched 1 activityCells) as Hun. fold A0 in Hun.
  pose proof (entriesFrom_unmatched 1 activityCells') as Hun'. fold A0' in Hun'.
  assert (HR1 : markRoster R0 (exactPairsFrom m 0 A0')
                = markRoster R0 (exactPairsFrom m 0 A0)).
  { apply markRoster_ext. intros i.
    split; apply exact_set_incl; intros n; apply Hnames. }
  rewrite HR1 in Hm'.
  set (R1 := markRoster R0 (exactPairsFrom m 0 A0)) in *.
  set (pool := unmatchedRefs R1) in *. set (names := candidateNames R1) in *.
  eexists. eexists. split; [exact Hm|]. split; [exact Hm'|].
  cbn [eligibleRosterNames scheduleANames]. split.
  - apply markRoster_ext. intros i. rewrite !List.map_app, !in_app_iff.
    split; (intros [H|H]; [left; revert H; apply exact_set_incl
                          |right; revert H; apply fuzzy_set_incl; [assumption|]]);
      intros n; apply Hnames.
  - intros e e' He He' Hn.
    apply in_map_iff in He. destruct He as (e1 & <- & He).
    apply in_map_iff in He. destruct He as (e0 & <- & He).
    apply in_map_iff in He'. destruct He' as (e1' & <- & He').
    apply in_map_iff in He'. destruct He' as (e0' & <- & He').
    destruct (markFuzzy_fields pool names (markExact m e0)) as [H1 _].
    destruct (markFuzzy_fields pool names (markExact m e0')) as [H1' _].
    destruct (markExact_fields m e0) as [H0 _].
    destruct (markExact_fields m e0') as [H0' _].
    rewrite H1, H1', H0, H0' in Hn.
    rewrite List.Forall_forall in Hun, Hun'.
    rewrite !matched_fate by auto. rewrite Hn. reflexivity.
Qed.

(** X17 on two cells in either order. *)
Lemma marks_ignore_the_order_of_cells_witness :
  (forall cell, In cell [js "jane dow"; js "jane doe"]
                <-> In cell [js "jane doe"; js "jane dow"; js "jane doe"])
  /\ exists st st',
       main [mkRosterRow (js "jane") (js "doe") (js "Schedule A")]
            [js "jane dow"; js "jane doe"] = Some st
       /\ main [mkRosterRow (js "jane") (js "doe") (js "Schedule A")]
               [js "jane doe"; js "jane dow"; js "jane doe"] = Some st'
       /\ eligibleRosterNames st = eligibleRosterNames st'
       /\ (forall e e',
             In e (scheduleANames st) -> In e' (scheduleANames st') ->
             normalizedName e = normalizedName e' -> matched e = matched e').
Proof.
  assert (H : forall cell, In cell [js "jane dow"; js "jane doe"]
                <-> In cell [js "jane doe"; js "jane dow"; js "jane doe"]).
  { intros cell. cbn [In]. tauto. }
  split; [exact H|].
  apply (marks_ignore_the_order_of_cells
           [mkRosterRow (js "jane") (js "doe") (js "Schedule A")]
           [js "jane dow"; js "jane doe"]
           [js "jane doe"; js "jane dow"; js "jane doe"] H).
Defined.

(** ** Which rows get no entry *)

(** The code units that leave a letter in a normalised name: A-Z, a-z,
    and the two units whose lower-case form holds a letter (U+0130 and the
    Kelvin sign). *)
Definition givesLetter (c : N) : bool :=
  ((65 <=? c) && (c <=? 90) || isLowerAZ c || (c =? 304) || (c =? 8490))%N.

Lemma lettersOfUnit_nil (c : N) : lettersOfUnit c = [] <-> givesLetter c = false.
Proof.
  unfold lettersOfUnit, toLowerCaseUnit, givesLetter, isLowerAZ.
  destruct (N.leb_spec 65 c), (N.leb_spec c 90); cbn [andb orb List.filter];
    try (destruct (N.leb_spec 97 (c + 32)), (N.leb_spec (c + 32) 122);
         cbn [andb]; try lia; split; discriminate).
  all: destruct (N.eqb_spec c 304) as [->|];
    [cbn; split; discriminate|];
    destruct (N.eqb_spec c 8490) as [->|];
    [cbn; split; discriminate|];
    cbn [List.filter];
    destruct (N.leb_spec 97 c), (N.leb_spec c 122); cbn [andb orb];
    split; (reflexivity || discriminate || lia).
Qed.

Lemma letters_nil (s : jsstring) : letters s = [] <-> existsb givesLetter s = false.
Proof.
  induction s as [|c s IH]; [cbn; tauto|].
  rewrite letters_cons. cbn [existsb]. rewrite orb_false_iff, <- IH, <- lettersOfUnit_nil.
  split.
  - intros H. apply app_eq_nil in H. exact H.
  - intros [-> ->]. reflexivity.
Qed.

(** Every cell with a non-empty normalised name becomes an entry, with its
    row number. *)
Lemma entriesFrom_complete (cells : list jsstring) :
  forall (row k : nat) (cell : jsstring),
  cells !! k = Some cell -> normalize cell <> [] ->
  exists i, entriesFrom row cells !! i
            = Some (mkEntry (normalize cell) (row + k) false).
Proof.
  induction cells as [|cell0 cells IH]; intros row k cell Hk Hne.
  - rewrite lookup_nil in Hk. discriminate.
  - cbn [entriesFrom]. destruct k as [|k].
    + injection Hk as ->. destruct (normalize cell) eqn:E; [congruence|].
      cbn [truthy]. rewrite Nat.add_0_r. exists 0%nat. reflexivity.
    + change (cells !! k = Some cell) in Hk.
      destruct (IH (S row) k cell Hk Hne) as [i Hi].
      replace (row + S k)%nat with (S row + k)%nat by lia.
      destruct (truthy (normalize cell0)); [exists (S i) | exists i]; exact Hi.
Qed.

Lemma In_rowIndex (array : list Entry) (row : nat) :
  (exists e, In e array /\ rowIndex e = row) <-> In row (List.map rowIndex array).
Proof.
  rewrite in_map_iff. split; intros (e & H1 & H2); exists e; auto.
Qed.

(** X16.  Which rows get an entry.  A Schedule A cell gets an entry exactly
    when the text before its first "(" holds a letter, and a roster row
    gets one exactly when its type is one of the four Schedule A types and
    one of its two names holds a letter before its first "(": a cell such
    as "(vacant)" or "123" is dropped, its normalised name being empty.
    The entry of a row carries the number of the row, and in every run the
    number of activity entries is the number of cells with such a
    letter. *)
Theorem rows_without_letters_are_dropped (rosterRows : list RosterRow)
    (activityCells : list jsstring) :
  (forall cell,
     normalize cell = [] <-> existsb givesLetter (beforeParen cell) = false)
  /\ (forall r,
        normalizeName (cleanName (FirstName r)) (cleanName (LastName r)) = []
        <-> existsb givesLetter (beforeParen (FirstName r)) = false
            /\ existsb givesLetter (beforeParen (LastName r)) = false)
  /\ normalize (js "(vacant)") = [] /\ normalize (js "123") = []
  /\ exists st,
       main rosterRows activityCells = Some st
       /\ length (scheduleANames st)
          = length (List.filter (fun cell => existsb givesLetter (beforeParen cell))
                                activityCells)
       /\ (forall k cell,
             activityCells !! k = Some cell ->
             ((exists e, In e (scheduleANames st) /\ rowIndex e = S k)
              <-> existsb givesLetter (beforeParen cell) = true))
       /\ (forall k r,
             rosterRows !! k = Some r ->
             ((exists e, In e (eligibleRosterNames st) /\ rowIndex e = S k)
              <-> trim (Roster r) ∈ scheduleATypes
                  /\ existsb givesLetter (beforeParen (FirstName r))
                     || existsb givesLetter (beforeParen (LastName r)) = true))
       /\ (forall k, In k (List.map rowIndex (scheduleANames st)) ->
             (1 <= k <= length activityCells)%nat)
       /\ (forall k, In k (List.map rowIndex (eligibleRosterNames st)) ->
             (1 <= k <= length rosterRows)%nat).
Proof.
  assert (Hcell : forall cell,
            normalize cell = [] <-> existsb givesLetter (beforeParen cell) = false).
  { intros cell. rewrite normalize_letters. apply letters_nil. }
  assert (Hrow : forall r,
            normalizeName (cleanName (FirstName r)) (cleanName (LastName r)) = []
            <-> existsb givesLetter (beforeParen (FirstName r)) = false
                /\ existsb givesLetter (beforeParen (LastName r)) = false).
  { intros r. rewrite normalizeName_letters, !letters_cleanName, <- !letters_nil. split.
    - intros H. apply app_eq_nil in H. exact H.
    - intros [-> ->]. reflexivity. }
  split; [exact Hcell|]. split; [exact Hrow|].
  split; [reflexivity|]. split; [reflexivity|].
  pose proof (main_closed_form rosterRows activityCells) as Hm. cbv zeta in Hm.
  eexists. split; [exact Hm|]. cbn [scheduleANames eligibleRosterNames].
  assert (HrowsA : forall pool names m l,
            List.map rowIndex (List.map (markFuzzy pool names) (List.map (markExact m) l))
            = List.map rowIndex l).
  { intros pool names m l. rewrite !List.map_map. apply List.map_ext. intros e.
    destruct (markFuzzy_fields pool names (markExact m e)) as [_ ->].
    apply markExact_fields. }
  split; [|split; [|split; [|split]]].
  - rewrite !length_map, entriesFrom_length. f_equal.
    apply List.filter_ext. intros cell.
    destruct (existsb givesLetter (beforeParen cell)) eqn:E.
    + destruct (normalize cell) eqn:En; [|reflexivity].
      apply Hcell in En. congruence.
    + apply Hcell in E. rewrite E. reflexivity.
  - intros k cell Hk. rewrite In_rowIndex, HrowsA, <- In_rowIndex. split.
    + intros (e & Hin & He). apply entriesFrom_rows in Hin.
      destruct Hin as (cell' & Hcell' & Hle & _ & Hne).
      rewrite He in Hcell'. cbn [Nat.sub] in Hcell'. rewrite Nat.sub_0_r, Hk in Hcell'.
      injection Hcell' as <-.
      destruct (existsb givesLetter (beforeParen cell)) eqn:E; [reflexivity|].
      apply Hcell in E. congruence.
    + intros E.
      assert (Hne : normalize cell <> []).
      { intros En. apply Hcell in En. congruence. }
      destruct (entriesFrom_complete activityCells 1 k cell Hk Hne) as [i Hi].
      eexists. split; [apply list_elem_of_In; eapply list_elem_of_lookup_2, Hi|].
      reflexivity.
  - intros k r Hk. rewrite In_rowIndex, rows_markRoster, <- In_rowIndex.
    rewrite orb_true_iff. split.
    + intros (e & Hin & He). apply rosterEntriesFrom_rows in Hin.
      destruct Hin as (r' & Hr' & Hle & Hel & _).
      rewrite He in Hr'. cbn [Nat.sub] in Hr'. rewrite Nat.sub_0_r, Hk in Hr'.
      injection Hr' as <-. apply eligible_iff in Hel. destruct Hel as [Htype Hne].
      split; [exact Htype|].
      destruct (existsb givesLetter (beforeParen (FirstName r))) eqn:E1; [auto|].
      destruct (existsb givesLetter (beforeParen (LastName r))) eqn:E2; [auto|].
      exfalso. apply Hne, Hrow. auto.
    + intros [Htype Hletter].
      assert (Hel : eligible r = true).
      { apply eligible_iff. split; [exact Htype|]. intros En. apply Hrow in En.
        destruct En as [E1 E2]. rewrite E1, E2 in Hletter.
        destruct Hletter; discriminate. }
      destruct (rosterEntriesFrom_complete rosterRows 1 k r Hk Hel) as [i Hi].
      eexists. split; [apply list_elem_of_In; eapply list_elem_of_lookup_2, Hi|].
      reflexivity.
  - intros k Hin. rewrite HrowsA in Hin. apply in_map_iff in Hin.
    destruct Hin as (e & <- & Hin). apply entriesFrom_rows in Hin.
    destruct Hin as (cell & Hcell' & Hle & _). apply lookup_lt_Some in Hcell'. lia.
  - intros k Hin. rewrite rows_markRoster in Hin. apply in_map_iff in Hin.
    destruct Hin as (e & <- & Hin). apply rosterEntriesFrom_rows in Hin.
    destruct Hin as (r & Hr & Hle & _). apply lookup_lt_Some in Hr. lia.
Qed.

(** ** The header row and the columns *)

Lemma startsWith_app (sub post : jsstring) : startsWith (sub ++ post) sub = true.
Proof.
  induction sub as [|b sub IH]; [destruct post; reflexivity|].
  cbn [app startsWith]. rewrite N.eqb_refl. exact IH.
Qed.

Lemma includes_app (pre sub post : jsstring) :
  includes (pre ++ sub ++ post) sub = true.
Proof.
  induction pre as [|a pre IH].
  - cbn [app]. destruct (sub ++ post) eqn:E; cbn [includes];
      rewrite <- E, startsWith_app; reflexivity.
  - cbn [app includes]. rewrite IH. apply orb_true_r.
Qed.

Lemma isColumn_trim (name : jsstring) (col : Cell) :
  isColumn name col = true -> trim (cellText col) = name.
Proof.
  unfold isColumn. intros H. apply andb_prop in H. destruct H as [_ H].
  apply bool_decide_eq_true in H. exact H.
Qed.

(** A cell that is a header exactly also mentions it. *)
Lemma isColumn_mentions (name : jsstring) (col : Cell) :
  isColumn name col = true -> mentions name col = true.
Proof.
  intros H. pose proof (isColumn_trim _ _ H) as Ht.
  unfold isColumn in H. apply andb_prop in H. destruct H as [Htruthy _].
  unfold mentions. rewrite Htruthy. cbn [andb].
  destruct (trim_split (cellText col)) as (pre & post & Heq & _ & _).
  rewrite Heq, Ht. apply includes_app.
Qed.

Lemma findHeaderRow_spec (headerValues : list (list Cell)) :
  forall (i h : nat) (row : list Cell),
  findHeaderRow i headerValues = Some (h, row) ->
  (i <= h)%nat
  /\ headerValues !! (h - i)%nat = Some row
  /\ isHeaderRow row = true
  /\ forall j row', (j < h - i)%nat -> headerValues !! j = Some row' ->
       isHeaderRow row' = false.
Proof.
  induction headerValues as [|row0 rest IH]; intros i h row; cbn [findHeaderRow];
    [discriminate|].
  destruct (isHeaderRow row0) eqn:E.
  - intros [= <- <-]. rewrite Nat.sub_diag. repeat split; auto. intros j row' Hj. lia.
  - intros H. destruct (IH _ _ _ H) as (Hle & Hl & Hrow & Hfirst).
    split; [lia|]. replace (h - i)%nat with (S (h - S i)) by lia.
    split; [exact Hl|]. split; [exact Hrow|].
    intros j row' Hj Hl'. destruct j as [|j].
    + injection Hl' as <-. exact E.
    + apply (Hfirst j row'); [lia | exact Hl'].
Qed.

Lemma findHeaderRow_app (before after : list (list Cell)) (row : list Cell) (i : nat) :
  Forall (fun r => isHeaderRow r = false) before -> isHeaderRow row = true ->
  findHeaderRow i (before ++ row :: after) = Some ((i + length before)%nat, row).
Proof.
  intros Hb Hrow. revert i. induction Hb as [|r before Hr _ IH]; intros i.
  - cbn [app findHeaderRow length]. rewrite Hrow, Nat.add_0_r. reflexivity.
  - cbn [app findHeaderRow length]. rewrite Hr, IH. do 2 f_equal. lia.
Qed.

Lemma findColumnFrom_spec (p : Cell -> bool) (array : list Cell) :
  forall (off k : nat),
  findColumnFrom p off array = Some k ->
  (off <= k)%nat
  /\ exists col, array !! (k - off)%nat = Some col /\ p col = true.
Proof.
  induction array as [|col0 rest IH]; intros off k; cbn [findColumnFrom];
    [discriminate|].
  destruct (p col0) eqn:E.
  - intros [= <-]. rewrite Nat.sub_diag. split; [lia|]. exists col0. auto.
  - intros H. destruct (IH _ _ H) as (Hle & col & Hl & Hp).
    split; [lia|]. exists col. replace (k - off)%nat with (S (k - S off)) by lia. auto.
Qed.

(** X18.  The header row is the first row of the range in which some
    truthy cell contains "FirstName", "LastName" or "Roster"; a row with a
    cell that is one of these names exactly (after trimming) is such a row.
    When the search succeeds, the three columns are three different cells
    of that row.  When that first row lacks one of the three exact headers
    the script stops, whatever the rows below it hold: a title row
    "Roster 2024" above a proper header row makes the search fail. *)
Theorem header_row_is_the_first_mention :
  (forall headerValues c,
     findColumns headerValues = Some c ->
     exists row cf cl cr,
       headerValues !! headerRowIndex c = Some row
       /\ isHeaderRow row = true
       /\ (forall j row', (j < headerRowIndex c)%nat ->
             headerValues !! j = Some row' -> isHeaderRow row' = false)
       /\ row !! firstNameColIndex c = Some cf
       /\ trim (cellText cf) = js "FirstName"
       /\ row !! lastNameColIndex c = Some cl
       /\ trim (cellText cl) = js "LastName"
       /\ row !! rosterColIndex c = Some cr
       /\ trim (cellText cr) = js "Roster"
       /\ firstNameColIndex c <> lastNameColIndex c
       /\ firstNameColIndex c <> rosterColIndex c
       /\ lastNameColIndex c <> rosterColIndex c)
  /\ (forall row col name,
        In col row -> isColumn name col = true ->
        name = js "FirstName" \/ name = js "LastName" \/ name = js "Roster" ->
        isHeaderRow row = true)
  /\ (forall before row after,
        Forall (fun r => isHeaderRow r = false) before ->
        isHeaderRow row = true ->
        Forall (fun col => isColumn (js "FirstName") col = false) row
        \/ Forall (fun col => isColumn (js "LastName") col = false) row
        \/ Forall (fun col => isColumn (js "Roster") col = false) row ->
        findColumns (before ++ row :: after) = None)
  /\ findColumns [[stringCell (js "Roster 2024")];
                  [stringCell (js "FirstName"); stringCell (js "LastName");
                   stringCell (js " Roster ")]] = None
  /\ findColumns [[stringCell (js "Staff list")];
                  [stringCell (js "FirstName"); stringCell (js "LastName");
                   stringCell (js " Roster ")]] = Some (mkColumns 1 0 1 2).
Proof.
  split; [|split; [|split; [|split; vm_compute; reflexivity]]].
  - intros headerValues c. unfold findColumns.
    destruct (findHeaderRow 0 headerValues) as [[h row]|] eqn:Hh; [|discriminate].
    destruct (findColumnFrom (isColumn (js "FirstName")) 0 row) as [f|] eqn:Hf;
      [|discriminate].
    destruct (findColumnFrom (isColumn (js "LastName")) 0 row) as [l|] eqn:Hl;
      [|discriminate].
    destruct (findColumnFrom (isColumn (js "Roster")) 0 row) as [r|] eqn:Hr;
      [|discriminate].
    intros [= <-]. cbn [headerRowIndex firstNameColIndex lastNameColIndex rosterColIndex].
    apply findHeaderRow_spec in Hh. destruct Hh as (_ & Hrow & Hhead & Hfirst).
    rewrite Nat.sub_0_r in Hrow, Hfirst.
    apply findColumnFrom_spec in Hf, Hl, Hr.
    destruct Hf as (_ & cf & Hcf & Hpf). destruct Hl as (_ & cl & Hcl & Hpl).
    destruct Hr as (_ & cr & Hcr & Hpr). rewrite Nat.sub_0_r in Hcf, Hcl, Hcr.
    apply isColumn_trim in Hpf, Hpl, Hpr.
    exists row, cf, cl, cr. repeat split; try assumption.
    + intros E. rewrite E, Hcl in Hcf. injection Hcf as <-.
      rewrite Hpl in Hpf. discriminate.
    + intros E. rewrite E, Hcr in Hcf. injection Hcf as <-.
      rewrite Hpr in Hpf. discriminate.
    + intros E. rewrite E, Hcr in Hcl. injection Hcl as <-.
      rewrite Hpr in Hpl. discriminate.
  - intros row col name Hin Hcol Hname. apply isColumn_mentions in Hcol.
    assert (Hex : existsb (mentions name) row = true)
      by (apply existsb_exists; eauto).
    unfold isHeaderRow. destruct Hname as [->|[->| ->]]; rewrite Hex;
      rewrite ?orb_true_r; reflexivity.
  - intros before row after Hb Hrow Hmiss. unfold findColumns.
    rewrite (findHeaderRow_app before after row 0 Hb Hrow).
    assert (Hnone : forall name,
              Forall (fun col => isColumn name col = false) row ->
              findColumnFrom (isColumn name) 0 row = None).
    { intros name Hall. destruct (findColumnFrom (isColumn name) 0 row) as [k|] eqn:E;
        [|reflexivity].
      apply findColumnFrom_spec in E. destruct E as (_ & col & Hl & Hp).
      rewrite Forall_lookup in Hall. rewrite (Hall _ _ Hl) in Hp. discriminate. }
    destruct Hmiss as [H|[H|H]]; rewrite (Hnone _ H);
      repeat match goal with
             | |- match ?x with _ => _ end = None => destruct x
             end; reflexivity.
Qed.
